(** * A 3x3x3 cube: facelet grid, the twelve quarter turns, and the solver

    Shallow embedding of [src/rubix.py] (classes [RubiksCube] and
    [CubeSolver]) and the properties of its specification.

    The development has two models of the same source.

    - The _value model_ (top level): a [RubiksCube] is the content of its
      six 3x3 grids plus its move history; every method is a computation in
      a state-and-exception monad over that value.  A Python [IndexError]
      is the failing computation.
    - The _store model_ (module [Store]): rows (the inner Python lists) and
      cube objects live in a store and are named by references, so that
      [copy], aliasing and in-place mutation are explicit.  It is used for
      the frame property of the solver. *)

From Stdlib Require Import Ascii String.
From stdpp Require Import base option list sets strings.

Local Open Scope string_scope.
Local Open Scope list_scope.
Local Open Scope nat_scope.

(** ** Data model *)

(** [class Face(Enum)] *)
Inductive Face : Type := FRONT | BACK | LEFT | RIGHT | UP | DOWN.

#[global] Instance Face_eq_dec : EqDecision Face.
Proof. solve_decision. Defined.

(** [for face in Face]: the members in definition order. *)
Definition all_faces : list Face := [FRONT; BACK; LEFT; RIGHT; UP; DOWN].

(** A facelet colour is a one-character Python string. *)
Abbreviation color := ascii (only parsing).

(** A face is a list of rows, each row a list of colours. *)
Abbreviation grid := (list (list ascii)) (only parsing).

(** [self.faces]: a dict whose key set is exactly the six members of
    [Face] from construction on (no key is ever added or removed), hence a
    record indexed by [Face].  The values are grids in the value model and
    lists of row references in the store model. *)
Record FaceDict (A : Type) : Type := mkFaces {
  at_FRONT : A; at_BACK : A; at_LEFT : A;
  at_RIGHT : A; at_UP : A; at_DOWN : A }.
Arguments mkFaces {A} _ _ _ _ _ _.
Arguments at_FRONT {A} _.
Arguments at_BACK {A} _.
Arguments at_LEFT {A} _.
Arguments at_RIGHT {A} _.
Arguments at_UP {A} _.
Arguments at_DOWN {A} _.

Definition face_get {A : Type} (d : FaceDict A) (f : Face) : A :=
  match f with
  | FRONT => at_FRONT d | BACK => at_BACK d | LEFT => at_LEFT d
  | RIGHT => at_RIGHT d | UP => at_UP d | DOWN => at_DOWN d
  end.

Definition face_set {A : Type} (d : FaceDict A) (f : Face) (g : A) : FaceDict A :=
  match f with
  | FRONT => mkFaces g (at_BACK d) (at_LEFT d) (at_RIGHT d) (at_UP d) (at_DOWN d)
  | BACK => mkFaces (at_FRONT d) g (at_LEFT d) (at_RIGHT d) (at_UP d) (at_DOWN d)
  | LEFT => mkFaces (at_FRONT d) (at_BACK d) g (at_RIGHT d) (at_UP d) (at_DOWN d)
  | RIGHT => mkFaces (at_FRONT d) (at_BACK d) (at_LEFT d) g (at_UP d) (at_DOWN d)
  | UP => mkFaces (at_FRONT d) (at_BACK d) (at_LEFT d) (at_RIGHT d) g (at_DOWN d)
  | DOWN => mkFaces (at_FRONT d) (at_BACK d) (at_LEFT d) (at_RIGHT d) (at_UP d) g
  end.

(** [class RubiksCube]: attributes [faces] and [move_history]. *)
Record RubiksCube : Type := mkCube {
  faces : FaceDict grid;
  move_history : list string }.

(** ** The method monad: state [self], failure for a raised exception *)

Definition M (A : Type) : Type := RubiksCube → option (A * RubiksCube).

#[global] Instance M_ret : MRet M := λ A a s, Some (a, s).
#[global] Instance M_bind : MBind M := λ A B f m s,
  match m s with
  | Some (a, s') => f a s'
  | None => None
  end.

Definition raise {A : Type} : M A := λ _, None.
Definition get_self : M RubiksCube := λ s, Some (s, s).
Definition put_self (s : RubiksCube) : M unit := λ _, Some ((), s).

(** [x = o] where [o] is the result of a subscript that may raise. *)
Definition lift_option {A : Type} (o : option A) : M A :=
  match o with Some a => mret a | None => raise end.

(** [for x in xs: body(x)] *)
Fixpoint for_each {X : Type} (xs : list X) (body : X → M unit) : M unit :=
  match xs with
  | [] => mret ()
  | x :: xs' => body x ;; for_each xs' body
  end.

(** [enumerate(values)] *)
Definition enumerate {X : Type} (values : list X) : list (nat * X) :=
  zip (seq 0 (length values)) values.

(** [range(3)] *)
Definition range3 : list nat := [0; 1; 2].

(** The state reached by a method call, dropping its result. *)
Definition exec {A : Type} (m : M A) (s : RubiksCube) : option RubiksCube :=
  snd <$> m s.

(** ** [RubiksCube] *)

(** [[[c] * 3 for _ in range(3)]] *)
Definition uniform (c : color) : grid := replicate 3 (replicate 3 c).

(** [__init__] *)
Definition init : RubiksCube :=
  {| faces := {| at_FRONT := uniform "G"%char; at_BACK := uniform "B"%char;
                 at_LEFT := uniform "O"%char; at_RIGHT := uniform "R"%char;
                 at_UP := uniform "W"%char; at_DOWN := uniform "Y"%char |};
     move_history := [] |}.

(** [copy]: a fresh cube whose faces are rebuilt row by row and whose
    history is a copy of the list. *)
Definition copy (self : RubiksCube) : RubiksCube :=
  let new_cube := init in
  let new_faces :=
    foldl (λ d face, face_set d face (map (λ row, row) (face_get (faces self) face)))
          (faces new_cube) all_faces in
  {| faces := new_faces; move_history := move_history self |}.

(** The fixed face order of the two serialisations. *)
Definition urfdlb : list Face := [UP; RIGHT; FRONT; DOWN; LEFT; BACK].

(** [get_state_string]: [state += col] for every facelet in order. *)
Definition get_state_string (self : RubiksCube) : string :=
  foldl (λ state face,
    foldl (λ state row,
      foldl (λ state col, state +:+ String col "") state row)
      state (face_get (faces self) face))
    "" urfdlb.

(** [target_colors] of [is_solved], in the dict's insertion order. *)
Definition target_colors : list (Face * color) :=
  [(FRONT, "G"); (BACK, "B"); (LEFT, "O"); (RIGHT, "R"); (UP, "W"); (DOWN, "Y")]%char.

(** [is_solved]: false at the first facelet that differs from the target
    colour of its face, true when there is none. *)
Definition is_solved (self : RubiksCube) : bool :=
  forallb (λ '(face, target_color),
    forallb (λ row,
      forallb (λ c : color, bool_decide (c = target_color)) row)
      (face_get (faces self) face))
    target_colors.

(** [self.faces[face][i][j]] read. *)
Definition read_cell (face : Face) (i j : nat) : M color :=
  self ← get_self;
  row ← lift_option (face_get (faces self) face !! i);
  lift_option (row !! j).

(** [self.faces[face][i][j] = v]: raises when [i] or [j] is out of range. *)
Definition write_cell (face : Face) (i j : nat) (v : color) : M unit :=
  self ← get_self;
  let g := face_get (faces self) face in
  row ← lift_option (g !! i);
  if decide (j < length row) then
    put_self {| faces := face_set (faces self) face (<[i := <[j := v]> row]> g);
                move_history := move_history self |}
  else raise.

(** [rotate_face_clockwise] *)
Definition rotate_face_clockwise (face : Face) : M unit :=
  self ← get_self;
  let old_face := map (λ row, row) (face_get (faces self) face) in
  for_each range3 (λ i,
    for_each range3 (λ j,
      v ← lift_option (old_face !! i ≫= (.!! j));
      write_cell face j (2 - i) v)).

(** [rotate_face_counterclockwise]: three clockwise turns. *)
Definition rotate_face_counterclockwise (face : Face) : M unit :=
  for_each range3 (λ _, rotate_face_clockwise face).

(** [get_row] *)
Definition get_row (face : Face) (row_idx : nat) : M (list color) :=
  self ← get_self;
  lift_option (face_get (faces self) face !! row_idx).

(** [get_col] *)
Definition get_col (face : Face) (col_idx : nat) : M (list color) :=
  mapM (λ i, read_cell face i col_idx) range3.

(** [set_row] *)
Definition set_row (face : Face) (row_idx : nat) (values : list color) : M unit :=
  for_each (enumerate values) (λ '(i, val), write_cell face row_idx i val).

(** [set_col] *)
Definition set_col (face : Face) (col_idx : nat) (values : list color) : M unit :=
  for_each (enumerate values) (λ '(i, val), write_cell face i col_idx val).

(** [list(reversed(xs))] *)
Definition reversed {X : Type} (xs : list X) : list X := reverse xs.

(** [rotate_front] *)
Definition rotate_front (clockwise : bool) : M unit :=
  if clockwise then
    rotate_face_clockwise FRONT;;
    temp ← get_row UP 2;
    (v ← get_col LEFT 2; set_row UP 2 (reversed v));;
    (v ← get_row DOWN 0; set_col LEFT 2 v);;
    (v ← get_col RIGHT 0; set_row DOWN 0 (reversed v));;
    set_col RIGHT 0 temp
  else
    rotate_face_counterclockwise FRONT;;
    temp ← get_row UP 2;
    (v ← get_col RIGHT 0; set_row UP 2 v);;
    (v ← get_row DOWN 0; set_col RIGHT 0 (reversed v));;
    (v ← get_col LEFT 2; set_row DOWN 0 v);;
    set_col LEFT 2 (reversed temp).

(** [rotate_right] *)
Definition rotate_right (clockwise : bool) : M unit :=
  if clockwise then
    rotate_face_clockwise RIGHT;;
    temp ← get_col UP 2;
    (v ← get_col FRONT 2; set_col UP 2 v);;
    (v ← get_col DOWN 2; set_col FRONT 2 v);;
    (v ← get_col BACK 0; set_col DOWN 2 (reversed v));;
    set_col BACK 0 (reversed temp)
  else
    rotate_face_counterclockwise RIGHT;;
    temp ← get_col UP 2;
    (v ← get_col BACK 0; set_col UP 2 (reversed v));;
    (v ← get_col DOWN 2; set_col BACK 0 (reversed v));;
    (v ← get_col FRONT 2; set_col DOWN 2 v);;
    set_col FRONT 2 temp.

(** [rotate_up] *)
Definition rotate_up (clockwise : bool) : M unit :=
  if clockwise then
    rotate_face_clockwise UP;;
    temp ← get_row FRONT 0;
    (v ← get_row RIGHT 0; set_row FRONT 0 v);;
    (v ← get_row BACK 0; set_row RIGHT 0 v);;
    (v ← get_row LEFT 0; set_row BACK 0 v);;
    set_row LEFT 0 temp
  else
    rotate_face_counterclockwise UP;;
    temp ← get_row FRONT 0;
    (v ← get_row LEFT 0; set_row FRONT 0 v);;
    (v ← get_row BACK 0; set_row LEFT 0 v);;
    (v ← get_row RIGHT 0; set_row BACK 0 v);;
    set_row RIGHT 0 temp.

(** [rotate_left] *)
Definition rotate_left (clockwise : bool) : M unit :=
  if clockwise then
    rotate_face_clockwise LEFT;;
    temp ← get_col UP 0;
    (v ← get_col BACK 2; set_col UP 0 (reversed v));;
    (v ← get_col DOWN 0; set_col BACK 2 (reversed v));;
    (v ← get_col FRONT 0; set_col DOWN 0 v);;
    set_col FRONT 0 temp
  else
    rotate_face_counterclockwise LEFT;;
    temp ← get_col UP 0;
    (v ← get_col FRONT 0; set_col UP 0 v);;
    (v ← get_col DOWN 0; set_col FRONT 0 v);;
    (v ← get_col BACK 2; set_col DOWN 0 (reversed v));;
    set_col BACK 2 (reversed temp).

(** [rotate_down] *)
Definition rotate_down (clockwise : bool) : M unit :=
  if clockwise then
    rotate_face_clockwise DOWN;;
    temp ← get_row FRONT 2;
    (v ← get_row LEFT 2; set_row FRONT 2 v);;
    (v ← get_row BACK 2; set_row LEFT 2 v);;
    (v ← get_row RIGHT 2; set_row BACK 2 v);;
    set_row RIGHT 2 temp
  else
    rotate_face_counterclockwise DOWN;;
    temp ← get_row FRONT 2;
    (v ← get_row RIGHT 2; set_row FRONT 2 v);;
    (v ← get_row BACK 2; set_row RIGHT 2 v);;
    (v ← get_row LEFT 2; set_row BACK 2 v);;
    set_row LEFT 2 temp.

(** [rotate_back] *)
Definition rotate_back (clockwise : bool) : M unit :=
  if clockwise then
    rotate_face_clockwise BACK;;
    temp ← get_row UP 0;
    (v ← get_col RIGHT 2; set_row UP 0 v);;
    (v ← get_row DOWN 2; set_col RIGHT 2 (reversed v));;
    (v ← get_col LEFT 0; set_row DOWN 2 v);;
    set_col LEFT 0 (reversed temp)
  else
    rotate_face_counterclockwise BACK;;
    temp ← get_row UP 0;
    (v ← get_col LEFT 0; set_row UP 0 (reversed v));;
    (v ← get_row DOWN 2; set_col LEFT 0 v);;
    (v ← get_col RIGHT 2; set_row DOWN 2 (reversed v));;
    set_col RIGHT 2 temp.

(** The dict literal [move_map] (the same in [apply_move] and in
    [CubeSolver.__init__]): token to method name and direction. *)
Definition move_map : list (string * (string * bool)) :=
  [ ("F", ("rotate_front", true)); ("F'", ("rotate_front", false));
    ("R", ("rotate_right", true)); ("R'", ("rotate_right", false));
    ("U", ("rotate_up", true)); ("U'", ("rotate_up", false));
    ("L", ("rotate_left", true)); ("L'", ("rotate_left", false));
    ("D", ("rotate_down", true)); ("D'", ("rotate_down", false));
    ("B", ("rotate_back", true)); ("B'", ("rotate_back", false)) ].

(** [d[k]] / [k in d] on a dict literal. *)
Fixpoint dict_get {V : Type} (d : list (string * V)) (k : string) : option V :=
  match d with
  | [] => None
  | (k', v) :: d' => if decide (k = k') then Some v else dict_get d' k
  end.

(** [getattr(self, func_name)] on the six rotation methods. *)
Definition getattr (func_name : string) : option (bool → M unit) :=
  dict_get [ ("rotate_front", rotate_front); ("rotate_right", rotate_right);
             ("rotate_up", rotate_up); ("rotate_left", rotate_left);
             ("rotate_down", rotate_down); ("rotate_back", rotate_back) ]
           func_name.

(** [apply_move] *)
Definition apply_move (move : string) (track_history : bool) : M unit :=
  match dict_get move_map move with
  | Some (func_name, clockwise) =>
      method ← lift_option (getattr func_name);
      method clockwise;;
      if track_history then
        self ← get_self;
        put_self {| faces := faces self;
                    move_history := move_history self ++ [move] |}
      else mret ()
  | None => mret ()
  end.

(** [move.endswith("'")] *)
Fixpoint endswith_prime (move : string) : bool :=
  match move with
  | EmptyString => false
  | String c EmptyString => bool_decide (c = "'"%char)
  | String _ rest => endswith_prime rest
  end.

(** [move[:-1]] *)
Fixpoint drop_last (move : string) : string :=
  match move with
  | EmptyString => EmptyString
  | String _ EmptyString => EmptyString
  | String c rest => String c (drop_last rest)
  end.

(** [get_reverse_move] *)
Definition get_reverse_move (move : string) : string :=
  if endswith_prime move then drop_last move else move +:+ "'".

(** [get_perfect_solution] *)
Definition get_perfect_solution (self : RubiksCube) : list string :=
  match move_history self with
  | [] => []
  | _ =>
      foldl (λ solution move, solution ++ [get_reverse_move move])
            [] (reversed (move_history self))
  end.

(** [for move in moves: cube.apply_move(move, track_history)] *)
Definition apply_all (moves : list string) (track_history : bool) : M unit :=
  for_each moves (λ move, apply_move move track_history).

(** ** Python string built-ins used by the solver

    Characters are the code points below 256.  [str.isspace] holds there
    for TAB..CR, FS..US, SPACE, NEL and NBSP. *)
Definition isspace (c : ascii) : bool :=
  let n := nat_of_ascii c in
  ((9 <=? n) && (n <=? 13)) || ((28 <=? n) && (n <=? 31))
  || (n =? 32) || (n =? 133) || (n =? 160).

Fixpoint lstrip (s : string) : string :=
  match s with
  | String c rest => if isspace c then lstrip rest else s
  | EmptyString => EmptyString
  end.

(** [s.strip()] *)
Definition strip (s : string) : string :=
  String.rev (lstrip (String.rev (lstrip s))).

(** [s.split()]: the maximal runs of non-space characters, in order;
    [cur] is the run being read. *)
Fixpoint split_go (cur : string) (s : string) : list string :=
  match s with
  | EmptyString => if decide (cur = "") then [] else [cur]
  | String c rest =>
      if isspace c then
        if decide (cur = "") then split_go "" rest else cur :: split_go "" rest
      else split_go (cur +:+ String c "") rest
  end.
Definition split (s : string) : list string := split_go "" s.

(** ** [CubeSolver] *)

(** [self.moves] *)
Definition moves : list string :=
  ["F"; "F'"; "R"; "R'"; "U"; "U'"; "L"; "L'"; "D"; "D'"; "B"; "B'"].

(** [max_nodes] of [solve_bfs] *)
Definition max_nodes : N := 100000.

(** A search node: a cube and the moves that led to it. *)
Abbreviation node := (RubiksCube * list string)%type (only parsing).

Section Solver.
(** The module-level flag set by the guarded import. *)
Variable KOCIEMBA_AVAILABLE : bool.
(** [kociemba.solve]: the returned string, or [None] when it raises. *)
Variable kociemba_solve : string → option string.
(** The wall clock: [clock d n] tells whether
    [(time.time() - start_time) > time_limit] holds at the test made with
    [nodes_explored = n] in the search of depth limit [d]. *)
Variable clock : nat → N → bool.

(** [get_kociemba_string] *)
Definition get_kociemba_string (self : RubiksCube) : option string :=
  if negb KOCIEMBA_AVAILABLE then None
  else Some (
    foldl (λ result face,
      foldl (λ result row,
        foldl (λ result (color : ascii),
          if decide (color = "W"%char) then result +:+ "U"
          else if decide (color = "R"%char) then result +:+ "R"
          else if decide (color = "G"%char) then result +:+ "F"
          else if decide (color = "Y"%char) then result +:+ "D"
          else if decide (color = "O"%char) then result +:+ "L"
          else if decide (color = "B"%char) then result +:+ "B"
          else result +:+ "U") result row)
        result (face_get (faces self) face))
      "" urfdlb).

(** The validation loop of [solve_kociemba]: [None] at the first token
    that is not a key of [move_map]. *)
Fixpoint validate (todo : list string) (valid_moves : list string)
    : option (list string) :=
  match todo with
  | [] => Some valid_moves
  | move :: todo' =>
      match dict_get move_map move with
      | Some _ => validate todo' (valid_moves ++ [move])
      | None => None
      end
  end.

(** [solve_kociemba]; the result [None] is Python's [None]. *)
Definition solve_kociemba (cube : RubiksCube) : option (list string) :=
  if negb KOCIEMBA_AVAILABLE then None
  else
    match get_kociemba_string cube with
    | None => None
    | Some cube_string =>
        if decide (cube_string = "") then None
        else if decide (String.length cube_string ≠ 54) then None
        else
          match kociemba_solve cube_string with
          | None => None                        (* except Exception *)
          | Some solution_string =>
              if decide (solution_string = "") then Some []
              else if decide (strip solution_string ≠ "") then
                validate (split (strip solution_string)) []
              else None
          end
    end.

(** The body of [for move in self.moves] in [solve_bfs]: either the
    solution returned from inside the loop, or the queue and visited set
    at its end.  The set [visited] only ever receives [add] and [in]; it
    is the list of the strings added, newest first. *)
Fixpoint try_moves (current_cube : RubiksCube) (path : list string)
    (todo : list string) (queue : list node) (visited : list string)
    : list string + list node * list string :=
  match todo with
  | [] => inr (queue, visited)
  | move :: todo' =>
      let new_cube := copy current_cube in
      match exec (apply_move move false) new_cube with
      | None => try_moves current_cube path todo' queue visited
      | Some new_cube =>
          if is_solved new_cube then inl (path ++ [move])
          else
            let state := get_state_string new_cube in
            if decide (state ∈ visited)
            then try_moves current_cube path todo' queue visited
            else try_moves current_cube path todo'
                   (queue ++ [(new_cube, path ++ [move])])
                   (state :: visited)
      end
  end.

(** The [while queue] loop of [solve_bfs].  [fuel] bounds the number of
    iterations; the outer [None] is "fuel exhausted" and is shown below
    never to happen from [solve_bfs]. *)
Fixpoint bfs_loop (fuel : nat) (max_depth : nat) (timed_out : N → bool)
    (queue : list node) (visited : list string) (nodes_explored : N)
    : option (option (list string)) :=
  match fuel with
  | 0 => None
  | S fuel' =>
      match queue with
      | [] => Some None
      | (current_cube, path) :: queue' =>
          if timed_out nodes_explored then Some None
          else if (max_nodes <? nodes_explored)%N then Some None
          else
            let nodes_explored := (nodes_explored + 1)%N in
            if decide (max_depth ≤ length path)
            then bfs_loop fuel' max_depth timed_out queue' visited nodes_explored
            else
              match try_moves current_cube path moves queue' visited with
              | inl solution => Some (Some solution)
              | inr (queue'', visited') =>
                  bfs_loop fuel' max_depth timed_out queue'' visited' nodes_explored
              end
      end
  end.

(** Iterations that the node budget allows: the test
    [nodes_explored > max_nodes] stops the loop at the latest when
    [nodes_explored = max_nodes + 1]. *)
Definition bfs_fuel : nat := N.to_nat (max_nodes + 2).

(** [solve_bfs(cube, max_depth, time_limit=5)] *)
Definition solve_bfs (cube : RubiksCube) (max_depth : nat)
    (timed_out : N → bool) : option (list string) :=
  if is_solved cube then Some []
  else
    let queue := [(copy cube, [])] in
    let visited := [get_state_string cube] in
    match bfs_loop bfs_fuel max_depth timed_out queue visited 0 with
    | Some result => result
    | None => None
    end.

(** Method 3 of [solve_cube]: [for max_depth in range(1, n + 1)]. *)
Fixpoint search_depths (cube : RubiksCube) (depths : list nat) : list string :=
  match depths with
  | [] => []
  | max_depth :: depths' =>
      match solve_bfs cube max_depth (clock max_depth) with
      | Some (move :: rest) => move :: rest
      | _ => search_depths cube depths'
      end
  end.

Definition max_search_depth (cube : RubiksCube) : nat :=
  match move_history cube with
  | [] => 8
  | _ => 12 `min` (length (move_history cube) + 6)
  end.

Definition method3 (cube : RubiksCube) : list string :=
  search_depths cube (seq 1 (max_search_depth cube)).

(** Method 2 of [solve_cube]: the external solver, verified on a copy;
    every exception inside is caught and falls through. *)
Definition method2 (cube : RubiksCube) : option (list string) :=
  if KOCIEMBA_AVAILABLE then
    match solve_kociemba cube with
    | Some (move :: rest) =>
        let kociemba_solution := move :: rest in
        let test_cube := copy cube in
        match exec (apply_all kociemba_solution false) test_cube with
        | Some test_cube =>
            if is_solved test_cube then Some kociemba_solution else None
        | None => None
        end
    | _ => None
    end
  else None.

(** Method 1 of [solve_cube]: the reversed history, verified on a copy.
    [None] is an exception raised by the replay (it is outside any
    [try]); [Some None] falls through to the next method. *)
Definition method1 (cube : RubiksCube) : option (option (list string)) :=
  match move_history cube with
  | [] => Some None
  | _ =>
      let perfect_solution := get_perfect_solution cube in
      let test_cube := copy cube in
      match exec (apply_all perfect_solution false) test_cube with
      | None => None
      | Some test_cube =>
          if is_solved test_cube then Some (Some perfect_solution)
          else Some None
      end
  end.

(** [solve_cube]; the result [None] is an exception that leaves the
    method. *)
Definition solve_cube (cube : RubiksCube) : option (list string) :=
  if is_solved cube then Some []
  else
    match method1 cube with
    | None => None
    | Some (Some perfect_solution) => Some perfect_solution
    | Some None =>
        match method2 cube with
        | Some kociemba_solution => Some kociemba_solution
        | None => Some (method3 cube)
        end
    end.
End Solver.

(** ** Well-formed cubes: six faces of three rows of three facelets *)

Definition wf_grid (g : grid) : Prop :=
  length g = 3 ∧ Forall (λ row, length row = 3) g.

Definition wf (c : RubiksCube) : Prop :=
  ∀ face, wf_grid (face_get (faces c) face).

(** ** Facelets as one list, and moves as index permutations *)

(** The 54 facelets in serialisation order. *)
Definition facelets (c : RubiksCube) : list color :=
  face ← urfdlb; row ← face_get (faces c) face; row.

(** A face whose nine facelets carry the codes [n .. n+8]. *)
Definition numbered (n : nat) : grid :=
  (λ r, (λ j, ascii_of_nat (n + 3 * r + j)) <$> range3) <$> range3.

(** The cube whose facelet at position [k] of [facelets] carries code [k]. *)
Definition labelled : RubiksCube :=
  {| faces := {| at_UP := numbered 0; at_RIGHT := numbered 9;
                 at_FRONT := numbered 18; at_DOWN := numbered 27;
                 at_LEFT := numbered 36; at_BACK := numbered 45 |};
     move_history := [] |}.

(** Where each facelet comes from under a move: position [k] of the result
    holds the facelet that was at position [move_index m !!! k]. *)
Definition move_index (m : string) : list nat :=
  match exec (apply_move m false) labelled with
  | Some c => nat_of_ascii <$> facelets c
  | None => []
  end.

(** Pick the facelets of [l] at the positions [idx]. *)
Definition pick (l : list color) (idx : list nat) : list color :=
  (λ i, default "000"%char (l !! i)) <$> idx.

(** The six colours of the solved construction. *)
Definition six_colors : list color := ["W"; "R"; "G"; "Y"; "O"; "B"]%char.

(** Number of facelets of colour [x]. *)
Definition count_color (x : color) (c : RubiksCube) : nat :=
  length (filter (λ y, y = x) (facelets c)).

(** The serialisation of the solved cube. *)
Definition solved_string : string :=
  "WWWWWWWWWRRRRRRRRRGGGGGGGGGYYYYYYYYYOOOOOOOOOBBBBBBBBB".

(** ** Replay and the search invariant *)

(** Replaying a path on a cube without recording it, as the solver does
    on its test cubes. *)
Definition replay (p : list string) (s : RubiksCube) : option RubiksCube :=
  exec (apply_all p false) s.

(** What a returned path is for a start cube [c] and a depth limit [d]:
    at most [d] moves, it solves [c], and no shorter sequence of canonical
    moves does. *)
Definition shortest_solution (c : RubiksCube) (d : nat) (sol : list string) : Prop :=
  length sol ≤ d ∧
  (∃ s', replay sol c = Some s' ∧ is_solved s' = true) ∧
  (∀ q s', Forall (λ m, m ∈ moves) q → length q < length sol →
           replay q c = Some s' → is_solved s' = false).

Section SearchInvariant.
Variables (c : RubiksCube) (d : nat).

(** The loop invariant of [solve_bfs] started on [c] with depth limit
    [d].  [done] are the nodes already taken from the queue; the queue is
    [q1 ++ q2], its nodes at depth [k] followed by those at depth [k+1]. *)
Record bfs_inv (k : nat) (done q1 q2 : list node) (visited : list string)
    : Prop := {
  inv_node : ∀ s p, (s, p) ∈ done ++ q1 ++ q2 →
    replay p c = Some s ∧ length p ≤ d;
  inv_done : ∀ s p, (s, p) ∈ done → length p ≤ k;
  inv_q1 : ∀ s p, (s, p) ∈ q1 → length p = k;
  inv_q2 : ∀ s p, (s, p) ∈ q2 → length p = S k;
  inv_visited : ∀ str, str ∈ visited →
    ∃ s p, (s, p) ∈ done ++ q1 ++ q2 ∧ get_state_string s = str;
  inv_closed : ∀ s p m, (s, p) ∈ done → length p < d → m ∈ moves →
    ∃ s', exec (apply_move m false) s = Some s' ∧ is_solved s' = false ∧
          get_state_string s' ∈ visited;
  inv_cover : ∀ q, Forall (λ m, m ∈ moves) q → length q ≤ k →
    ∃ s p, replay q c = Some s ∧ is_solved s = false ∧
           (s, p) ∈ done ++ q1 ++ q2 ∧ length p ≤ length q }.
End SearchInvariant.

(** ** [RubiksCube]: move strings and scrambling *)

(** [apply_moves] *)
Definition apply_moves (moves_string : string) (track_history : bool) : M unit :=
  let moves := split moves_string in
  for_each moves (λ move, apply_move move track_history).

(** [move_options] of [scramble] *)
Definition move_options : list string :=
  ["F"; "F'"; "R"; "R'"; "U"; "U'"; "L"; "L'"; "D"; "D'"; "B"; "B'"].

(** The loop of [scramble].  [random.choice(move_options)] is
    [move_options[i]] for an index [i] drawn by the generator; [draws]
    holds the indices drawn in the successive iterations of
    [for _ in range(moves)], so [moves] is its length. *)
Fixpoint scramble_loop (draws : list nat) (new_moves : list string)
    : M (list string) :=
  match draws with
  | [] => mret new_moves
  | i :: draws' =>
      move ← lift_option (move_options !! i);
      apply_move move true;;
      scramble_loop draws' (new_moves ++ [move])
  end.

(** [scramble] *)
Definition scramble (draws : list nat) : M (list string) :=
  scramble_loop draws [].

(** ** Derived notions used in the statements *)

(** The letter that [get_kociemba_string] writes for a facelet colour. *)
Definition face_letter (color : ascii) : ascii :=
  if decide (color = "W"%char) then "U"%char
  else if decide (color = "R"%char) then "R"%char
  else if decide (color = "G"%char) then "F"%char
  else if decide (color = "Y"%char) then "D"%char
  else if decide (color = "O"%char) then "L"%char
  else if decide (color = "B"%char) then "B"%char
  else "U"%char.

(** The cube [s] with the history [hist]. *)
Definition with_history (hist : list string) (s : RubiksCube) : RubiksCube :=
  {| faces := faces s; move_history := hist |}.

(** The facelet in row [i], column [j] of a face. *)
Definition cell (c : RubiksCube) (face : Face) (i j : nat) : option color :=
  face_get (faces c) face !! i ≫= (.!! j).

(** The canonical tokens of a list of tokens, in order. *)
Definition canonical (ms : list string) : list string :=
  filter (λ m, m ∈ moves) ms.

(** The cube reached from the solved one by replaying a path. *)
Definition turned (p : list string) : RubiksCube :=
  default init (replay p init).

(** ** The size of the search *)

(** The number of nodes of the tree of height [r] in which every inner
    node has twelve children. *)
Fixpoint subtree (r : nat) : nat :=
  match r with
  | 0 => 1
  | S r' => 1 + 12 * subtree r'
  end.

(** A bound on the number of nodes that the search with depth limit [d]
    can still take from the queue: every queued node and everything
    below it down to depth [d]. *)
Fixpoint pending (d : nat) (queue : list node) : nat :=
  match queue with
  | [] => 0
  | (_, p) :: queue' => subtree (d - length p) + pending d queue'
  end.

(** ** The geometry of the cube

    The cube is centred at the origin, with [x] to the right, [y] up and
    [z] towards the viewer.  A sticker is the position of its cubie and
    the outward normal of the face it lies on. *)

Definition vec : Type := Z * Z * Z.

Definition dot (a b : vec) : Z :=
  let '(a1, a2, a3) := a in
  let '(b1, b2, b3) := b in
  (a1 * b1 + a2 * b2 + a3 * b3)%Z.

Definition cross (a b : vec) : vec :=
  let '(a1, a2, a3) := a in
  let '(b1, b2, b3) := b in
  (a2 * b3 - a3 * b2, a3 * b1 - a1 * b3, a1 * b2 - a2 * b1)%Z.

Definition vadd (a b : vec) : vec :=
  let '(a1, a2, a3) := a in
  let '(b1, b2, b3) := b in
  (a1 + b1, a2 + b2, a3 + b3)%Z.

Definition scale (k : Z) (a : vec) : vec :=
  let '(a1, a2, a3) := a in (k * a1, k * a2, k * a3)%Z.

(** The outward normal of a face. *)
Definition normal (f : Face) : vec :=
  match f with
  | FRONT => (0, 0, 1) | BACK => (0, 0, -1)
  | RIGHT => (1, 0, 0) | LEFT => (-1, 0, 0)
  | UP => (0, 1, 0) | DOWN => (0, -1, 0)
  end%Z.

(** Where row [r], column [j] of a face lies, for the usual unfolding:
    Up above Front, Down below it, Left and Right beside it, Back to the
    right of Right. *)
Definition place (f : Face) (r j : nat) : vec :=
  let r := Z.of_nat r in
  let j := Z.of_nat j in
  match f with
  | FRONT => (j - 1, 1 - r, 1)
  | BACK => (1 - j, 1 - r, -1)
  | RIGHT => (1, 1 - r, 1 - j)
  | LEFT => (-1, 1 - r, j - 1)
  | UP => (j - 1, 1, r - 1)
  | DOWN => (j - 1, -1, 1 - r)
  end%Z.

(** The sticker at position [k] of [facelets]. *)
Definition sticker (k : nat) : option (vec * vec) :=
  f ← urfdlb !! (k / 9);
  Some (place f ((k `mod` 9) / 3) (k `mod` 3), normal f).

(** A quarter turn about the axis [n], clockwise or counterclockwise for
    a viewer who looks at the face with outward normal [n]. *)
Definition quarter (n : vec) (clockwise : bool) (v : vec) : vec :=
  vadd (if clockwise then cross v n else cross n v) (scale (dot n v) n).

(** A quarter turn of the layer of the face with normal [n]: the stickers
    of that layer turn, the others stay. *)
Definition turn_sticker (n : vec) (clockwise : bool) (s : vec * vec)
    : vec * vec :=
  if decide (dot s.1 n = 1%Z)
  then (quarter n clockwise s.1, quarter n clockwise s.2)
  else s.

(** The face that a rotation method turns. *)
Definition method_face (func_name : string) : option Face :=
  dict_get [ ("rotate_front", FRONT); ("rotate_right", RIGHT);
             ("rotate_up", UP); ("rotate_left", LEFT);
             ("rotate_down", DOWN); ("rotate_back", BACK) ] func_name.

(** * The store model

    Rows (the inner lists, which the code mutates in place) and cube
    objects live in a store and are named by references; a method takes
    the reference [self].  An outer list of rows is never mutated after it
    is built, and the [faces] dict and the history list of a cube are
    reachable only through that cube, so they are stored inline in the
    cube object.  Lists that a method builds and only reads ([old_face],
    the result of [get_row] and [get_col]) are values.  A raised exception
    keeps the store reached so far. *)
Module Store.

(** A cube object: for each face the references of its three rows, and
    the history. *)
Record CubeObj : Type := mkObj {
  faces : FaceDict (list nat);
  move_history : list string }.

Record heap : Type := mkHeap {
  rows : list (list ascii);
  cubes : list CubeObj }.

Definition H (A : Type) : Type := heap → option A * heap.

#[global] Instance H_ret : MRet H := λ A a h, (Some a, h).
#[global] Instance H_bind : MBind H := λ A B f m h,
  match m h with
  | (Some a, h') => f a h'
  | (None, h') => (None, h')
  end.

Definition raise {A : Type} : H A := λ h, (None, h).

Definition lift_option {A : Type} (o : option A) : H A :=
  match o with Some a => mret a | None => raise end.

(** [try: body except Exception: handler] *)
Definition try_except {A : Type} (body handler : H A) : H A := λ h,
  match body h with
  | (Some a, h') => (Some a, h')
  | (None, h') => handler h'
  end.

(** A new list object holding [vals]. *)
Definition alloc_row (vals : list ascii) : H nat := λ h,
  (Some (length (rows h)), mkHeap (rows h ++ [vals]) (cubes h)).

(** The content of the list object [r]. *)
Definition load_row (r : nat) : H (list ascii) := λ h, (rows h !! r, h).

(** [row[j] = v] on the list object [r]. *)
Definition store_cell (r j : nat) (v : ascii) : H unit := λ h,
  match rows h !! r with
  | Some row =>
      if decide (j < length row)
      then (Some (), mkHeap (<[r := <[j := v]> row]> (rows h)) (cubes h))
      else (None, h)
  | None => (None, h)
  end.

Definition alloc_cube (c : CubeObj) : H nat := λ h,
  (Some (length (cubes h)), mkHeap (rows h) (cubes h ++ [c])).

Definition load_cube (self : nat) : H CubeObj := λ h, (cubes h !! self, h).

(** Assignment to an attribute (or to a key of [faces]) of [self]. *)
Definition store_cube (self : nat) (c : CubeObj) : H unit := λ h,
  if decide (self < length (cubes h))
  then (Some (), mkHeap (rows h) (<[self := c]> (cubes h)))
  else (None, h).

(** [for x in xs: body(x)] *)
Fixpoint for_each {X : Type} (xs : list X) (body : X → H unit) : H unit :=
  match xs with
  | [] => mret ()
  | x :: xs' => body x ;; for_each xs' body
  end.

(** A loop that threads an accumulator. *)
Fixpoint fold_each {X A : Type} (xs : list X) (acc : A)
    (body : A → X → H A) : H A :=
  match xs with
  | [] => mret acc
  | x :: xs' => acc' ← body acc x; fold_each xs' acc' body
  end.

(** A list comprehension [[f(x) for x in xs]]. *)
Fixpoint map_each {X Y : Type} (xs : list X) (f : X → H Y) : H (list Y) :=
  match xs with
  | [] => mret []
  | x :: xs' => y ← f x; ys ← map_each xs' f; mret (y :: ys)
  end.

(** [[[c] * 3 for _ in range(3)]] *)
Definition uniform (c : ascii) : H (list nat) :=
  map_each range3 (λ _, alloc_row (replicate 3 c)).

(** [RubiksCube()] *)
Definition init : H nat :=
  front ← uniform "G"%char;
  back ← uniform "B"%char;
  left ← uniform "O"%char;
  right ← uniform "R"%char;
  up ← uniform "W"%char;
  down ← uniform "Y"%char;
  alloc_cube {| faces := mkFaces front back left right up down;
                move_history := [] |}.

(** [copy] *)
Definition copy (self : nat) : H nat :=
  new_cube ← init;
  for_each all_faces (λ face,
    me ← load_cube self;
    new_rows ← map_each (face_get (faces me) face)
                        (λ r, row ← load_row r; alloc_row row);
    nc ← load_cube new_cube;
    store_cube new_cube {| faces := face_set (faces nc) face new_rows;
                           move_history := move_history nc |});;
  me ← load_cube self;
  nc ← load_cube new_cube;
  store_cube new_cube {| faces := faces nc;
                         move_history := move_history me |};;
  mret new_cube.

(** [get_state_string] *)
Definition get_state_string (self : nat) : H string :=
  fold_each urfdlb "" (λ state face,
    me ← load_cube self;
    fold_each (face_get (faces me) face) state (λ state r,
      row ← load_row r;
      mret (foldl (λ state col, state +:+ String col "") state row))).

(** [is_solved]: the loops stop at the first facelet that differs. *)
Fixpoint rows_match (rs : list nat) (target_color : ascii) : H bool :=
  match rs with
  | [] => mret true
  | r :: rs' =>
      row ← load_row r;
      if forallb (λ c : ascii, bool_decide (c = target_color)) row
      then rows_match rs' target_color
      else mret false
  end.

Fixpoint faces_match (self : nat) (targets : list (Face * ascii)) : H bool :=
  match targets with
  | [] => mret true
  | (face, target_color) :: targets' =>
      me ← load_cube self;
      rows_match (face_get (faces me) face) target_color ≫= λ ok : bool,
      if ok then faces_match self targets' else mret false
  end.

Definition is_solved (self : nat) : H bool := faces_match self target_colors.

(** [self.faces[face][i][j]] read. *)
Definition read_cell (self : nat) (face : Face) (i j : nat) : H ascii :=
  me ← load_cube self;
  r ← lift_option (face_get (faces me) face !! i);
  row ← load_row r;
  lift_option (row !! j).

(** [self.faces[face][i][j] = v] *)
Definition write_cell (self : nat) (face : Face) (i j : nat) (v : ascii)
    : H unit :=
  me ← load_cube self;
  r ← lift_option (face_get (faces me) face !! i);
  store_cell r j v.

(** [rotate_face_clockwise] *)
Definition rotate_face_clockwise (self : nat) (face : Face) : H unit :=
  me ← load_cube self;
  old_face ← map_each (face_get (faces me) face) load_row;
  for_each range3 (λ i,
    for_each range3 (λ j,
      v ← lift_option (old_face !! i ≫= (.!! j));
      write_cell self face j (2 - i) v)).

(** [rotate_face_counterclockwise] *)
Definition rotate_face_counterclockwise (self : nat) (face : Face) : H unit :=
  for_each range3 (λ _, rotate_face_clockwise self face).

(** [get_row] *)
Definition get_row (self : nat) (face : Face) (row_idx : nat)
    : H (list ascii) :=
  me ← load_cube self;
  r ← lift_option (face_get (faces me) face !! row_idx);
  load_row r.

(** [get_col] *)
Definition get_col (self : nat) (face : Face) (col_idx : nat)
    : H (list ascii) :=
  map_each range3 (λ i, read_cell self face i col_idx).

(** [set_row] *)
Definition set_row (self : nat) (face : Face) (row_idx : nat)
    (values : list ascii) : H unit :=
  for_each (enumerate values) (λ '(i, val), write_cell self face row_idx i val).

(** [set_col] *)
Definition set_col (self : nat) (face : Face) (col_idx : nat)
    (values : list ascii) : H unit :=
  for_each (enumerate values) (λ '(i, val), write_cell self face i col_idx val).

(** [rotate_front] *)
Definition rotate_front (self : nat) (clockwise : bool) : H unit :=
  if clockwise then
    rotate_face_clockwise self FRONT;;
    temp ← get_row self UP 2;
    (v ← get_col self LEFT 2; set_row self UP 2 (reversed v));;
    (v ← get_row self DOWN 0; set_col self LEFT 2 v);;
    (v ← get_col self RIGHT 0; set_row self DOWN 0 (reversed v));;
    set_col self RIGHT 0 temp
  else
    rotate_face_counterclockwise self FRONT;;
    temp ← get_row self UP 2;
    (v ← get_col self RIGHT 0; set_row self UP 2 v);;
    (v ← get_row self DOWN 0; set_col self RIGHT 0 (reversed v));;
    (v ← get_col self LEFT 2; set_row self DOWN 0 v);;
    set_col self LEFT 2 (reversed temp).

(** [rotate_right] *)
Definition rotate_right (self : nat) (clockwise : bool) : H unit :=
  if clockwise then
    rotate_face_clockwise self RIGHT;;
    temp ← get_col self UP 2;
    (v ← get_col self FRONT 2; set_col self UP 2 v);;
    (v ← get_col self DOWN 2; set_col self FRONT 2 v);;
    (v ← get_col self BACK 0; set_col self DOWN 2 (reversed v));;
    set_col self BACK 0 (reversed temp)
  else
    rotate_face_counterclockwise self RIGHT;;
    temp ← get_col self UP 2;
    (v ← get_col self BACK 0; set_col self UP 2 (reversed v));;
    (v ← get_col self DOWN 2; set_col self BACK 0 (reversed v));;
    (v ← get_col self FRONT 2; set_col self DOWN 2 v);;
    set_col self FRONT 2 temp.

(** [rotate_up] *)
Definition rotate_up (self : nat) (clockwise : bool) : H unit :=
  if clockwise then
    rotate_face_clockwise self UP;;
    temp ← get_row self FRONT 0;
    (v ← get_row self RIGHT 0; set_row self FRONT 0 v);;
    (v ← get_row self BACK 0; set_row self RIGHT 0 v);;
    (v ← get_row self LEFT 0; set_row self BACK 0 v);;
    set_row self LEFT 0 temp
  else
    rotate_face_counterclockwise self UP;;
    temp ← get_row self FRONT 0;
    (v ← get_row self LEFT 0; set_row self FRONT 0 v);;
    (v ← get_row self BACK 0; set_row self LEFT 0 v);;
    (v ← get_row self RIGHT 0; set_row self BACK 0 v);;
    set_row self RIGHT 0 temp.

(** [rotate_left] *)
Definition rotate_left (self : nat) (clockwise : bool) : H unit :=
  if clockwise then
    rotate_face_clockwise self LEFT;;
    temp ← get_col self UP 0;
    (v ← get_col self BACK 2; set_col self UP 0 (reversed v));;
    (v ← get_col self DOWN 0; set_col self BACK 2 (reversed v));;
    (v ← get_col self FRONT 0; set_col self DOWN 0 v);;
    set_col self FRONT 0 temp
  else
    rotate_face_counterclockwise self LEFT;;
    temp ← get_col self UP 0;
    (v ← get_col self FRONT 0; set_col self UP 0 v);;
    (v ← get_col self DOWN 0; set_col self FRONT 0 v);;
    (v ← get_col self BACK 2; set_col self DOWN 0 (reversed v));;
    set_col self BACK 2 (reversed temp).

(** [rotate_down] *)
Definition rotate_down (self : nat) (clockwise : bool) : H unit :=
  if clockwise then
    rotate_face_clockwise self DOWN;;
    temp ← get_row self FRONT 2;
    (v ← get_row self LEFT 2; set_row self FRONT 2 v);;
    (v ← get_row self BACK 2; set_row self LEFT 2 v);;
    (v ← get_row self RIGHT 2; set_row self BACK 2 v);;
    set_row self RIGHT 2 temp
  else
    rotate_face_counterclockwise self DOWN;;
    temp ← get_row self FRONT 2;
    (v ← get_row self RIGHT 2; set_row self FRONT 2 v);;
    (v ← get_row self BACK 2; set_row self RIGHT 2 v);;
    (v ← get_row self LEFT 2; set_row self BACK 2 v);;
    set_row self LEFT 2 temp.

(** [rotate_back] *)
Definition rotate_back (self : nat) (clockwise : bool) : H unit :=
  if clockwise then
    rotate_face_clockwise self BACK;;
    temp ← get_row self UP 0;
    (v ← get_col self RIGHT 2; set_row self UP 0 v);;
    (v ← get_row self DOWN 2; set_col self RIGHT 2 (reversed v));;
    (v ← get_col self LEFT 0; set_row self DOWN 2 v);;
    set_col self LEFT 0 (reversed temp)
  else
    rotate_face_counterclockwise self BACK;;
    temp ← get_row self UP 0;
    (v ← get_col self LEFT 0; set_row self UP 0 (reversed v));;
    (v ← get_row self DOWN 2; set_col self LEFT 0 v);;
    (v ← get_col self RIGHT 2; set_row self DOWN 2 (reversed v));;
    set_col self RIGHT 2 temp.

(** [getattr(self, func_name)] on the six rotation methods. *)
Definition getattr (self : nat) (func_name : string)
    : option (bool → H unit) :=
  dict_get [ ("rotate_front", rotate_front self);
             ("rotate_right", rotate_right self);
             ("rotate_up", rotate_up self);
             ("rotate_left", rotate_left self);
             ("rotate_down", rotate_down self);
             ("rotate_back", rotate_back self) ]
           func_name.

(** [apply_move] *)
Definition apply_move (self : nat) (move : string) (track_history : bool)
    : H unit :=
  match dict_get move_map move with
  | Some (func_name, clockwise) =>
      method ← lift_option (getattr self func_name);
      method clockwise;;
      if track_history then
        me ← load_cube self;
        store_cube self {| faces := faces me;
                           move_history := move_history me ++ [move] |}
      else mret ()
  | None => mret ()
  end.

(** [get_perfect_solution] *)
Definition get_perfect_solution (self : nat) : H (list string) :=
  me ← load_cube self;
  match move_history me with
  | [] => mret []
  | _ =>
      mret (foldl (λ solution move, solution ++ [get_reverse_move move])
                  [] (reversed (move_history me)))
  end.

(** [for move in moves: cube.apply_move(move, track_history)] *)
Definition apply_all (self : nat) (path : list string) (track_history : bool)
    : H unit :=
  for_each path (λ move, apply_move self move track_history).

Section Solver.
Variable KOCIEMBA_AVAILABLE : bool.
Variable kociemba_solve : string → option string.
Variable clock : nat → N → bool.

(** [get_kociemba_string] *)
Definition get_kociemba_string (self : nat) : H (option string) :=
  if negb KOCIEMBA_AVAILABLE then mret None
  else
    result ← fold_each urfdlb "" (λ result face,
      me ← load_cube self;
      fold_each (face_get (faces me) face) result (λ result r,
        row ← load_row r;
        mret (foldl (λ result (color : ascii),
          if decide (color = "W"%char) then result +:+ "U"
          else if decide (color = "R"%char) then result +:+ "R"
          else if decide (color = "G"%char) then result +:+ "F"
          else if decide (color = "Y"%char) then result +:+ "D"
          else if decide (color = "O"%char) then result +:+ "L"
          else if decide (color = "B"%char) then result +:+ "B"
          else result +:+ "U") result row)));
    mret (Some result).

(** [solve_kociemba]: the body is inside [try], every exception gives
    [None]. *)
Definition solve_kociemba (cube : nat) : H (option (list string)) :=
  if negb KOCIEMBA_AVAILABLE then mret None
  else
    try_except
      (get_kociemba_string cube ≫= λ cube_string : option string,
       match cube_string with
       | None => mret None
       | Some cube_string =>
           if decide (cube_string = "") then mret None
           else if decide (String.length cube_string ≠ 54) then mret None
           else
             lift_option (kociemba_solve cube_string) ≫= λ solution_string : string,
             if decide (solution_string = "") then mret (Some [])
             else if decide (strip solution_string ≠ "") then
               mret (validate (split (strip solution_string)) [])
             else mret None
       end)
      (mret None).

(** The body of [for move in self.moves] in [solve_bfs]. *)
Fixpoint try_moves (current_cube : nat) (path : list string)
    (todo : list string) (queue : list (nat * list string))
    (visited : list string)
    : H (list string + list (nat * list string) * list string) :=
  match todo with
  | [] => mret (inr (queue, visited))
  | move :: todo' =>
      try_except
        (new_cube ← copy current_cube;
         apply_move new_cube move false;;
         is_solved new_cube ≫= λ solved : bool,
         if solved then mret (inl (path ++ [move]))
         else
           state ← get_state_string new_cube;
           if decide (state ∈ visited) then mret (inr (queue, visited))
           else mret (inr (queue ++ [(new_cube, path ++ [move])],
                           state :: visited)))
        (mret (inr (queue, visited)))
      ≫= λ step : list string + list (nat * list string) * list string,
      match step with
      | inl solution => mret (inl solution)
      | inr (queue', visited') =>
          try_moves current_cube path todo' queue' visited'
      end
  end.

(** The [while queue] loop of [solve_bfs]; the outer [None] of the
    result is "fuel exhausted". *)
Fixpoint bfs_loop (fuel : nat) (max_depth : nat) (timed_out : N → bool)
    (queue : list (nat * list string)) (visited : list string)
    (nodes_explored : N) : H (option (option (list string))) :=
  match fuel with
  | 0 => mret None
  | S fuel' =>
      match queue with
      | [] => mret (Some None)
      | (current_cube, path) :: queue' =>
          if timed_out nodes_explored then mret (Some None)
          else if (max_nodes <? nodes_explored)%N then mret (Some None)
          else
            let nodes_explored := (nodes_explored + 1)%N in
            if decide (max_depth ≤ length path)
            then bfs_loop fuel' max_depth timed_out queue' visited
                   nodes_explored
            else
              try_moves current_cube path moves queue' visited
              ≫= λ step : list string + list (nat * list string) * list string,
              match step with
              | inl solution => mret (Some (Some solution))
              | inr (queue'', visited') =>
                  bfs_loop fuel' max_depth timed_out queue'' visited'
                    nodes_explored
              end
      end
  end.

(** [solve_bfs(cube, max_depth, time_limit=5)] *)
Definition solve_bfs (cube : nat) (max_depth : nat) (timed_out : N → bool)
    : H (option (list string)) :=
  is_solved cube ≫= λ solved : bool,
  if solved then mret (Some [])
  else
    start ← copy cube;
    state ← get_state_string cube;
    bfs_loop bfs_fuel max_depth timed_out [(start, [])] [state] 0
    ≫= λ result : option (option (list string)),
    match result with
    | Some result => mret result
    | None => mret None
    end.

(** Method 3: [for max_depth in range(1, n + 1)]. *)
Fixpoint search_depths (cube : nat) (depths : list nat) : H (list string) :=
  match depths with
  | [] => mret []
  | max_depth :: depths' =>
      solve_bfs cube max_depth (clock max_depth)
      ≫= λ bfs_solution : option (list string),
      match bfs_solution with
      | Some (move :: rest) => mret (move :: rest)
      | _ => search_depths cube depths'
      end
  end.

Definition method3 (cube : nat) : H (list string) :=
  me ← load_cube cube;
  let max_search_depth :=
    match move_history me with
    | [] => 8
    | _ => 12 `min` (length (move_history me) + 6)
    end in
  search_depths cube (seq 1 max_search_depth).

(** Method 2: [None] falls through to method 3. *)
Definition method2 (cube : nat) : H (option (list string)) :=
  if KOCIEMBA_AVAILABLE then
    try_except
      (solve_kociemba cube ≫= λ kociemba_solution : option (list string),
       match kociemba_solution with
       | Some (move :: rest) =>
           test_cube ← copy cube;
           apply_all test_cube (move :: rest) false;;
           is_solved test_cube ≫= λ solved : bool,
           if solved then mret (Some (move :: rest)) else mret None
       | _ => mret None
       end)
      (mret None)
  else mret None.

(** Method 1: [None] falls through to method 2. *)
Definition method1 (cube : nat) : H (option (list string)) :=
  me ← load_cube cube;
  match move_history me with
  | [] => mret None
  | _ =>
      perfect_solution ← get_perfect_solution cube;
      test_cube ← copy cube;
      apply_all test_cube perfect_solution false;;
      is_solved test_cube ≫= λ solved : bool,
      if solved then mret (Some perfect_solution) else mret None
  end.

(** [solve_cube] *)
Definition solve_cube (cube : nat) : H (list string) :=
  is_solved cube ≫= λ solved : bool,
  if solved then mret []
  else
    method1 cube ≫= λ first : option (list string),
    match first with
    | Some perfect_solution => mret perfect_solution
    | None =>
        method2 cube ≫= λ second : option (list string),
        match second with
        | Some kociemba_solution => mret kociemba_solution
        | None => method3 cube
        end
    end.
End Solver.

(** ** The frame of a call

    [n0] and [r0] are the numbers of cube objects and of rows in the
    store when the call starts.  Objects below them are the caller's;
    the call may only write to objects it allocated itself. *)
Section Frame.
Variables (n0 r0 : nat).

(** The caller's objects are the same in [h] and [h']. *)
Definition frame (h h' : heap) : Prop :=
  take r0 (rows h') = take r0 (rows h) ∧
  take n0 (cubes h') = take n0 (cubes h) ∧
  length (rows h) ≤ length (rows h') ∧
  length (cubes h) ≤ length (cubes h').

(** The rows of a cube object are all the call's own. *)
Definition fresh_obj (c : CubeObj) : Prop :=
  ∀ face r, r ∈ face_get (faces c) face → r0 ≤ r.

(** The store holds the caller's objects, and every cube the call
    allocated has only rows the call allocated. *)
Definition fresh_ok (h : heap) : Prop :=
  r0 ≤ length (rows h) ∧ n0 ≤ length (cubes h) ∧
  ∀ id c, n0 ≤ id → cubes h !! id = Some c → fresh_obj c.

(** [m] respects the frame, and its result satisfies [Q]. *)
Definition safe {A : Type} (m : H A) (Q : A → Prop) : Prop :=
  ∀ h, fresh_ok h →
    fresh_ok (m h).2 ∧ frame h (m h).2 ∧
    ∀ a, (m h).1 = Some a → Q a.
End Frame.

(** The store that holds one cube of grid [fs] and history [hist], at
    reference [0]. *)
Definition single (fs : FaceDict (list (list ascii))) (hist : list string)
    : heap :=
  {| rows := at_FRONT fs ++ at_BACK fs ++ at_LEFT fs ++ at_RIGHT fs
             ++ at_UP fs ++ at_DOWN fs;
     cubes := [ {| faces := mkFaces [0; 1; 2] [3; 4; 5] [6; 7; 8]
                                    [9; 10; 11] [12; 13; 14] [15; 16; 17];
                   move_history := hist |} ] |}.

(** The grid of cube [self] read out of the store. *)
Definition grid_of (h : heap) (self : nat)
    : option (FaceDict (list (list ascii))) :=
  c ← cubes h !! self;
  front ← mapM (λ r, rows h !! r) (at_FRONT (faces c));
  back ← mapM (λ r, rows h !! r) (at_BACK (faces c));
  left ← mapM (λ r, rows h !! r) (at_LEFT (faces c));
  right ← mapM (λ r, rows h !! r) (at_RIGHT (faces c));
  up ← mapM (λ r, rows h !! r) (at_UP (faces c));
  down ← mapM (λ r, rows h !! r) (at_DOWN (faces c));
  Some (mkFaces front back left right up down).

(** *** Notions for [copy] *)

(** The rows named by [rs] hold [vals]. *)
Definition rows_hold (h : heap) (rs : list nat) (vals : list (list ascii))
    : Prop :=
  Forall2 (λ r row, rows h !! r = Some row) rs vals.

(** The state of the store during a [copy] started in [h]: the rows and
    cubes of [h], more rows, and the new cube object [nc]. *)
Definition copying (h hc : heap) (nc : CubeObj) : Prop :=
  rows h `prefix_of` rows hc ∧ cubes hc = cubes h ++ [nc].

(** The body of [for face in Face] in [copy]. *)
Definition copy_face (self new_cube : nat) (face : Face) : H unit :=
  me ← load_cube self;
  new_rows ← map_each (face_get (faces me) face)
                      (λ r, row ← load_row r; alloc_row row);
  nc ← load_cube new_cube;
  store_cube new_cube {| faces := face_set (faces nc) face new_rows;
                         move_history := move_history nc |}.

End Store.

(** The store that holds one solved cube with an empty history. *)
Definition solved_store : Store.heap := Store.single (faces init) [].
(** * Properties of the value model *)

(** ** Shape of well-formed cubes *)

Lemma wf_grid_shape (g : grid) :
  wf_grid g →
  ∃ a b c d e f g' h i : color, g = [[a; b; c]; [d; e; f]; [g'; h; i]].
Proof.
  intros [Hlen Hrows].
  destruct g as [|r0 [|r1 [|r2 [|? ?]]]]; simplify_eq/=.
  repeat match goal with H : Forall _ (_ :: _) |- _ => inversion_clear H end.
  repeat match goal with
    | H : length ?r = 3 |- _ =>
        destruct r as [|? [|? [|? [|? ?]]]]; simplify_eq/=
    end.
  eauto 10.
Qed.

Lemma wf_grid_intro (a b c d e f g h i : color) :
  wf_grid [[a; b; c]; [d; e; f]; [g; h; i]].
Proof. split; [done|]. repeat constructor. Qed.

(** Replace a well-formed cube by its 54 facelets and its history. *)
Ltac expose_cube c Hwf :=
  let fs := fresh "fs" in
  let hist := fresh "hist" in
  destruct c as [fs hist];
  let HF := fresh in let HB := fresh in let HL := fresh in
  let HR := fresh in let HU := fresh in let HD := fresh in
  pose proof (wf_grid_shape _ (Hwf FRONT)) as HF;
  pose proof (wf_grid_shape _ (Hwf BACK)) as HB;
  pose proof (wf_grid_shape _ (Hwf LEFT)) as HL;
  pose proof (wf_grid_shape _ (Hwf RIGHT)) as HR;
  pose proof (wf_grid_shape _ (Hwf UP)) as HU;
  pose proof (wf_grid_shape _ (Hwf DOWN)) as HD;
  clear Hwf; destruct fs; simpl in HF, HB, HL, HR, HU, HD;
  destruct HF as (?&?&?&?&?&?&?&?&?&->);
  destruct HB as (?&?&?&?&?&?&?&?&?&->);
  destruct HL as (?&?&?&?&?&?&?&?&?&->);
  destruct HR as (?&?&?&?&?&?&?&?&?&->);
  destruct HU as (?&?&?&?&?&?&?&?&?&->);
  destruct HD as (?&?&?&?&?&?&?&?&?&->).

Ltac wf_by_shape :=
  let f := fresh in intros f; destruct f; apply wf_grid_intro.

Lemma wf_init : wf init.
Proof. wf_by_shape. Qed.

(** ** The move table *)

Lemma dict_get_move_map (m : string) :
  is_Some (dict_get move_map m) ↔ m ∈ moves.
Proof.
  split.
  - unfold move_map, moves; cbn [dict_get].
    repeat (case_decide; [subst m; intros _; solve [repeat constructor]|]).
    by intros [? ?].
  - unfold moves. rewrite !elem_of_cons, elem_of_nil.
    intros Hm. repeat (destruct Hm as [->|Hm]; [by eexists|]). done.
Qed.

Lemma dict_get_move_map_None (m : string) :
  dict_get move_map m = None ↔ m ∉ moves.
Proof. rewrite <-dict_get_move_map, eq_None_not_Some. done. Qed.

(** Case analysis on a canonical token. *)
Ltac each_move H :=
  unfold moves in H; rewrite !elem_of_cons, elem_of_nil in H;
  repeat (destruct H as [->|H]; [|]); [..|done].

(** A move outside the table does nothing at all. *)
Lemma apply_move_invalid (m : string) (th : bool) (s : RubiksCube) :
  m ∉ moves → apply_move m th s = Some ((), s).
Proof.
  intros Hm%dict_get_move_map_None. unfold apply_move. by rewrite Hm.
Qed.

(** A canonical move on a well-formed cube succeeds, keeps the shape, and
    appends to the history exactly when asked to. *)
Lemma apply_move_valid (m : string) (th : bool) (s : RubiksCube) :
  wf s → m ∈ moves →
  ∃ s', exec (apply_move m th) s = Some s' ∧ wf s' ∧
        move_history s' = (if th then move_history s ++ [m] else move_history s).
Proof.
  intros Hwf Hm. expose_cube s Hwf.
  each_move Hm; destruct th;
    (eexists; split; [vm_compute; reflexivity|split; [wf_by_shape|reflexivity]]).
Qed.

Lemma apply_move_total (m : string) (th : bool) (s : RubiksCube) :
  wf s →
  ∃ s', exec (apply_move m th) s = Some s' ∧ wf s' ∧
        move_history s' =
          (if th && bool_decide (m ∈ moves) then move_history s ++ [m]
           else move_history s).
Proof.
  intros Hwf. destruct (decide (m ∈ moves)) as [Hm|Hm].
  - rewrite bool_decide_eq_true_2, andb_true_r by done.
    by apply apply_move_valid.
  - rewrite bool_decide_eq_false_2, andb_false_r by done.
    exists s. unfold exec. by rewrite apply_move_invalid.
Qed.

(** ** C1 *)

(** C1. For every canonical move token [m] and every cube state [s],
    applying [m] and then [get_reverse_move m] succeeds and restores every
    facelet of every face. *)
Theorem move_then_reverse_restores (s : RubiksCube) (m : string) (th : bool) :
  wf s → m ∈ moves →
  ∃ s1 s2,
    exec (apply_move m th) s = Some s1 ∧
    exec (apply_move (get_reverse_move m) th) s1 = Some s2 ∧
    faces s2 = faces s.
Proof.
  intros Hwf Hm. expose_cube s Hwf.
  each_move Hm; destruct th;
    (eexists; eexists; split; [vm_compute; reflexivity|];
     split; vm_compute; reflexivity).
Qed.

Lemma move_then_reverse_restores_witness :
  ∃ s1 s2,
    exec (apply_move "R'" true) init = Some s1 ∧
    exec (apply_move (get_reverse_move "R'") true) s1 = Some s2 ∧
    faces s2 = faces init.
Proof.
  apply (move_then_reverse_restores init "R'" true).
  - apply wf_init.
  - unfold moves. repeat constructor.
Defined.

(** ** Serialisation *)

Lemma append_cons (a : ascii) (s t : string) :
  String a s +:+ t = String a (s +:+ t).
Proof. reflexivity. Qed.

Lemma append_empty_r (s : string) : s +:+ "" = s.
Proof. induction s as [|a s IH]; [done|by rewrite append_cons, IH]. Qed.

Lemma append_assoc (s1 s2 s3 : string) :
  s1 +:+ (s2 +:+ s3) = (s1 +:+ s2) +:+ s3.
Proof. induction s1 as [|a s1 IH]; [done|by rewrite !append_cons, IH]. Qed.

Lemma string_of_list_ascii_app (l k : list ascii) :
  string_of_list_ascii (l ++ k)
  = string_of_list_ascii l +:+ string_of_list_ascii k.
Proof. induction l as [|a l IH]; simpl; [done|by rewrite append_cons, IH]. Qed.

Lemma string_of_list_ascii_length (l : list ascii) :
  String.length (string_of_list_ascii l) = length l.
Proof. induction l as [|a l IH]; simpl; [done|by rewrite IH]. Qed.

Lemma foldl_append_chars (row : list color) (state : string) :
  foldl (λ state col, state +:+ String col "") state row
  = state +:+ string_of_list_ascii row.
Proof.
  revert state. induction row as [|col row IH]; intros state; simpl.
  - by rewrite append_empty_r.
  - rewrite IH, <-append_assoc. done.
Qed.

Lemma string_of_list_ascii_inj (l k : list ascii) :
  string_of_list_ascii l = string_of_list_ascii k → l = k.
Proof.
  intros H. by rewrite <-(list_ascii_of_string_of_list_ascii l), H,
    list_ascii_of_string_of_list_ascii.
Qed.

Lemma foldl_append_rows (g : grid) (state : string) :
  foldl (λ state row, foldl (λ state col, state +:+ String col "") state row)
        state g
  = state +:+ string_of_list_ascii (row ← g; row).
Proof.
  revert state. induction g as [|row g IH]; intros state; simpl.
  - by rewrite append_empty_r.
  - by rewrite foldl_append_chars, IH, string_of_list_ascii_app, append_assoc.
Qed.

Lemma foldl_append_faces (d : FaceDict grid) (fs : list Face) (state : string) :
  foldl (λ state face,
    foldl (λ state row, foldl (λ state col, state +:+ String col "") state row)
          state (face_get d face)) state fs
  = state +:+ string_of_list_ascii (face ← fs; row ← face_get d face; row).
Proof.
  revert state. induction fs as [|face fs IH]; intros state; simpl.
  - by rewrite append_empty_r.
  - by rewrite IH, foldl_append_rows, string_of_list_ascii_app, append_assoc.
Qed.

(** The state string is the list of facelets, whatever the shape. *)
Lemma get_state_string_facelets (c : RubiksCube) :
  get_state_string c = string_of_list_ascii (facelets c).
Proof. unfold get_state_string. by rewrite foldl_append_faces. Qed.

Lemma facelets_length (c : RubiksCube) : wf c → length (facelets c) = 54.
Proof. intros Hwf. by expose_cube c Hwf. Qed.

(** On well-formed cubes the facelet list determines the six grids. *)
Lemma facelets_inj (c c' : RubiksCube) :
  wf c → wf c' → facelets c = facelets c' → faces c = faces c'.
Proof.
  intros Hwf Hwf' Heq. expose_cube c Hwf. expose_cube c' Hwf'.
  cbv in Heq. simpl. by simplify_eq.
Qed.

Lemma get_state_string_inj (c c' : RubiksCube) :
  wf c → wf c' → get_state_string c = get_state_string c' → faces c = faces c'.
Proof.
  rewrite !get_state_string_facelets.
  intros ?? ?%string_of_list_ascii_inj. by apply facelets_inj.
Qed.

(** C6. The state string of a cube has exactly 54 characters; the
    character at position [9k + 3r + j] is the facelet in row [r], column
    [j] of the [k]-th face in the order Up, Right, Front, Down, Left, Back;
    and two cubes whose grids differ have different state strings. *)
Theorem get_state_string_layout_injective (c : RubiksCube) :
  wf c →
  String.length (get_state_string c) = 54 ∧
  (∀ k face r j,
     [UP; RIGHT; FRONT; DOWN; LEFT; BACK] !! k = Some face → r < 3 → j < 3 →
     String.get (9 * k + 3 * r + j) (get_state_string c)
     = face_get (faces c) face !! r ≫= (.!! j)) ∧
  (∀ c', wf c' → faces c' ≠ faces c →
     get_state_string c' ≠ get_state_string c).
Proof.
  intros Hwf. split; [|split].
  - by rewrite get_state_string_facelets, string_of_list_ascii_length,
      facelets_length.
  - intros k face r j Hk Hr Hj. expose_cube c Hwf.
    do 6 (destruct k as [|k]; [simplify_eq/=;
      (do 3 (destruct r as [|r]; [
         (do 3 (destruct j as [|j]; [reflexivity|])); lia|])); lia|]).
    done.
  - intros c' Hwf' Hne Heq. apply Hne. by apply get_state_string_inj.
Qed.

Lemma get_state_string_layout_injective_witness :
  String.length (get_state_string init) = 54 ∧
  (∀ k face r j,
     [UP; RIGHT; FRONT; DOWN; LEFT; BACK] !! k = Some face → r < 3 → j < 3 →
     String.get (9 * k + 3 * r + j) (get_state_string init)
     = face_get (faces init) face !! r ≫= (.!! j)) ∧
  (∀ c', wf c' → faces c' ≠ faces init →
     get_state_string c' ≠ get_state_string init).
Proof. apply (get_state_string_layout_injective init), wf_init. Defined.

(** ** The solved test *)

Lemma is_solved_iff_string (c : RubiksCube) :
  wf c → is_solved c = true ↔ get_state_string c = solved_string.
Proof.
  intros Hwf. expose_cube c Hwf.
  rewrite get_state_string_facelets. unfold is_solved, target_colors.
  cbn [forallb face_get faces at_FRONT at_BACK at_LEFT at_RIGHT at_UP at_DOWN].
  split.
  - intros H.
    repeat match goal with
      | H : _ && _ = true |- _ => apply andb_prop in H; destruct H
      end.
    repeat match goal with
      | H : bool_decide (_ = _) = true |- _ =>
          apply bool_decide_eq_true_1 in H; subst
      end.
    reflexivity.
  - intros H. cbv in H. simplify_eq. reflexivity.
Qed.

(** C10. On every cube grid, [is_solved] holds exactly when the state
    string is the canonical solved string: nine W, nine R, nine G, nine Y,
    nine O, nine B. *)
Theorem is_solved_iff_solved_string (c : RubiksCube) :
  wf c →
  is_solved c = true
  ↔ get_state_string c = "WWWWWWWWWRRRRRRRRRGGGGGGGGGYYYYYYYYYOOOOOOOOOBBBBBBBBB".
Proof. apply is_solved_iff_string. Qed.

Lemma is_solved_iff_solved_string_witness :
  is_solved init = true
  ↔ get_state_string init = "WWWWWWWWWRRRRRRRRRGGGGGGGGGYYYYYYYYYOOOOOOOOOBBBBBBBBB".
Proof. apply (is_solved_iff_solved_string init), wf_init. Defined.

(** ** Invalid tokens *)

(** C7. A move string outside the twelve canonical tokens leaves the
    facelet grid and the move history exactly as they were, whatever the
    [track_history] flag. *)
Theorem apply_move_outside_tokens_no_mutation
    (move : string) (track_history : bool) (s : RubiksCube) :
  move ∉ ["F"; "F'"; "R"; "R'"; "U"; "U'"; "L"; "L'"; "D"; "D'"; "B"; "B'"] →
  apply_move move track_history s = Some ((), s).
Proof. apply apply_move_invalid. Qed.

Lemma apply_move_outside_tokens_no_mutation_witness :
  apply_move "F2" true init = Some ((), init).
Proof.
  apply (apply_move_outside_tokens_no_mutation "F2" true init).
  apply (bool_decide_unpack _). vm_compute. exact I.
Defined.

(** ** Reversing the history *)

Lemma foldl_snoc_map {A B : Type} (f : A → B) (l : list A) (acc : list B) :
  foldl (λ solution x, solution ++ [f x]) acc l = acc ++ (f <$> l).
Proof.
  revert acc. induction l as [|x l IH]; intros acc; simpl.
  - by rewrite app_nil_r.
  - by rewrite IH, <-app_assoc.
Qed.

Lemma get_perfect_solution_eq (c : RubiksCube) :
  get_perfect_solution c = get_reverse_move <$> reverse (move_history c).
Proof.
  unfold get_perfect_solution, reversed.
  destruct (move_history c) as [|m h]; [done|].
  by rewrite foldl_snoc_map.
Qed.

(** Sequential replay. *)
Lemma apply_all_nil (th : bool) (s : RubiksCube) :
  exec (apply_all [] th) s = Some s.
Proof. done. Qed.

Lemma apply_all_cons (m : string) (ms : list string) (th : bool) (s : RubiksCube) :
  exec (apply_all (m :: ms) th) s
  = exec (apply_move m th) s ≫= exec (apply_all ms th).
Proof.
  unfold exec, apply_all. simpl. unfold mbind at 1, M_bind.
  by destruct (apply_move m th s) as [[[] s']|].
Qed.

Lemma apply_all_app (ms ms' : list string) (th : bool) (s : RubiksCube) :
  exec (apply_all (ms ++ ms') th) s
  = exec (apply_all ms th) s ≫= exec (apply_all ms' th).
Proof.
  revert s. induction ms as [|m ms IH]; intros s.
  - by rewrite apply_all_nil.
  - simpl. rewrite !apply_all_cons.
    destruct (exec (apply_move m th) s) as [s'|]; simpl; [apply IH|done].
Qed.

Lemma apply_all_total (ms : list string) (th : bool) (s : RubiksCube) :
  wf s → ∃ s', exec (apply_all ms th) s = Some s' ∧ wf s'.
Proof.
  revert s. induction ms as [|m ms IH]; intros s Hwf.
  - exists s. by rewrite apply_all_nil.
  - destruct (apply_move_total m th s Hwf) as (s1 & Hs1 & Hwf1 & _).
    destruct (IH s1 Hwf1) as (s' & Hs' & Hwf').
    exists s'. by rewrite apply_all_cons, Hs1.
Qed.

(** C5. With an empty history [get_perfect_solution] is the empty path;
    in general it is the history reversed, each move inverted.  From the
    solved cube, [F] then [R] gives history [[F; R]], the solution
    [[R'; F']], and replaying it reaches a solved cube. *)
Theorem get_perfect_solution_reverses_history :
  (∀ fs, get_perfect_solution {| faces := fs; move_history := [] |} = []) ∧
  (∀ c, get_perfect_solution c
        = get_reverse_move <$> reverse (move_history c)) ∧
  (∃ s s',
     exec (apply_move "F" true;; apply_move "R" true) init = Some s ∧
     move_history s = ["F"; "R"] ∧
     get_perfect_solution s = ["R'"; "F'"] ∧
     exec (apply_all ["R'"; "F'"] false) s = Some s' ∧
     is_solved s' = true).
Proof.
  split; [done|]. split; [apply get_perfect_solution_eq|].
  eexists; eexists. split; [vm_compute; reflexivity|].
  split; [reflexivity|]. split; [reflexivity|].
  split; vm_compute; reflexivity.
Qed.

(** ** Moves permute the facelets *)

Lemma move_index_spec (m : string) (s s' : RubiksCube) :
  wf s → m ∈ moves → exec (apply_move m false) s = Some s' →
  facelets s' = pick (facelets s) (move_index m).
Proof.
  intros Hwf Hm. expose_cube s Hwf.
  each_move Hm; vm_compute; intros [= <-]; reflexivity.
Qed.

Lemma move_index_perm (m : string) :
  m ∈ moves → move_index m ≡ₚ seq 0 54.
Proof.
  intros Hm. each_move Hm; apply (bool_decide_unpack _); vm_compute; exact I.
Qed.

Lemma pick_seq (l : list color) : pick l (seq 0 (length l)) = l.
Proof.
  unfold pick. apply list_eq. intros i. rewrite list_lookup_fmap.
  destruct (decide (i < length l)) as [Hi|Hi].
  - rewrite lookup_seq_lt by done. simpl.
    destruct (lookup_lt_is_Some_2 l i Hi) as [x Hx]. by rewrite Hx.
  - rewrite lookup_seq_ge, lookup_ge_None_2 by lia. done.
Qed.

Lemma history_irrelevant (m : string) (th : bool) (s : RubiksCube) :
  faces <$> exec (apply_move m th) s = faces <$> exec (apply_move m false) s.
Proof.
  unfold exec, apply_move.
  destruct (dict_get move_map m) as [[fn cw]|]; [|done].
  unfold mbind, M_bind. simpl.
  destruct (lift_option (getattr fn) s) as [[meth s1]|]; [|done].
  destruct (meth cw s1) as [[[] s2]|]; [|done].
  by destruct th.
Qed.

Lemma facelets_faces (c c' : RubiksCube) :
  faces c = faces c' → facelets c = facelets c'.
Proof. unfold facelets. by intros ->. Qed.

Lemma apply_move_permutes (m : string) (th : bool) (s s' : RubiksCube) :
  wf s → m ∈ moves → exec (apply_move m th) s = Some s' →
  facelets s' ≡ₚ facelets s.
Proof.
  intros Hwf Hm Hs'.
  pose proof (history_irrelevant m th s) as Hh. rewrite Hs' in Hh.
  destruct (exec (apply_move m false) s) as [s0|] eqn:Hs0; [|done].
  simpl in Hh. injection Hh as Hh.
  rewrite (facelets_faces _ _ Hh), (move_index_spec m s s0) by done.
  rewrite <-(pick_seq (facelets s)) at 2. rewrite facelets_length by done.
  unfold pick. by rewrite (move_index_perm m Hm).
Qed.

Lemma count_color_init (x : color) :
  count_color x init = if bool_decide (x ∈ six_colors) then 9 else 0.
Proof.
  destruct (decide (x ∈ six_colors)) as [Hx|Hx].
  - unfold six_colors in Hx. rewrite !elem_of_cons, elem_of_nil in Hx.
    repeat (destruct Hx as [->|Hx]; [vm_compute; reflexivity|]). done.
  - rewrite bool_decide_eq_false_2 by done.
    unfold six_colors in Hx. rewrite !not_elem_of_cons in Hx.
    destruct Hx as (?&?&?&?&?&?&_).
    unfold count_color.
    change (facelets init) with
      (replicate 9 "W" ++ replicate 9 "R" ++ replicate 9 "G"
       ++ replicate 9 "Y" ++ replicate 9 "O" ++ replicate 9 "B")%char.
    simpl. by rewrite !filter_cons_False, filter_nil by congruence.
Qed.

(** C3. Every canonical move on a cube grid permutes the 54 facelets, so
    keeps the number of facelets of each colour; and every state reached
    from the solved construction by canonical moves has 54 facelets, nine
    of each of the six colours and none of any other. *)
Theorem moves_preserve_color_multiset :
  (∀ s m th s',
     wf s → m ∈ moves → exec (apply_move m th) s = Some s' →
     facelets s' ≡ₚ facelets s ∧ ∀ x, count_color x s' = count_color x s) ∧
  (∀ ms th,
     Forall (λ m, m ∈ moves) ms →
     ∃ s, exec (apply_all ms th) init = Some s ∧
          length (facelets s) = 54 ∧
          ∀ x, count_color x s = if bool_decide (x ∈ six_colors) then 9 else 0).
Proof.
  assert (∀ s m th s',
     wf s → m ∈ moves → exec (apply_move m th) s = Some s' →
     facelets s' ≡ₚ facelets s ∧ ∀ x, count_color x s' = count_color x s) as Hstep.
  { intros s m th s' Hwf Hm Hs'.
    pose proof (apply_move_permutes m th s s' Hwf Hm Hs') as Hp.
    split; [done|]. intros x. unfold count_color. by rewrite Hp. }
  split; [exact Hstep|].
  intros ms th Hms.
  cut (∀ s0, wf s0 → ∃ s, exec (apply_all ms th) s0 = Some s ∧ wf s ∧
                          ∀ x, count_color x s = count_color x s0).
  { intros Hcut. destruct (Hcut init wf_init) as (s & Hs & Hwf & Hcount).
    exists s. split; [done|]. split; [by apply facelets_length|].
    intros x. by rewrite Hcount, count_color_init. }
  induction Hms as [|m ms Hm Hms IH]; intros s0 Hwf0.
  - exists s0. by rewrite apply_all_nil.
  - destruct (apply_move_valid m th s0 Hwf0 Hm) as (s1 & Hs1 & Hwf1 & _).
    destruct (IH s1 Hwf1) as (s & Hs & Hwf & Hcount).
    exists s. rewrite apply_all_cons, Hs1. split; [done|]. split; [done|].
    intros x. rewrite Hcount. by apply (Hstep s0 m th s1).
Qed.

Lemma moves_preserve_color_multiset_witness :
  (∃ s', exec (apply_move "U" true) init = Some s' ∧
         facelets s' ≡ₚ facelets init) ∧
  (∃ s, exec (apply_all ["L"; "D'"] false) init = Some s ∧
        count_color "G" s = 9).
Proof.
  pose proof moves_preserve_color_multiset as [Hstep Hreach]. split.
  - eexists. split; [vm_compute; reflexivity|].
    refine (proj1 (Hstep init "U" true _ wf_init _ _)).
    + unfold moves. repeat constructor.
    + vm_compute. reflexivity.
  - destruct (Hreach ["L"; "D'"] false) as (s & Hs & _ & Hcount).
    + unfold moves. repeat constructor.
    + exists s. split; [done|]. apply (Hcount "G"%char).
Defined.

(** ** Copies and replay *)

Lemma copy_id (c : RubiksCube) : copy c = c.
Proof.
  destruct c as [[] hist]. unfold copy. simpl.
  by rewrite !map_id.
Qed.

Lemma replay_snoc (p : list string) (m : string) (s : RubiksCube) :
  replay (p ++ [m]) s = replay p s ≫= exec (apply_move m false).
Proof.
  unfold replay. rewrite apply_all_app.
  destruct (exec (apply_all p false) s) as [s'|]; simpl; [|done].
  rewrite apply_all_cons.
  by destruct (exec (apply_move m false) s').
Qed.

Lemma replay_wf (p : list string) (s s' : RubiksCube) :
  wf s → replay p s = Some s' → wf s' ∧ move_history s' = move_history s.
Proof.
  unfold replay. revert s. induction p as [|m p IH]; intros s Hwf.
  - rewrite apply_all_nil. by intros [= <-].
  - rewrite apply_all_cons.
    destruct (apply_move_total m false s Hwf) as (s1 & -> & Hwf1 & Hh1).
    simpl. intros Hs'. destruct (IH s1 Hwf1 Hs') as [? ->]. done.
Qed.

(** Two well-formed cubes with the same history and the same state string
    are the same cube. *)
Lemma same_string_same_cube (s s' : RubiksCube) :
  wf s → wf s' → move_history s = move_history s' →
  get_state_string s = get_state_string s' → s = s'.
Proof.
  intros Hwf Hwf' Hh Hstr.
  pose proof (get_state_string_inj s s' Hwf Hwf' Hstr).
  destruct s, s'; simpl in *; congruence.
Qed.

(** ** The inner loop of the search *)

Lemma try_moves_cons (s : RubiksCube) (p : list string) (m : string)
    (todo : list string) (queue : list node) (v : list string) :
  try_moves s p (m :: todo) queue v =
    match exec (apply_move m false) (copy s) with
    | None => try_moves s p todo queue v
    | Some new_cube =>
        if is_solved new_cube then inl (p ++ [m])
        else if decide (get_state_string new_cube ∈ v)
             then try_moves s p todo queue v
             else try_moves s p todo (queue ++ [(new_cube, p ++ [m])])
                    (get_state_string new_cube :: v)
    end.
Proof. reflexivity. Qed.

Lemma bfs_loop_S (fuel d : nat) (t : N → bool) (queue : list node)
    (v : list string) (n : N) :
  bfs_loop (S fuel) d t queue v n =
    match queue with
    | [] => Some None
    | (s, p) :: queue' =>
        if t n then Some None
        else if (max_nodes <? n)%N then Some None
        else if decide (d ≤ length p)
             then bfs_loop fuel d t queue' v (n + 1)%N
             else match try_moves s p moves queue' v with
                  | inl solution => Some (Some solution)
                  | inr (queue'', v') => bfs_loop fuel d t queue'' v' (n + 1)%N
                  end
    end.
Proof. reflexivity. Qed.

Lemma try_moves_inl (s : RubiksCube) (p todo : list string)
    (queue : list node) (v : list string) (sol : list string) :
  try_moves s p todo queue v = inl sol →
  ∃ m s', m ∈ todo ∧ sol = p ++ [m] ∧
          exec (apply_move m false) s = Some s' ∧ is_solved s' = true.
Proof.
  revert queue v. induction todo as [|m todo IH]; intros queue v.
  - done.
  - rewrite try_moves_cons, copy_id.
    destruct (exec (apply_move m false) s) as [s'|] eqn:Hs'.
    + destruct (is_solved s') eqn:Hsolved.
      * intros [= <-]. exists m, s'. split; [left|done].
      * case_decide; intros (m' & s'' & ? & ?)%IH;
          exists m', s''; (split; [by right|done]).
    + intros (m' & s'' & ? & ?)%IH. exists m', s''. split; [by right|done].
Qed.

Lemma try_moves_inr (s : RubiksCube) (p todo : list string)
    (queue queue' : list node) (v v' : list string) :
  try_moves s p todo queue v = inr (queue', v') →
  ∃ new,
    queue' = queue ++ new ∧
    (∀ s' p', (s', p') ∈ new →
       ∃ m, m ∈ todo ∧ exec (apply_move m false) s = Some s' ∧ p' = p ++ [m]) ∧
    (∀ str, str ∈ v' →
       str ∈ v ∨ ∃ s' p', (s', p') ∈ new ∧ get_state_string s' = str) ∧
    (∀ str, str ∈ v → str ∈ v') ∧
    (∀ m s', m ∈ todo → exec (apply_move m false) s = Some s' →
       is_solved s' = false ∧ get_state_string s' ∈ v').
Proof.
  revert queue v. induction todo as [|m todo IH]; intros queue v.
  - intros [= <- <-]. exists []. rewrite app_nil_r.
    split; [done|]. split; [by intros ?? ?%elem_of_nil|].
    split; [by left|]. split; [done|]. by intros ?? ?%elem_of_nil.
  - rewrite try_moves_cons, copy_id.
    destruct (exec (apply_move m false) s) as [s1|] eqn:Hs1.
    + destruct (is_solved s1) eqn:Hsolved; [done|].
      case_decide as Hvis.
      * intros (new & -> & Hnew & Hv' & Hv & Hall)%IH. exists new.
        split; [done|]. split.
        { intros s' p' (m' & ? & ?)%Hnew. exists m'. split; [by right|done]. }
        split; [done|]. split; [done|].
        intros m' s' [->|Hm']%elem_of_cons Hs'; [|by eapply Hall].
        simplify_eq. split; [done|]. by apply Hv.
      * intros (new & -> & Hnew & Hv' & Hv & Hall)%IH.
        exists ((s1, p ++ [m]) :: new). rewrite <-app_assoc.
        split; [done|]. split.
        { intros s' p' [[= -> ->]|Hin]%elem_of_cons.
          - exists m. split; [left|done].
          - destruct (Hnew _ _ Hin) as (m' & ? & ?).
            exists m'. split; [by right|done]. }
        split.
        { intros str [[->|Hstr]%elem_of_cons|(s' & p' & Hin & Hstr)]%Hv'.
          - right. exists s1, (p ++ [m]). split; [left|done].
          - by left.
          - right. exists s', p'. split; [by right|done]. }
        split. { intros str Hstr. apply Hv. by right. }
        intros m' s' [->|Hm']%elem_of_cons Hs'; [|by eapply Hall].
        simplify_eq. split; [done|]. apply Hv. left.
    + intros (new & -> & Hnew & Hv' & Hv & Hall)%IH. exists new.
      split; [done|]. split.
      { intros s' p' (m' & ? & ?)%Hnew. exists m'. split; [by right|done]. }
      split; [done|]. split; [done|].
      intros m' s' [->|Hm']%elem_of_cons Hs'; [congruence|by eapply Hall].
Qed.

(** ** Soundness of the search loop, on any cube *)

Lemma bfs_loop_sound (c : RubiksCube) (d : nat) (t : N → bool) (fuel : nat)
    (queue : list node) (v : list string) (n : N) (sol : list string) :
  (∀ s p, (s, p) ∈ queue → replay p c = Some s) →
  bfs_loop fuel d t queue v n = Some (Some sol) →
  length sol ≤ d ∧ ∃ s', replay sol c = Some s' ∧ is_solved s' = true.
Proof.
  revert queue v n. induction fuel as [|fuel IH]; intros queue v n Hq; [done|].
  rewrite bfs_loop_S. destruct queue as [|[s p] queue]; [done|].
  destruct (t n); [done|]. destruct (max_nodes <? n)%N; [done|].
  case_decide as Hd.
  { apply IH. intros s' p' Hin. apply Hq. by right. }
  destruct (try_moves s p moves queue v) as [sol'|[queue' v']] eqn:Htry.
  - intros [= ->].
    apply try_moves_inl in Htry as (m & s' & _ & -> & Hs' & Hsolved).
    split; [rewrite length_app; simpl; lia|].
    exists s'. rewrite replay_snoc, (Hq s p) by left. done.
  - apply IH.
    apply try_moves_inr in Htry as (new & -> & Hnew & _).
    intros s' p' [Hin|Hin]%elem_of_app.
    + apply Hq. by right.
    + destruct (Hnew _ _ Hin) as (m & _ & Hs' & ->).
      rewrite replay_snoc, (Hq s p) by left. done.
Qed.

(** ** The loop never runs out of fuel *)

Lemma bfs_loop_fuel (d : nat) (t : N → bool) (fuel : nat)
    (queue : list node) (v : list string) (n : N) :
  (n ≤ max_nodes + 1)%N → N.to_nat (max_nodes + 2 - n) ≤ fuel →
  is_Some (bfs_loop fuel d t queue v n).
Proof.
  revert queue v n. induction fuel as [|fuel IH]; intros queue v n Hn Hfuel.
  - unfold max_nodes in *. lia.
  - rewrite bfs_loop_S. destruct queue as [|[s p] queue]; [done|].
    destruct (t n); [done|].
    destruct (max_nodes <? n)%N eqn:Hlt; [done|].
    apply N.ltb_ge in Hlt.
    assert (N.to_nat (max_nodes + 2 - (n + 1)) ≤ fuel)
      by (unfold max_nodes in *; lia).
    assert (n + 1 ≤ max_nodes + 1)%N by lia.
    case_decide; [by apply IH|].
    destruct (try_moves s p moves queue v) as [sol|[queue' v']]; [done|].
    by apply IH.
Qed.

Lemma bfs_loop_ext (d : nat) (t t' : N → bool) (fuel : nat)
    (queue : list node) (v : list string) (n : N) :
  (∀ i, t i = t' i) →
  bfs_loop fuel d t queue v n = bfs_loop fuel d t' queue v n.
Proof.
  intros Ht. revert queue v n.
  induction fuel as [|fuel IH]; intros queue v n; [done|].
  rewrite !bfs_loop_S. destruct queue as [|[s p] queue]; [done|].
  rewrite Ht. destruct (t' n); [done|]. destruct (max_nodes <? n)%N; [done|].
  case_decide; [apply IH|].
  destruct (try_moves s p moves queue v) as [sol|[queue' v']]; [done|apply IH].
Qed.

Lemma solve_bfs_ext (c : RubiksCube) (d : nat) (t t' : N → bool) :
  (∀ i, t i = t' i) → solve_bfs c d t = solve_bfs c d t'.
Proof.
  intros Ht. unfold solve_bfs. by rewrite (bfs_loop_ext d t t' _ _ _ _ Ht).
Qed.

(** ** The search invariant and shortest paths *)

Section SearchOptimal.
Variables (c : RubiksCube) (d : nat).
Hypothesis Hwf : wf c.
Hypothesis Hunsolved : is_solved c = false.

Lemma inv_init : bfs_inv c d 0 [] [(c, [])] [] [get_state_string c].
Proof.
  split.
  - intros s p [= -> ->]%list_elem_of_singleton. split; [done|simpl; lia].
  - by intros s p ?%elem_of_nil.
  - by intros s p [= -> ->]%list_elem_of_singleton.
  - by intros s p ?%elem_of_nil.
  - intros str ->%list_elem_of_singleton. exists c, []. split; [left|done].
  - by intros s p m ?%elem_of_nil.
  - intros q _ Hq. destruct q; [|simpl in Hq; lia].
    exists c, []. split; [done|]. split; [done|]. split; [left|done].
Qed.

(** Every node is a well-formed cube with the history of [c]. *)
Lemma inv_node_wf k done q1 q2 v s p :
  bfs_inv c d k done q1 q2 v → (s, p) ∈ done ++ q1 ++ q2 →
  wf s ∧ move_history s = move_history c.
Proof.
  intros Hinv Hin. destruct (inv_node _ _ _ _ _ _ _ Hinv s p Hin) as [Hr _].
  by apply (replay_wf p c s).
Qed.

Lemma inv_skip k done s p q1 q2 v :
  bfs_inv c d k done ((s, p) :: q1) q2 v → d ≤ length p →
  bfs_inv c d k (done ++ [(s, p)]) q1 q2 v.
Proof.
  intros Hinv Hd.
  assert (∀ n : node, n ∈ (done ++ [(s, p)]) ++ q1 ++ q2
                      ↔ n ∈ done ++ ((s, p) :: q1) ++ q2) as Hsame.
  { intros n. by rewrite <-app_assoc. }
  split.
  - intros s' p' Hin%Hsame. by apply (inv_node _ _ _ _ _ _ _ Hinv).
  - intros s' p' [Hin|[= -> ->]%list_elem_of_singleton]%elem_of_app.
    + by apply (inv_done _ _ _ _ _ _ _ Hinv s').
    + rewrite (inv_q1 _ _ _ _ _ _ _ Hinv s p); [done|left].
  - intros s' p' Hin. apply (inv_q1 _ _ _ _ _ _ _ Hinv s'). by right.
  - apply (inv_q2 _ _ _ _ _ _ _ Hinv).
  - intros str (s' & p' & Hin & Hstr)%(inv_visited _ _ _ _ _ _ _ Hinv).
    exists s', p'. by rewrite Hsame.
  - intros s' p' m [Hin|[= -> ->]%list_elem_of_singleton]%elem_of_app Hp Hm.
    + by apply (inv_closed _ _ _ _ _ _ _ Hinv s' p').
    + lia.
  - intros q Hq Hlen.
    destruct (inv_cover _ _ _ _ _ _ _ Hinv q Hq Hlen) as (s' & p' & ? & ? & ? & ?).
    exists s', p'. by rewrite Hsame.
Qed.

Lemma inv_expand k done s p q1 q2 v queue' v' :
  bfs_inv c d k done ((s, p) :: q1) q2 v → length p < d →
  try_moves s p moves (q1 ++ q2) v = inr (queue', v') →
  ∃ new, queue' = q1 ++ (q2 ++ new) ∧
         bfs_inv c d k (done ++ [(s, p)]) q1 (q2 ++ new) v'.
Proof.
  intros Hinv Hd (new & -> & Hnew & Hv' & Hv & Hall)%try_moves_inr.
  exists new. split; [by rewrite app_assoc|].
  assert (length p = k) as Hk by (apply (inv_q1 _ _ _ _ _ _ _ Hinv s); left).
  assert (replay p c = Some s) as Hs.
  { apply (inv_node _ _ _ _ _ _ _ Hinv). apply elem_of_app. right. left. }
  assert (wf s) as Hwfs by (by apply (replay_wf p c s)).
  assert (∀ n : node, n ∈ (done ++ [(s, p)]) ++ q1 ++ q2 ++ new
                      ↔ n ∈ done ++ ((s, p) :: q1) ++ q2 ∨ n ∈ new) as Hmem.
  { intros n. rewrite !elem_of_app, !elem_of_cons, elem_of_nil. tauto. }
  assert (∀ n : node, n ∈ done ++ ((s, p) :: q1) ++ q2 →
                      n ∈ (done ++ [(s, p)]) ++ q1 ++ q2 ++ new) as Hsub.
  { intros n Hn. apply Hmem. by left. }
  split.
  - intros s' p' [Hin|Hin]%Hmem.
    + by apply (inv_node _ _ _ _ _ _ _ Hinv).
    + destruct (Hnew _ _ Hin) as (m & _ & Hs' & ->).
      rewrite replay_snoc, Hs, length_app. simpl. split; [done|lia].
  - intros s' p' [Hin|[= -> ->]%list_elem_of_singleton]%elem_of_app.
    + by apply (inv_done _ _ _ _ _ _ _ Hinv s').
    + lia.
  - intros s' p' Hin. apply (inv_q1 _ _ _ _ _ _ _ Hinv s'). by right.
  - intros s' p' [Hin|Hin]%elem_of_app.
    + by apply (inv_q2 _ _ _ _ _ _ _ Hinv s').
    + destruct (Hnew _ _ Hin) as (m & _ & _ & ->).
      rewrite length_app. simpl. lia.
  - intros str [Hstr|(s' & p' & Hin & Hstr)]%Hv'.
    + destruct (inv_visited _ _ _ _ _ _ _ Hinv str Hstr) as (s' & p' & Hin & ?).
      exists s', p'. split; [by apply Hsub|done].
    + exists s', p'. split; [|done]. apply Hmem. by right.
  - intros s' p' m [Hin|[= -> ->]%list_elem_of_singleton]%elem_of_app Hp Hm.
    + destruct (inv_closed _ _ _ _ _ _ _ Hinv s' p' m Hin Hp Hm)
        as (s'' & ? & ? & ?).
      exists s''. split; [done|]. split; [done|]. by apply Hv.
    + destruct (apply_move_total m false s Hwfs) as (s'' & Hs'' & _).
      exists s''. split; [done|]. by apply (Hall m).
  - intros q Hq Hlen.
    destruct (inv_cover _ _ _ _ _ _ _ Hinv q Hq Hlen) as (s' & p' & ? & ? & ? & ?).
    exists s', p'. split; [done|]. split; [done|]. split; [by apply Hsub|done].
Qed.

Lemma inv_next_level k done q2 v :
  bfs_inv c d k done [] q2 v → q2 ≠ [] → bfs_inv c d (S k) done q2 [] v.
Proof.
  intros Hinv Hq2.
  assert (S k ≤ d) as Hkd.
  { destruct q2 as [|[s p] q2]; [done|].
    rewrite <-(inv_q2 _ _ _ _ _ _ _ Hinv s p) by left.
    apply (inv_node _ _ _ _ _ _ _ Hinv s p). apply elem_of_app. right. left. }
  assert (∀ n : node, n ∈ done ++ q2 ++ [] ↔ n ∈ done ++ [] ++ q2) as Hsame.
  { intros n. by rewrite app_nil_r. }
  assert (∀ s p, (s, p) ∈ done ++ [] ++ q2 → length p ≤ S k) as Hlevel.
  { intros s p [Hin|Hin]%elem_of_app.
    - pose proof (inv_done _ _ _ _ _ _ _ Hinv s p Hin). lia.
    - by rewrite (inv_q2 _ _ _ _ _ _ _ Hinv s p Hin). }
  split.
  - intros s p Hin%Hsame. by apply (inv_node _ _ _ _ _ _ _ Hinv).
  - intros s p Hin. pose proof (inv_done _ _ _ _ _ _ _ Hinv s p Hin). lia.
  - apply (inv_q2 _ _ _ _ _ _ _ Hinv).
  - by intros s p ?%elem_of_nil.
  - intros str (s & p & Hin & Hstr)%(inv_visited _ _ _ _ _ _ _ Hinv).
    exists s, p. by rewrite Hsame.
  - apply (inv_closed _ _ _ _ _ _ _ Hinv).
  - intros q Hq Hlen.
    destruct (decide (length q ≤ k)) as [Hle|Hgt].
    { destruct (inv_cover _ _ _ _ _ _ _ Hinv q Hq Hle) as (s & p & ? & ? & ? & ?).
      exists s, p. by rewrite Hsame. }
    induction q as [|m q0 _] using rev_ind; [simpl in *; lia|].
    rewrite length_app in Hlen, Hgt. simpl in Hlen, Hgt.
    apply Forall_app in Hq as [Hq0 Hm]. rewrite Forall_singleton in Hm.
    destruct (inv_cover _ _ _ _ _ _ _ Hinv q0 Hq0) as (s0 & p0 & Hs0 & _ & Hin0 & Hp0);
      [lia|].
    assert ((s0, p0) ∈ done) as Hdone.
    { apply elem_of_app in Hin0 as [?|Hin0]; [done|]. simpl in Hin0.
      pose proof (inv_q2 _ _ _ _ _ _ _ Hinv s0 p0 Hin0). lia. }
    destruct (inv_closed _ _ _ _ _ _ _ Hinv s0 p0 m Hdone) as (s1 & Hs1 & Hns & Hvis);
      [lia|done|].
    destruct (inv_visited _ _ _ _ _ _ _ Hinv _ Hvis) as (s2 & p2 & Hin2 & Hstr).
    assert (replay (q0 ++ [m]) c = Some s1) as Hr1.
    { by rewrite replay_snoc, Hs0. }
    destruct (replay_wf _ _ _ Hwf Hr1) as [Hwf1 Hh1].
    destruct (inv_node_wf _ _ _ _ _ _ _ Hinv Hin2) as [Hwf2 Hh2].
    assert (s2 = s1) as ->
      by (apply same_string_same_cube; [done|done|congruence|done]).
    exists s1, p2. split; [done|]. split; [done|].
    split; [by apply Hsame|]. rewrite length_app. simpl.
    pose proof (Hlevel s1 p2 Hin2). lia.
Qed.

(** When the search returns a path from a node at depth [k], no path of
    at most [k] canonical moves solves [c]. *)
Lemma inv_no_shorter k done q1 q2 v q s' :
  bfs_inv c d k done q1 q2 v →
  Forall (λ m, m ∈ moves) q → length q ≤ k →
  replay q c = Some s' → is_solved s' = false.
Proof.
  intros Hinv Hq Hlen Hs'.
  destruct (inv_cover _ _ _ _ _ _ _ Hinv q Hq Hlen) as (s & p & Hs & ? & _).
  congruence.
Qed.

Lemma bfs_loop_no_shorter (t : N → bool) (fuel : nat) :
  ∀ k done q1 q2 v n sol q s',
    bfs_inv c d k done q1 q2 v →
    bfs_loop fuel d t (q1 ++ q2) v n = Some (Some sol) →
    Forall (λ m, m ∈ moves) q → length q < length sol →
    replay q c = Some s' → is_solved s' = false.
Proof.
  induction fuel as [|fuel IH]; [done|].
  assert (∀ k done s p q1 q2 v n sol q s',
    bfs_inv c d k done ((s, p) :: q1) q2 v →
    bfs_loop (S fuel) d t (((s, p) :: q1) ++ q2) v n = Some (Some sol) →
    Forall (λ m, m ∈ moves) q → length q < length sol →
    replay q c = Some s' → is_solved s' = false) as Hstep.
  { intros k done s p q1 q2 v n sol q s' Hinv.
    change (((s, p) :: q1) ++ q2) with ((s, p) :: (q1 ++ q2)).
    rewrite bfs_loop_S.
    destruct (t n); [done|]. destruct (max_nodes <? n)%N; [done|].
    case_decide as Hd.
    { intros Hloop.
      exact (IH _ _ _ _ _ _ _ _ _ (inv_skip _ _ _ _ _ _ _ Hinv Hd) Hloop). }
    destruct (try_moves s p moves (q1 ++ q2) v) as [sol'|[queue' v']] eqn:Htry.
    - intros [= ->] Hq Hlen.
      apply try_moves_inl in Htry as (m & s1 & _ & -> & _).
      rewrite length_app in Hlen. simpl in Hlen.
      apply (inv_no_shorter _ _ _ _ _ _ _ Hinv Hq).
      rewrite <-(inv_q1 _ _ _ _ _ _ _ Hinv s p) by left. lia.
    - destruct (inv_expand _ _ _ _ _ _ _ _ _ Hinv ltac:(lia) Htry)
        as (new & -> & Hinv').
      intros Hloop. exact (IH _ _ _ _ _ _ _ _ _ Hinv' Hloop). }
  intros k done q1 q2 v n sol q s' Hinv.
  destruct q1 as [|[s p] q1].
  - destruct q2 as [|[s p] q2]; [done|].
    intros Hloop. apply (Hstep (S k) done s p q2 [] v n).
    + by apply inv_next_level.
    + rewrite app_nil_r. exact Hloop.
  - by apply (Hstep k done).
Qed.
End SearchOptimal.

(** [solve_bfs] always returns: the node budget bounds the loop. *)
Lemma solve_bfs_returns (c : RubiksCube) (d : nat) (t : N → bool) :
  solve_bfs c d t =
    (if is_solved c then Some []
     else default None
            (bfs_loop bfs_fuel d t [(copy c, [])] [get_state_string c] 0))
  ∧ is_Some (bfs_loop bfs_fuel d t [(copy c, [])] [get_state_string c] 0).
Proof.
  split.
  - unfold solve_bfs. destruct (is_solved c); [done|].
    by destruct (bfs_loop _ _ _ _ _ _).
  - apply bfs_loop_fuel; unfold bfs_fuel, max_nodes; lia.
Qed.

Lemma solve_bfs_sound (c : RubiksCube) (d : nat) (t : N → bool) (sol : list string) :
  solve_bfs c d t = Some sol →
  length sol ≤ d ∧ ∃ s', replay sol c = Some s' ∧ is_solved s' = true.
Proof.
  unfold solve_bfs. destruct (is_solved c) eqn:Hc.
  - intros [= <-]. split; [simpl; lia|]. by exists c.
  - destruct (bfs_loop _ _ _ _ _ _) as [r|] eqn:Hloop; [|done]. intros ->.
    apply (bfs_loop_sound c) in Hloop; [done|].
    intros s p [= -> ->]%list_elem_of_singleton. by rewrite copy_id.
Qed.

Lemma solve_bfs_shortest_solution (c : RubiksCube) (d : nat) (t : N → bool)
    (sol : list string) :
  wf c → solve_bfs c d t = Some sol → shortest_solution c d sol.
Proof.
  intros Hwf Hsol. destruct (solve_bfs_sound c d t sol Hsol) as [Hlen Hsolved].
  split; [done|]. split; [done|].
  revert Hsol. unfold solve_bfs. destruct (is_solved c) eqn:Hc.
  - intros [= <-] q s' _ Hq. simpl in Hq. lia.
  - destruct (bfs_loop _ _ _ _ _ _) as [r|] eqn:Hloop; [|done]. intros ->.
    intros q s' Hq Hlt Hs'. rewrite copy_id in Hloop.
    eapply (bfs_loop_no_shorter c d); [done|done|by apply inv_init| |done..].
    exact Hloop.
Qed.

(** ** Searching after one or two scramble moves *)

Lemma search_after_one_move (m : string) (th : bool) (d : nat) :
  m ∈ moves →
  ∃ s p, exec (apply_move m th) init = Some s ∧
         solve_bfs s (S d) (λ _, false) = Some p ∧ length p = 1.
Proof.
  intros Hm. each_move Hm; destruct th;
    (eexists; eexists; split; [vm_compute; reflexivity|];
     split; [vm_compute; reflexivity|reflexivity]).
Qed.

Lemma search_after_two_moves (m1 m2 : string) (th : bool) (d : nat) :
  m1 ∈ moves → m2 ∈ moves → m2 ≠ get_reverse_move m1 →
  ∃ s p, exec (apply_move m1 th;; apply_move m2 th) init = Some s ∧
         solve_bfs s (S (S d)) (λ _, false) = Some p ∧ length p = 2.
Proof.
  intros Hm1 Hm2 Hne. each_move Hm1; each_move Hm2;
    first [ by destruct Hne
          | destruct th;
            (eexists; eexists; split; [vm_compute; reflexivity|];
             split; [vm_compute; reflexivity|reflexivity]) ].
Qed.

(** ** The orchestrator returns verified paths *)

Lemma search_depths_sound (clock : nat → N → bool) (c : RubiksCube)
    (depths : list nat) (sol : list string) :
  search_depths clock c depths = sol → sol ≠ [] →
  ∃ s', replay sol c = Some s' ∧ is_solved s' = true.
Proof.
  induction depths as [|d depths IH]; simpl; [congruence|].
  destruct (solve_bfs c d (clock d)) as [[|m rest]|] eqn:Hbfs; [done| |done].
  intros <- _. by apply solve_bfs_sound in Hbfs as [_ ?].
Qed.

Lemma method2_sound (available : bool) (kociemba_solve : string → option string)
    (c : RubiksCube) (sol : list string) :
  method2 available kociemba_solve c = Some sol →
  ∃ s', replay sol (copy c) = Some s' ∧ is_solved s' = true.
Proof.
  unfold method2. destruct available; [|done].
  destruct (solve_kociemba _ _ c) as [[|m rest]|]; [done| |done].
  destruct (exec (apply_all (m :: rest) false) (copy c)) as [s'|] eqn:Hs'; [|done].
  destruct (is_solved s') eqn:Hsolved; [|done].
  intros [= <-]. by exists s'.
Qed.

Lemma method1_sound (c : RubiksCube) (sol : list string) :
  method1 c = Some (Some sol) →
  ∃ s', replay sol (copy c) = Some s' ∧ is_solved s' = true.
Proof.
  unfold method1. destruct (move_history c); [done|].
  destruct (exec (apply_all (get_perfect_solution c) false) (copy c))
    as [s'|] eqn:Hs'; [|done].
  destruct (is_solved s') eqn:Hsolved; [|done].
  intros [= <-]. by exists s'.
Qed.

Lemma method1_total (c : RubiksCube) : wf c → is_Some (method1 c).
Proof.
  intros Hwf. unfold method1. destruct (move_history c); [done|].
  rewrite copy_id.
  destruct (apply_all_total (get_perfect_solution c) false c Hwf) as (s' & -> & _).
  by destruct (is_solved s').
Qed.

(** C2. [solve_cube] returns on every cube grid, and whenever it returns a
    non-empty move sequence, whichever method produced it, replaying that
    sequence on a copy of the cube yields a solved cube. *)
Theorem solve_cube_path_replays_to_solved
    (KOCIEMBA_AVAILABLE : bool) (kociemba_solve : string → option string)
    (clock : nat → N → bool) (c : RubiksCube) :
  (wf c → is_Some (solve_cube KOCIEMBA_AVAILABLE kociemba_solve clock c)) ∧
  (∀ p, solve_cube KOCIEMBA_AVAILABLE kociemba_solve clock c = Some p →
        p ≠ [] →
        ∃ s', exec (apply_all p false) (copy c) = Some s' ∧
              is_solved s' = true).
Proof.
  unfold solve_cube. split.
  - intros Hwf. destruct (is_solved c); [done|].
    destruct (method1_total c Hwf) as [[sol|] ->]; [done|].
    by destruct (method2 _ _ c).
  - intros p. destruct (is_solved c); [by intros [= <-]|].
    destruct (method1 c) as [[sol|]|] eqn:H1; [| |done].
    + intros [= <-] _. by apply method1_sound.
    + destruct (method2 _ _ c) as [sol|] eqn:H2.
      * intros [= <-] _. by apply (method2_sound _ _ _ _ H2).
      * intros [= <-] Hne. rewrite copy_id.
        by apply (search_depths_sound clock c _ _ eq_refl).
Qed.

Lemma solve_cube_path_replays_to_solved_witness :
  ∃ c p s',
    solve_cube false (λ _, None) (λ _ _, false) c = Some p ∧ p ≠ [] ∧
    exec (apply_all p false) (copy c) = Some s' ∧ is_solved s' = true.
Proof.
  pose (c := {| faces := faces (default init (replay ["U"; "B'"] init));
                move_history := [] |}).
  assert (solve_cube false (λ _, None) (λ _ _, false) c = Some ["B"; "U'"]) as Hp
    by (vm_compute; reflexivity).
  destruct (proj2 (solve_cube_path_replays_to_solved
                     false (λ _, None) (λ _ _, false) c) ["B"; "U'"] Hp)
    as (s' & Hs' & Hsolved); [discriminate|].
  exists c, ["B"; "U'"], s'.
  split; [exact Hp|]. split; [discriminate|]. split; [exact Hs'|exact Hsolved].
Defined.

(** C4. Whenever [solve_bfs] returns a path (so neither budget cut the
    search short), the path has at most [max_depth] moves, replaying it
    solves the cube, and no shorter sequence of canonical moves does.  With
    a clock that never times out, the search after one scramble move
    returns a one-move path, and after two moves of which the second does
    not cancel the first it returns a two-move path.  The loop of the
    search always ends within the node budget. *)
Theorem solve_bfs_returns_shortest_path :
  (∀ c max_depth timed_out p,
     wf c → solve_bfs c max_depth timed_out = Some p →
     length p ≤ max_depth ∧
     (∃ s', exec (apply_all p false) c = Some s' ∧ is_solved s' = true) ∧
     (∀ q s', Forall (λ m, m ∈ moves) q → length q < length p →
              exec (apply_all q false) c = Some s' → is_solved s' = false)) ∧
  (∀ m track max_depth timed_out,
     m ∈ moves → 1 ≤ max_depth → (∀ n, timed_out n = false) →
     ∃ s p, exec (apply_move m track) init = Some s ∧
            solve_bfs s max_depth timed_out = Some p ∧ length p = 1) ∧
  (∀ m1 m2 track max_depth timed_out,
     m1 ∈ moves → m2 ∈ moves → m2 ≠ get_reverse_move m1 →
     2 ≤ max_depth → (∀ n, timed_out n = false) →
     ∃ s p, exec (apply_move m1 track;; apply_move m2 track) init = Some s ∧
            solve_bfs s max_depth timed_out = Some p ∧ length p = 2) ∧
  (∀ c max_depth timed_out,
     is_Some (bfs_loop bfs_fuel max_depth timed_out
                [(copy c, [])] [get_state_string c] 0)).
Proof.
  split; [|split; [|split]]; cycle 3.
  { intros c d t. apply solve_bfs_returns. }
  - intros c d t p Hwf Hp. by apply (solve_bfs_shortest_solution c d t).
  - intros m th d t Hm Hd Ht. destruct d as [|d]; [lia|].
    destruct (search_after_one_move m th d Hm) as (s & p & ?).
    exists s, p. by rewrite (solve_bfs_ext _ _ t (λ _, false)).
  - intros m1 m2 th d t Hm1 Hm2 Hne Hd Ht. destruct d as [|[|d]]; [lia..|].
    destruct (search_after_two_moves m1 m2 th d Hm1 Hm2 Hne) as (s & p & ?).
    exists s, p. by rewrite (solve_bfs_ext _ _ t (λ _, false)).
Qed.

Lemma solve_bfs_returns_shortest_path_witness :
  ∃ c p,
    solve_bfs c 3 (λ _, false) = Some p ∧ length p ≤ 3 ∧
    (∃ s', exec (apply_all p false) c = Some s' ∧ is_solved s' = true) ∧
    (∀ q s', Forall (λ m, m ∈ moves) q → length q < length p →
             exec (apply_all q false) c = Some s' → is_solved s' = false).
Proof.
  pose (c := default init (replay ["L"; "D"] init)).
  assert (wf c) as Hwf by (vm_compute; wf_by_shape).
  assert (solve_bfs c 3 (λ _, false) = Some ["D'"; "L'"]) as Hp
    by (vm_compute; reflexivity).
  exists c, ["D'"; "L'"]. split; [exact Hp|].
  exact (proj1 solve_bfs_returns_shortest_path c 3 (λ _, false) _ Hwf Hp).
Defined.

(** ** The external adapter *)

Lemma validate_rejects (todo valid_moves : list string) :
  Exists (λ move, move ∉ moves) todo → validate todo valid_moves = None.
Proof.
  intros Hex. revert valid_moves.
  induction Hex as [move todo Hmove|move todo Hex IH]; intros valid_moves;
    cbn [validate].
  - by rewrite (proj2 (dict_get_move_map_None move) Hmove).
  - destruct (dict_get move_map move); [apply IH|done].
Qed.

(** C8. If the move sequence returned by the external solver contains a
    token outside the twelve canonical moves, [solve_kociemba] returns no
    solution at all; and when the external call raises, or the solver is
    not available, [solve_kociemba] returns the no-solution signal.  In
    the store model, where a raised exception is a result of its own,
    [solve_kociemba] never raises. *)
Theorem solve_kociemba_rejects_bad_response
    (KOCIEMBA_AVAILABLE : bool) (kociemba_solve : string → option string)
    (cube : RubiksCube) :
  (∀ cube_string response,
     get_kociemba_string KOCIEMBA_AVAILABLE cube = Some cube_string →
     kociemba_solve cube_string = Some response →
     Exists (λ move, move ∉ moves) (split (strip response)) →
     solve_kociemba KOCIEMBA_AVAILABLE kociemba_solve cube = None) ∧
  (∀ cube_string,
     get_kociemba_string KOCIEMBA_AVAILABLE cube = Some cube_string →
     kociemba_solve cube_string = None →
     solve_kociemba KOCIEMBA_AVAILABLE kociemba_solve cube = None) ∧
  (KOCIEMBA_AVAILABLE = false →
     solve_kociemba KOCIEMBA_AVAILABLE kociemba_solve cube = None) ∧
  (∀ (self : nat) (h : Store.heap),
     is_Some (Store.solve_kociemba KOCIEMBA_AVAILABLE kociemba_solve self h).1).
Proof.
  unfold solve_kociemba. split; [|split; [|split]]; cycle 3.
  { intros self h. unfold Store.solve_kociemba.
    destruct (negb KOCIEMBA_AVAILABLE); [by eexists|].
    unfold Store.try_except.
    match goal with |- context [match ?body h with _ => _ end] =>
      destruct (body h) as [[a|] h'] end; by eexists. }
  - intros cube_string response -> Hresp Hbad.
    destruct (negb KOCIEMBA_AVAILABLE); [done|].
    repeat (case_decide; [done|]). rewrite Hresp.
    case_decide as Hempty.
    { subst response. by apply Exists_nil in Hbad. }
    case_decide; [by apply validate_rejects|done].
  - intros cube_string -> Hraise.
    destruct (negb KOCIEMBA_AVAILABLE); [done|].
    repeat (case_decide; [done|]). by rewrite Hraise.
  - by intros ->.
Qed.

Lemma solve_kociemba_rejects_bad_response_witness :
  solve_kociemba true (λ _, Some "R U2 F'") init = None.
Proof.
  refine (proj1 (solve_kociemba_rejects_bad_response
                   true (λ _, Some "R U2 F'") init) _ "R U2 F'" _ _ _).
  - vm_compute. reflexivity.
  - reflexivity.
  - apply (bool_decide_unpack _). vm_compute. exact I.
Defined.

(** * Properties of the store model: the frame of [solve_cube] *)

Module StoreFacts.
Import Store.

Section FrameRules.
Variables (n0 r0 : nat).

Lemma frame_refl (h : heap) : frame n0 r0 h h.
Proof. by repeat split. Qed.

Lemma frame_trans (h1 h2 h3 : heap) :
  frame n0 r0 h1 h2 → frame n0 r0 h2 h3 → frame n0 r0 h1 h3.
Proof.
  intros (Hr & Hc & ? & ?) (Hr' & Hc' & ? & ?).
  split; [congruence|]. split; [congruence|]. split; lia.
Qed.

Lemma safe_weaken {A : Type} (m : H A) (Q Q' : A → Prop) :
  safe n0 r0 m Q → (∀ a, Q a → Q' a) → safe n0 r0 m Q'.
Proof.
  intros Hm HQ h Hok. destruct (Hm h Hok) as (? & ? & Hres).
  split; [done|]. split; [done|]. intros a Ha. by apply HQ, Hres.
Qed.

Lemma safe_ret {A : Type} (a : A) (Q : A → Prop) :
  Q a → safe n0 r0 (mret a) Q.
Proof.
  intros HQ h Hok. split; [done|]. split; [apply frame_refl|].
  by intros a' [= <-].
Qed.

Lemma safe_raise {A : Type} (Q : A → Prop) : safe n0 r0 raise Q.
Proof. intros h Hok. split; [done|]. split; [apply frame_refl|done]. Qed.

Lemma safe_lift_option {A : Type} (o : option A) (Q : A → Prop) :
  (∀ a, o = Some a → Q a) → safe n0 r0 (lift_option o) Q.
Proof.
  intros HQ. destruct o as [a|]; [apply safe_ret; by apply HQ|apply safe_raise].
Qed.

Lemma safe_bind {A B : Type} (m : H A) (f : A → H B)
    (Q : A → Prop) (R : B → Prop) :
  safe n0 r0 m Q → (∀ a, Q a → safe n0 r0 (f a) R) →
  safe n0 r0 (m ≫= f) R.
Proof.
  intros Hm Hf h Hok. unfold mbind, H_bind.
  destruct (Hm h Hok) as (Hok1 & Hfr1 & Hres1).
  destruct (m h) as [[a|] h1]; simpl in *.
  - destruct (Hf a (Hres1 a eq_refl) h1 Hok1) as (Hok2 & Hfr2 & Hres2).
    split; [done|]. split; [by eapply frame_trans|done].
  - done.
Qed.

Lemma safe_try_except {A : Type} (body handler : H A) (Q Q' : A → Prop) :
  safe n0 r0 body Q' → (∀ a, Q' a → Q a) → safe n0 r0 handler Q →
  safe n0 r0 (try_except body handler) Q.
Proof.
  intros Hb HQ Hh h Hok. unfold try_except.
  destruct (Hb h Hok) as (Hok1 & Hfr1 & Hres1).
  destruct (body h) as [[a|] h1]; simpl in *.
  - split; [done|]. split; [done|]. intros a' [= <-]. by apply HQ, Hres1.
  - destruct (Hh h1 Hok1) as (Hok2 & Hfr2 & Hres2).
    split; [done|]. split; [by eapply frame_trans|done].
Qed.

(** *** The store primitives *)

Lemma safe_load_row (r : nat) : safe n0 r0 (load_row r) (λ _, True).
Proof. intros h Hok. split; [done|]. split; [apply frame_refl|done]. Qed.

Lemma safe_load_cube (self : nat) :
  safe n0 r0 (load_cube self) (λ c, n0 ≤ self → fresh_obj r0 c).
Proof.
  intros h Hok. split; [done|]. split; [apply frame_refl|].
  simpl. intros c Hc Hself. destruct Hok as (_ & _ & Hfresh).
  by apply (Hfresh self).
Qed.

Lemma safe_alloc_row (vals : list ascii) :
  safe n0 r0 (alloc_row vals) (λ r, r0 ≤ r).
Proof.
  intros h (Hr & Hc & Hfresh). unfold fresh_ok, frame. simpl.
  split; [|split].
  - split; [rewrite length_app; lia|]. done.
  - split; [by rewrite take_app_le|]. split; [done|].
    rewrite length_app. lia.
  - by intros r [= <-].
Qed.

Lemma safe_store_cell (r j : nat) (v : ascii) :
  r0 ≤ r → safe n0 r0 (store_cell r j v) (λ _, True).
Proof.
  intros Hrr h (Hr & Hc & Hfresh). unfold store_cell.
  destruct (rows h !! r) as [row|];
    [|split; [done|]; split; [apply frame_refl|done]].
  case_decide; [|split; [done|]; split; [apply frame_refl|done]].
  unfold fresh_ok, frame. simpl. split; [|split; [|done]].
  - split; [by rewrite length_insert|done].
  - split; [by rewrite take_insert_ge|]. split; [done|].
    by rewrite length_insert.
Qed.

Lemma safe_alloc_cube (c : CubeObj) :
  fresh_obj r0 c → safe n0 r0 (alloc_cube c) (λ id, n0 ≤ id).
Proof.
  intros Hc h (Hr & Hn & Hfresh). unfold fresh_ok, frame. simpl.
  split; [|split].
  - split; [done|]. split; [rewrite length_app; lia|].
    intros id c' Hid [Hc'|[_ [_ <-]%list_lookup_singleton_Some]]%lookup_app_Some;
      [|done].
    by apply (Hfresh id).
  - split; [done|]. split; [by rewrite take_app_le|].
    rewrite length_app. lia.
  - by intros id [= <-].
Qed.

Lemma safe_store_cube (self : nat) (c : CubeObj) :
  n0 ≤ self → fresh_obj r0 c → safe n0 r0 (store_cube self c) (λ _, True).
Proof.
  intros Hself Hc h (Hr & Hn & Hfresh). unfold store_cube.
  case_decide; [|split; [done|]; split; [apply frame_refl|done]].
  unfold fresh_ok, frame. simpl. split; [|split; [|done]].
  - split; [done|]. split; [by rewrite length_insert|].
    intros id c' Hid Hlook. destruct (decide (id = self)) as [->|Hne].
    + rewrite list_lookup_insert_eq in Hlook by done. by simplify_eq.
    + rewrite list_lookup_insert_ne in Hlook by done. by apply (Hfresh id).
  - split; [done|]. split; [by rewrite take_insert_ge|].
    by rewrite length_insert.
Qed.

(** *** Loops *)

Lemma safe_for_each {X : Type} (xs : list X) (body : X → H unit) :
  (∀ x, safe n0 r0 (body x) (λ _, True)) →
  safe n0 r0 (for_each xs body) (λ _, True).
Proof.
  intros Hbody. induction xs as [|x xs IH]; simpl.
  - by apply safe_ret.
  - eapply safe_bind; [apply Hbody|]. by intros _ _.
Qed.

Lemma safe_fold_each {X A : Type} (xs : list X) (acc : A) (body : A → X → H A) :
  (∀ a x, safe n0 r0 (body a x) (λ _, True)) →
  safe n0 r0 (fold_each xs acc body) (λ _, True).
Proof.
  intros Hbody. revert acc. induction xs as [|x xs IH]; intros acc; simpl.
  - by apply safe_ret.
  - eapply safe_bind; [apply Hbody|]. intros a _. apply IH.
Qed.

Lemma safe_map_each {X Y : Type} (xs : list X) (f : X → H Y) (Q : Y → Prop) :
  (∀ x, safe n0 r0 (f x) Q) →
  safe n0 r0 (map_each xs f) (Forall Q).
Proof.
  intros Hf. induction xs as [|x xs IH]; simpl.
  - by apply safe_ret.
  - eapply safe_bind; [apply Hf|]. intros y Hy.
    eapply safe_bind; [apply IH|]. intros ys Hys.
    apply safe_ret. by constructor.
Qed.
End FrameRules.

(** One step of a sequence: the first computation by [lem], then go on
    with its result. *)
Ltac sbind lem := eapply safe_bind; [apply lem|].

Section FrameMethods.
Variables (n0 r0 : nat).

Local Abbreviation ok m := (safe n0 r0 m (λ _, True)).

Lemma safe_post_true {A : Type} (m : H A) (Q : A → Prop) :
  safe n0 r0 m Q → ok m.
Proof. intros Hm. by apply (safe_weaken n0 r0 m Q). Qed.

(** *** Construction and copy *)

Lemma safe_uniform (c : ascii) :
  safe n0 r0 (uniform c) (Forall (λ r, r0 ≤ r)).
Proof. apply safe_map_each. intros _. apply safe_alloc_row. Qed.

Lemma fresh_obj_intro (front back left right up down : list nat)
    (hist : list string) :
  Forall (λ r, r0 ≤ r) front → Forall (λ r, r0 ≤ r) back →
  Forall (λ r, r0 ≤ r) left → Forall (λ r, r0 ≤ r) right →
  Forall (λ r, r0 ≤ r) up → Forall (λ r, r0 ≤ r) down →
  fresh_obj r0 {| faces := mkFaces front back left right up down;
                  move_history := hist |}.
Proof.
  intros ?????? face r. rewrite !Forall_forall in *.
  destruct face; simpl; auto.
Qed.

Lemma fresh_obj_face_set (c : CubeObj) (face : Face) (rs : list nat)
    (hist : list string) :
  fresh_obj r0 c → Forall (λ r, r0 ≤ r) rs →
  fresh_obj r0 {| faces := face_set (faces c) face rs; move_history := hist |}.
Proof.
  intros Hc Hrs face' r. rewrite Forall_forall in Hrs.
  pose proof (Hc face' r) as Hold.
  destruct c as [[] ?], face, face'; simpl in *; auto.
Qed.

Lemma fresh_obj_history (c : CubeObj) (hist : list string) :
  fresh_obj r0 c → fresh_obj r0 {| faces := faces c; move_history := hist |}.
Proof. intros Hc face r. apply Hc. Qed.

Lemma safe_init : safe n0 r0 init (λ id, n0 ≤ id).
Proof.
  unfold init.
  sbind safe_uniform. intros front ?. sbind safe_uniform. intros back ?.
  sbind safe_uniform. intros left ?. sbind safe_uniform. intros right ?.
  sbind safe_uniform. intros up ?. sbind safe_uniform. intros down ?.
  apply safe_alloc_cube. by apply fresh_obj_intro.
Qed.

Lemma safe_copy (self : nat) : safe n0 r0 (copy self) (λ id, n0 ≤ id).
Proof.
  unfold copy. sbind safe_init. intros new_cube Hnew.
  eapply safe_bind.
  { apply safe_for_each. intros face.
    sbind safe_load_cube. intros me _.
    eapply safe_bind.
    { apply safe_map_each. intros r.
      sbind safe_load_row. intros row _. apply safe_alloc_row. }
    intros new_rows Hrows. sbind safe_load_cube. intros nc Hnc.
    apply safe_store_cube; [done|]. apply fresh_obj_face_set; auto. }
  intros _ _. sbind safe_load_cube. intros me _.
  sbind safe_load_cube. intros nc Hnc.
  eapply safe_bind.
  { apply safe_store_cube; [done|]. apply fresh_obj_history. auto. }
  intros _ _. by apply safe_ret.
Qed.

(** *** Methods that only read *)

Lemma safe_get_state_string (self : nat) : ok (get_state_string self).
Proof.
  unfold get_state_string. apply safe_fold_each. intros state face.
  sbind safe_load_cube. intros me _.
  apply safe_fold_each. intros state' r.
  sbind safe_load_row. intros row _. by apply safe_ret.
Qed.

Lemma safe_rows_match (rs : list nat) (target_color : ascii) :
  ok (rows_match rs target_color).
Proof.
  induction rs as [|r rs IH]; simpl; [by apply safe_ret|].
  sbind safe_load_row. intros row _.
  destruct (forallb _ row); [apply IH|by apply safe_ret].
Qed.

Lemma safe_faces_match (self : nat) (targets : list (Face * ascii)) :
  ok (faces_match self targets).
Proof.
  induction targets as [|[face target_color] targets IH]; simpl;
    [by apply safe_ret|].
  sbind safe_load_cube. intros me _.
  sbind safe_rows_match. intros [] _; [apply IH|by apply safe_ret].
Qed.

Lemma safe_is_solved (self : nat) : ok (is_solved self).
Proof. apply safe_faces_match. Qed.

Lemma safe_read_cell (self : nat) (face : Face) (i j : nat) :
  ok (read_cell self face i j).
Proof.
  unfold read_cell. sbind safe_load_cube. intros me _.
  eapply (safe_bind _ _ _ _ (λ _, True)); [by apply safe_lift_option|]. intros r _.
  sbind safe_load_row. intros row _. by apply safe_lift_option.
Qed.

Lemma safe_get_row (self : nat) (face : Face) (row_idx : nat) :
  ok (get_row self face row_idx).
Proof.
  unfold get_row. sbind safe_load_cube. intros me _.
  eapply (safe_bind _ _ _ _ (λ _, True)); [by apply safe_lift_option|]. intros r _.
  apply safe_load_row.
Qed.

Lemma safe_get_col (self : nat) (face : Face) (col_idx : nat) :
  ok (get_col self face col_idx).
Proof.
  unfold get_col. eapply safe_post_true, safe_map_each.
  intros i. apply safe_read_cell.
Qed.

Lemma safe_get_perfect_solution (self : nat) :
  ok (get_perfect_solution self).
Proof.
  unfold get_perfect_solution. sbind safe_load_cube. intros me _.
  destruct (move_history me); by apply safe_ret.
Qed.

(** *** Methods that write to [self], on a cube of the call's own *)

Section Mutators.
Variable self : nat.
Hypothesis Hself : n0 ≤ self.

Lemma safe_write_cell (face : Face) (i j : nat) (v : ascii) :
  ok (write_cell self face i j v).
Proof.
  unfold write_cell. sbind safe_load_cube. intros me Hme.
  eapply (safe_bind _ _ _ _ (λ r, r0 ≤ r)).
  - apply safe_lift_option. intros r Hr.
    apply (Hme Hself face). by eapply list_elem_of_lookup_2.
  - intros r Hr. by apply safe_store_cell.
Qed.

Lemma safe_rotate_face_clockwise (face : Face) :
  ok (rotate_face_clockwise self face).
Proof.
  unfold rotate_face_clockwise. sbind safe_load_cube. intros me _.
  eapply safe_bind.
  { apply safe_map_each. intros r. apply safe_load_row. }
  intros old_face _. apply safe_for_each. intros i.
  apply safe_for_each. intros j.
  eapply (safe_bind _ _ _ _ (λ _, True)); [by apply safe_lift_option|]. intros v _.
  apply safe_write_cell.
Qed.

Lemma safe_rotate_face_counterclockwise (face : Face) :
  ok (rotate_face_counterclockwise self face).
Proof.
  apply safe_for_each. intros _. apply safe_rotate_face_clockwise.
Qed.

Lemma safe_set_row (face : Face) (row_idx : nat) (values : list ascii) :
  ok (set_row self face row_idx values).
Proof. apply safe_for_each. intros [i val]. apply safe_write_cell. Qed.

Lemma safe_set_col (face : Face) (col_idx : nat) (values : list ascii) :
  ok (set_col self face col_idx values).
Proof. apply safe_for_each. intros [i val]. apply safe_write_cell. Qed.

(** A rotation method is a sequence of the calls above. *)
Ltac safe_rotation :=
  repeat first
    [ apply safe_set_row | apply safe_set_col
    | apply safe_rotate_face_clockwise
    | apply safe_rotate_face_counterclockwise
    | eapply safe_bind;
        [ first [ apply safe_get_row | apply safe_get_col
                | apply safe_rotate_face_clockwise
                | apply safe_rotate_face_counterclockwise
                | idtac ]
        | intros ? _ ] ].

Lemma safe_rotate_front (clockwise : bool) : ok (rotate_front self clockwise).
Proof. unfold rotate_front. destruct clockwise; safe_rotation. Qed.

Lemma safe_rotate_right (clockwise : bool) : ok (rotate_right self clockwise).
Proof. unfold rotate_right. destruct clockwise; safe_rotation. Qed.

Lemma safe_rotate_up (clockwise : bool) : ok (rotate_up self clockwise).
Proof. unfold rotate_up. destruct clockwise; safe_rotation. Qed.

Lemma safe_rotate_left (clockwise : bool) : ok (rotate_left self clockwise).
Proof. unfold rotate_left. destruct clockwise; safe_rotation. Qed.

Lemma safe_rotate_down (clockwise : bool) : ok (rotate_down self clockwise).
Proof. unfold rotate_down. destruct clockwise; safe_rotation. Qed.

Lemma safe_rotate_back (clockwise : bool) : ok (rotate_back self clockwise).
Proof. unfold rotate_back. destruct clockwise; safe_rotation. Qed.

Lemma safe_getattr (func_name : string) (method : bool → H unit) :
  getattr self func_name = Some method → ∀ clockwise, ok (method clockwise).
Proof.
  unfold getattr. cbn [dict_get].
  repeat (case_decide; [intros [= <-] clockwise;
    first [ apply safe_rotate_front | apply safe_rotate_right
          | apply safe_rotate_up | apply safe_rotate_left
          | apply safe_rotate_down | apply safe_rotate_back ]|]).
  done.
Qed.

Lemma safe_apply_move (move : string) (track_history : bool) :
  ok (apply_move self move track_history).
Proof.
  unfold apply_move.
  destruct (dict_get move_map move) as [[func_name clockwise]|];
    [|by apply safe_ret].
  eapply (safe_bind _ _ _ _ (λ method, ∀ cw, ok (method cw))).
  { apply safe_lift_option. intros method. apply safe_getattr. }
  intros method Hmethod. sbind Hmethod. intros _ _.
  destruct track_history; [|by apply safe_ret].
  sbind safe_load_cube. intros me Hme.
  apply safe_store_cube; [done|]. apply fresh_obj_history. auto.
Qed.

Lemma safe_apply_all (path : list string) (track_history : bool) :
  ok (apply_all self path track_history).
Proof. apply safe_for_each. intros move. apply safe_apply_move. Qed.
End Mutators.
End FrameMethods.

Section FrameSolver.
Variables (n0 r0 : nat).
Variable KOCIEMBA_AVAILABLE : bool.
Variable kociemba_solve : string → option string.
Variable clock : nat → N → bool.

Local Abbreviation ok m := (safe n0 r0 m (λ _, True)).

Lemma safe_get_kociemba_string (self : nat) :
  ok (get_kociemba_string KOCIEMBA_AVAILABLE self).
Proof.
  unfold get_kociemba_string.
  destruct (negb KOCIEMBA_AVAILABLE); [by apply safe_ret|].
  eapply safe_bind; [|intros result _; by apply safe_ret].
  apply safe_fold_each. intros result face.
  sbind safe_load_cube. intros me _.
  apply safe_fold_each. intros result' r.
  sbind safe_load_row. intros row _. by apply safe_ret.
Qed.

Lemma safe_solve_kociemba (cube : nat) :
  ok (solve_kociemba KOCIEMBA_AVAILABLE kociemba_solve cube).
Proof.
  unfold solve_kociemba.
  destruct (negb KOCIEMBA_AVAILABLE); [by apply safe_ret|].
  apply (safe_try_except _ _ _ _ _ (λ _, True)); [|done|by apply safe_ret].
  sbind safe_get_kociemba_string. intros [cube_string|] _;
    [|by apply safe_ret].
  repeat (case_decide; [by apply safe_ret|]).
  eapply (safe_bind _ _ _ _ (λ _, True)); [by apply safe_lift_option|].
  intros solution_string _.
  repeat (case_decide; [by apply safe_ret|]). by apply safe_ret.
Qed.

(** The search writes only to the copies it makes. *)
Lemma safe_try_moves (current_cube : nat) (path todo : list string)
    (queue : list (nat * list string)) (visited : list string) :
  ok (try_moves current_cube path todo queue visited).
Proof.
  revert queue visited.
  induction todo as [|move todo IH]; intros queue visited; simpl;
    [by apply safe_ret|].
  eapply (safe_bind _ _ _ _ (λ _, True)).
  - apply (safe_try_except _ _ _ _ _ (λ _, True)); [|done|by apply safe_ret].
    sbind safe_copy. intros new_cube Hnew.
    eapply safe_bind; [by apply safe_apply_move|]. intros _ _.
    sbind safe_is_solved. intros [] _; [by apply safe_ret|].
    sbind safe_get_state_string. intros state _.
    case_decide; by apply safe_ret.
  - intros [solution|[queue' visited']] _; [by apply safe_ret|apply IH].
Qed.

Lemma safe_bfs_loop (fuel max_depth : nat) (timed_out : N → bool)
    (queue : list (nat * list string)) (visited : list string) (n : N) :
  ok (bfs_loop fuel max_depth timed_out queue visited n).
Proof.
  revert queue visited n.
  induction fuel as [|fuel IH]; intros queue visited n;
    [by apply safe_ret|].
  cbn [bfs_loop]. destruct queue as [|[current_cube path] queue];
    [by apply safe_ret|].
  destruct (timed_out n); [by apply safe_ret|].
  destruct (max_nodes <? n)%N; [by apply safe_ret|].
  case_decide; [apply IH|].
  sbind safe_try_moves.
  intros [solution|[queue' visited']] _; [by apply safe_ret|apply IH].
Qed.

Lemma safe_solve_bfs (cube max_depth : nat) (timed_out : N → bool) :
  ok (solve_bfs cube max_depth timed_out).
Proof.
  unfold solve_bfs. sbind safe_is_solved. intros [] _; [by apply safe_ret|].
  sbind safe_copy. intros start _.
  sbind safe_get_state_string. intros state _.
  sbind safe_bfs_loop. intros [result|] _; by apply safe_ret.
Qed.

Lemma safe_search_depths (cube : nat) (depths : list nat) :
  ok (search_depths clock cube depths).
Proof.
  induction depths as [|max_depth depths IH]; simpl; [by apply safe_ret|].
  sbind safe_solve_bfs. intros [[|move rest]|] _;
    [apply IH|by apply safe_ret|apply IH].
Qed.

Lemma safe_method3 (cube : nat) : ok (method3 clock cube).
Proof.
  unfold method3. sbind safe_load_cube. intros me _.
  apply safe_search_depths.
Qed.

Lemma safe_method2 (cube : nat) :
  ok (method2 KOCIEMBA_AVAILABLE kociemba_solve cube).
Proof.
  unfold method2.
  match goal with
  | |- safe _ _ (if _ then ?body else _) _ => assert (ok body) as Hbody
  end; [|destruct KOCIEMBA_AVAILABLE; [exact Hbody|by apply safe_ret]].
  apply (safe_try_except _ _ _ _ _ (λ _, True)); [|done|by apply safe_ret].
  sbind safe_solve_kociemba. intros [[|move rest]|] _;
    [by apply safe_ret| |by apply safe_ret].
  sbind safe_copy. intros test_cube Htest.
  eapply safe_bind; [by apply safe_apply_all|]. intros _ _.
  sbind safe_is_solved. intros [] _; by apply safe_ret.
Qed.

Lemma safe_method1 (cube : nat) : ok (method1 cube).
Proof.
  unfold method1. sbind safe_load_cube. intros me _.
  destruct (move_history me); [by apply safe_ret|].
  sbind safe_get_perfect_solution. intros perfect_solution _.
  sbind safe_copy. intros test_cube Htest.
  eapply safe_bind; [by apply safe_apply_all|]. intros _ _.
  sbind safe_is_solved. intros [] _; by apply safe_ret.
Qed.

Lemma safe_solve_cube (cube : nat) :
  ok (solve_cube KOCIEMBA_AVAILABLE kociemba_solve clock cube).
Proof.
  unfold solve_cube. sbind safe_is_solved. intros [] _; [by apply safe_ret|].
  sbind safe_method1. intros [perfect_solution|] _; [by apply safe_ret|].
  sbind safe_method2. intros [kociemba_solution|] _; [by apply safe_ret|].
  apply safe_method3.
Qed.
End FrameSolver.

(** ** What the frame means for the caller's cube *)

Lemma fresh_ok_start (h : heap) :
  fresh_ok (length (cubes h)) (length (rows h)) h.
Proof.
  split; [done|]. split; [done|].
  intros id c Hid Hc. apply lookup_lt_Some in Hc. lia.
Qed.

Lemma frame_prefix (h h' : heap) :
  frame (length (cubes h)) (length (rows h)) h h' →
  rows h `prefix_of` rows h' ∧ cubes h `prefix_of` cubes h'.
Proof.
  intros (Hr & Hc & _ & _). rewrite firstn_all in Hr, Hc. split.
  - rewrite <-Hr. apply prefix_take.
  - rewrite <-Hc. apply prefix_take.
Qed.

Lemma grid_of_prefix (h h' : heap) (self : nat)
    (g : FaceDict (list (list ascii))) :
  rows h `prefix_of` rows h' → cubes h `prefix_of` cubes h' →
  grid_of h self = Some g → grid_of h' self = Some g.
Proof.
  intros Hrows Hcubes. unfold grid_of.
  destruct (cubes h !! self) as [c|] eqn:Hc; [|done].
  rewrite (prefix_lookup_Some _ _ _ _ Hc Hcubes). simpl.
  assert (∀ rs k, mapM (λ r, rows h !! r) rs = Some k →
                  mapM (λ r, rows h' !! r) rs = Some k) as Hmap.
  { intros rs k. rewrite !mapM_Some. intros Hall.
    eapply Forall2_impl; [exact Hall|].
    intros r row Hr. by apply (prefix_lookup_Some (rows h)). }
  repeat match goal with
    | |- context [mapM (λ r, rows h !! r) ?rs] =>
        destruct (mapM (λ r, rows h !! r) rs) as [?|] eqn:Hm; [|done];
        rewrite (Hmap _ _ Hm); clear Hm; simpl
    end.
  done.
Qed.

(** C9. A call of [solve_cube] leaves every object that existed before the
    call as it was, whether it returns or raises: the store after the call
    extends the store before it.  So the caller's cube has the same row
    references, the same history and the same facelet grid afterwards;
    all writes go to copies made by [copy]. *)
Theorem solve_cube_leaves_cube_unchanged
    (KOCIEMBA_AVAILABLE : bool) (kociemba_solve : string → option string)
    (clock : nat → N → bool) (cube : nat) (h : heap) :
  let h' := (solve_cube KOCIEMBA_AVAILABLE kociemba_solve clock cube h).2 in
  rows h `prefix_of` rows h' ∧
  cubes h `prefix_of` cubes h' ∧
  (∀ c, cubes h !! cube = Some c → cubes h' !! cube = Some c) ∧
  (∀ g, grid_of h cube = Some g → grid_of h' cube = Some g).
Proof.
  intros h'.
  destruct (safe_solve_cube (length (cubes h)) (length (rows h))
              KOCIEMBA_AVAILABLE kociemba_solve clock cube h
              (fresh_ok_start h)) as (_ & Hframe & _).
  apply frame_prefix in Hframe as [Hrows Hcubes].
  split; [done|]. split; [done|]. split.
  - intros c Hc. by apply (prefix_lookup_Some (cubes h)).
  - intros g. by apply grid_of_prefix.
Qed.

Lemma solve_cube_leaves_cube_unchanged_witness :
  ∃ h g,
    grid_of h 0 = Some g ∧
    grid_of (solve_cube false (λ _, None) (λ _ _, false) 0 h).2 0 = Some g ∧
    (solve_cube false (λ _, None) (λ _ _, false) 0 h).1 = Some ["B"; "U'"].
Proof.
  exists (apply_all 0 ["U"; "B'"] false solved_store).2. eexists.
  split; [vm_compute; reflexivity|]. split; [|vm_compute; reflexivity].
  apply (solve_cube_leaves_cube_unchanged false (λ _, None) (λ _ _, false) 0).
  vm_compute. reflexivity.
Defined.

End StoreFacts.

(** ** The two models agree on a store that holds one cube *)

Lemma store_apply_move_agrees (c c' : RubiksCube) (m : string) (th : bool) :
  wf c → m ∈ moves → exec (apply_move m th) c = Some c' →
  Store.apply_move 0 m th (Store.single (faces c) (move_history c))
  = (Some (), Store.single (faces c') (move_history c')).
Proof.
  intros Hwf Hm. expose_cube c Hwf.
  each_move Hm; destruct th; vm_compute; intros [= <-]; reflexivity.
Qed.

Lemma store_get_state_string_agrees (c : RubiksCube) :
  wf c →
  Store.get_state_string 0 (Store.single (faces c) (move_history c))
  = (Some (get_state_string c), Store.single (faces c) (move_history c)).
Proof. intros Hwf. expose_cube c Hwf. vm_compute. reflexivity. Qed.

Lemma store_is_solved_agrees (c : RubiksCube) :
  wf c →
  Store.is_solved 0 (Store.single (faces c) (move_history c))
  = (Some (is_solved c), Store.single (faces c) (move_history c)).
Proof.
  intros Hwf. expose_cube c Hwf.
  cbv -[bool_decide].
  repeat match goal with
    | |- context [bool_decide (?x = ?y)] =>
        destruct (bool_decide (x = y)); cbv beta iota; [|reflexivity]
    end.
  reflexivity.
Qed.

(** The search loop of the store model never runs out of fuel either. *)
Lemma store_bfs_loop_fuel (d : nat) (t : N → bool) (fuel : nat)
    (queue : list (nat * list string)) (v : list string) (n : N)
    (h : Store.heap) :
  (n ≤ max_nodes + 1)%N → N.to_nat (max_nodes + 2 - n) ≤ fuel →
  (Store.bfs_loop fuel d t queue v n h).1 ≠ Some None.
Proof.
  revert queue v n h.
  induction fuel as [|fuel IH]; intros queue v n h Hn Hfuel.
  - unfold max_nodes in *. lia.
  - cbn [Store.bfs_loop]. destruct queue as [|[s p] queue]; [done|].
    destruct (t n); [done|].
    destruct (max_nodes <? n)%N eqn:Hlt; [done|].
    apply N.ltb_ge in Hlt.
    assert (N.to_nat (max_nodes + 2 - (n + 1)) ≤ fuel)
      by (unfold max_nodes in *; lia).
    assert (n + 1 ≤ max_nodes + 1)%N by lia.
    case_decide; [by apply IH|].
    unfold mbind, Store.H_bind.
    destruct (Store.try_moves s p moves queue v h)
      as [[[sol|[queue' v']]|] h']; [done|by apply IH|done].
Qed.

(** * Further properties of [RubiksCube] *)

(** ** Turning one face grid *)

(** X1. On a cube grid [rotate_face_clockwise] succeeds and is a quarter
    turn of that face only: the facelet of row [i], column [j] goes to row
    [j], column [2 - i]; the other five faces and the history stay. *)
Theorem rotate_face_clockwise_quarter_turn (face : Face) (c : RubiksCube) :
  wf c →
  ∃ c', exec (rotate_face_clockwise face) c = Some c' ∧ wf c' ∧
        move_history c' = move_history c ∧
        (∀ f, f ≠ face → face_get (faces c') f = face_get (faces c) f) ∧
        (∀ i j, i < 3 → j < 3 → cell c' face j (2 - i) = cell c face i j).
Proof.
  intros Hwf. expose_cube c Hwf.
  destruct face;
    (eexists; split; [vm_compute; reflexivity|]; split; [wf_by_shape|];
     split; [reflexivity|]; split;
     [ intros f Hf; by destruct f
     | intros i j Hi Hj;
       destruct i as [|[|[|i]]]; [..|lia];
         (destruct j as [|[|[|j]]]; [..|lia]; reflexivity) ]).
Qed.

Lemma rotate_face_clockwise_quarter_turn_witness :
  ∃ c', exec (rotate_face_clockwise UP) labelled = Some c' ∧
        cell c' UP 2 (2 - 0) = cell labelled UP 0 2.
Proof.
  destruct (rotate_face_clockwise_quarter_turn UP labelled)
    as (c' & Hc' & _ & _ & _ & Hcell).
  - wf_by_shape.
  - exists c'. split; [exact Hc'|]. apply Hcell; lia.
Defined.

(** X2. [rotate_face_counterclockwise] undoes [rotate_face_clockwise] and
    is undone by it; so four clockwise turns of a face grid are the
    identity. *)
Theorem rotate_face_counterclockwise_inverts (face : Face) (c : RubiksCube) :
  wf c →
  exec (rotate_face_clockwise face;; rotate_face_counterclockwise face) c
    = Some c ∧
  exec (rotate_face_counterclockwise face;; rotate_face_clockwise face) c
    = Some c ∧
  exec (for_each [(); (); (); ()] (λ _, rotate_face_clockwise face)) c
    = Some c.
Proof.
  intros Hwf. expose_cube c Hwf.
  destruct face; (split; [|split]); vm_compute; reflexivity.
Qed.

Lemma rotate_face_counterclockwise_inverts_witness :
  exec (rotate_face_clockwise LEFT;; rotate_face_counterclockwise LEFT) labelled
    = Some labelled ∧
  exec (rotate_face_counterclockwise LEFT;; rotate_face_clockwise LEFT) labelled
    = Some labelled ∧
  exec (for_each [(); (); (); ()] (λ _, rotate_face_clockwise LEFT)) labelled
    = Some labelled.
Proof.
  apply (rotate_face_counterclockwise_inverts LEFT labelled). wf_by_shape.
Defined.

(** ** Rows and columns *)

(** X3. [set_row] with at most three values succeeds on a cube grid,
    overwrites the first cells of that one row and nothing else; a
    following [get_row] reads the values back, followed by the cells that
    were not overwritten. *)
Theorem set_row_then_get_row (face : Face) (k : nat) (values : list color)
    (c : RubiksCube) :
  wf c → k < 3 → length values ≤ 3 →
  ∃ c' old,
    get_row face k c = Some (old, c) ∧
    exec (set_row face k values) c = Some c' ∧ wf c' ∧
    move_history c' = move_history c ∧
    get_row face k c' = Some (values ++ drop (length values) old, c') ∧
    (∀ f i, (f, i) ≠ (face, k) →
       face_get (faces c') f !! i = face_get (faces c) f !! i).
Proof.
  intros Hwf Hk Hlen. expose_cube c Hwf.
  destruct values as [|v0 [|v1 [|v2 [|v3 values]]]]; [..|simpl in Hlen; lia];
    (destruct k as [|[|[|k]]]; [..|lia]);
    destruct face;
    (eexists; eexists; split; [vm_compute; reflexivity|];
     split; [vm_compute; reflexivity|]; split; [wf_by_shape|];
     split; [reflexivity|]; split; [vm_compute; reflexivity|];
     intros f i Hne;
     destruct f; try reflexivity;
     destruct i as [|[|[|i]]]; try reflexivity; by destruct Hne).
Qed.

Lemma set_row_then_get_row_witness :
  ∃ c' old,
    get_row UP 1 init = Some (old, init) ∧
    exec (set_row UP 1 ["R"; "G"]%char) init = Some c' ∧ wf c' ∧
    move_history c' = move_history init ∧
    get_row UP 1 c'
      = Some (["R"; "G"]%char ++ drop (length ["R"; "G"]%char) old, c') ∧
    (∀ f i, (f, i) ≠ (UP, 1) →
       face_get (faces c') f !! i = face_get (faces init) f !! i).
Proof.
  apply (set_row_then_get_row UP 1 ["R"; "G"]%char init).
  - apply wf_init.
  - lia.
  - simpl. lia.
Defined.

(** X4. The same for columns: [set_col] with at most three values
    overwrites the first cells of one column, and [get_col] reads them
    back; every cell outside that column keeps its facelet. *)
Theorem set_col_then_get_col (face : Face) (k : nat) (values : list color)
    (c : RubiksCube) :
  wf c → k < 3 → length values ≤ 3 →
  ∃ c' old,
    get_col face k c = Some (old, c) ∧
    exec (set_col face k values) c = Some c' ∧ wf c' ∧
    move_history c' = move_history c ∧
    get_col face k c' = Some (values ++ drop (length values) old, c') ∧
    (∀ f i j, (f, j) ≠ (face, k) → cell c' f i j = cell c f i j).
Proof.
  intros Hwf Hk Hlen. expose_cube c Hwf.
  destruct values as [|v0 [|v1 [|v2 [|v3 values]]]]; [..|simpl in Hlen; lia];
    (destruct k as [|[|[|k]]]; [..|lia]);
    destruct face;
    (eexists; eexists; split; [vm_compute; reflexivity|];
     split; [vm_compute; reflexivity|]; split; [wf_by_shape|];
     split; [reflexivity|]; split; [vm_compute; reflexivity|];
     intros f i j Hne;
     destruct f; try reflexivity;
     destruct i as [|[|[|i]]]; try reflexivity;
     destruct j as [|[|[|j]]]; try reflexivity; by destruct Hne).
Qed.

Lemma set_col_then_get_col_witness :
  ∃ c' old,
    get_col DOWN 2 init = Some (old, init) ∧
    exec (set_col DOWN 2 ["R"; "G"; "B"]%char) init = Some c' ∧ wf c' ∧
    move_history c' = move_history init ∧
    get_col DOWN 2 c'
      = Some (["R"; "G"; "B"]%char
              ++ drop (length ["R"; "G"; "B"]%char) old, c') ∧
    (∀ f i j, (f, j) ≠ (DOWN, 2) → cell c' f i j = cell init f i j).
Proof.
  apply (set_col_then_get_col DOWN 2 ["R"; "G"; "B"]%char init).
  - apply wf_init.
  - lia.
  - simpl. lia.
Defined.

(** X5. Out of range the four accessors raise: a row or column index of
    3 or more, on reading and on writing a non-empty list, and a list of
    more than three values. *)
Theorem row_col_out_of_range (face : Face) (k : nat) (values : list color)
    (c : RubiksCube) :
  wf c →
  (3 ≤ k → get_row face k c = None ∧ get_col face k c = None) ∧
  (3 ≤ k → values ≠ [] →
     set_row face k values c = None ∧ set_col face k values c = None) ∧
  (3 < length values →
     set_row face k values c = None ∧ set_col face k values c = None).
Proof.
  intros Hwf. expose_cube c Hwf. split; [|split].
  - intros Hk. destruct k as [|[|[|k]]]; [lia..|].
    destruct face; split; reflexivity.
  - intros Hk Hv. destruct k as [|[|[|k]]]; [lia..|].
    destruct values as [|v values]; [done|].
    destruct face; split; reflexivity.
  - intros Hlen.
    destruct values as [|v0 [|v1 [|v2 [|v3 values]]]]; [simpl in Hlen; lia..|].
    destruct k as [|[|[|k]]]; destruct face; split; reflexivity.
Qed.

Lemma row_col_out_of_range_witness :
  (get_row FRONT 3 init = None ∧ get_col FRONT 3 init = None) ∧
  (set_row FRONT 0 ["W"; "W"; "W"; "W"]%char init = None ∧
   set_col FRONT 0 ["W"; "W"; "W"; "W"]%char init = None).
Proof.
  pose proof (row_col_out_of_range FRONT 3 [] init wf_init) as [Hget _].
  pose proof (row_col_out_of_range FRONT 0 ["W"; "W"; "W"; "W"]%char init
                wf_init) as (_ & _ & Hset).
  split; [apply Hget; lia|apply Hset; simpl; lia].
Defined.

(** ** The group of moves *)

(** A canonical move followed by its reverse gives back the cube as it
    was, when neither is recorded. *)
Lemma reverse_move_undoes (m : string) (s : RubiksCube) :
  wf s → m ∈ moves →
  ∃ s1, exec (apply_move m false) s = Some s1 ∧
        exec (apply_move (get_reverse_move m) false) s1 = Some s.
Proof.
  intros Hwf Hm. expose_cube s Hwf.
  each_move Hm; (eexists; split; vm_compute; reflexivity).
Qed.

(** The history is carried along, and nothing else depends on it. *)
Lemma apply_move_with_history (m : string) (hist : list string) (s : RubiksCube) :
  wf s →
  exec (apply_move m false) (with_history hist s)
  = with_history hist <$> exec (apply_move m false) s.
Proof.
  intros Hwf. destruct (decide (m ∈ moves)) as [Hm|Hm].
  - expose_cube s Hwf. each_move Hm; vm_compute; reflexivity.
  - unfold exec. by rewrite !apply_move_invalid.
Qed.

Lemma wf_with_history (hist : list string) (s : RubiksCube) :
  wf s → wf (with_history hist s).
Proof. intros Hwf face. apply (Hwf face). Qed.

Lemma replay_with_history (p : list string) (hist : list string) (s : RubiksCube) :
  wf s →
  replay p (with_history hist s) = with_history hist <$> replay p s.
Proof.
  unfold replay. revert s. induction p as [|m p IH]; intros s Hwf; [done|].
  rewrite !apply_all_cons, apply_move_with_history by done.
  destruct (apply_move_total m false s Hwf) as (s1 & -> & Hwf1 & _).
  simpl. by apply IH.
Qed.

(** Replaying a path backwards, every move reversed, undoes it. *)
Lemma replay_reversed_undoes (q : list string) (s s1 : RubiksCube) :
  wf s → Forall (λ m, m ∈ moves) q → replay q s = Some s1 →
  replay (get_reverse_move <$> reverse q) s1 = Some s.
Proof.
  intros Hwf Hq. revert s Hwf. unfold replay.
  induction Hq as [|m q Hm Hq IH]; intros s Hwf.
  - rewrite apply_all_nil. by intros [= <-].
  - rewrite apply_all_cons.
    destruct (reverse_move_undoes m s Hwf Hm) as (sm & Hsm & Hback).
    destruct (apply_move_valid m false s Hwf Hm) as (sm' & Hsm' & Hwfm & _).
    rewrite Hsm in Hsm'. injection Hsm' as <-. rewrite Hsm. simpl.
    intros Hs1. rewrite reverse_cons, fmap_app. simpl.
    rewrite apply_all_app, (IH sm Hwfm Hs1). simpl.
    rewrite apply_all_cons, Hback. done.
Qed.

(** X6. Every canonical move is of order four on cube grids: four
    applications bring back the cube, and three applications are the
    reverse move. *)
Theorem move_has_order_four (m : string) (c : RubiksCube) :
  wf c → m ∈ moves →
  replay [m; m; m; m] c = Some c ∧
  replay [m; m; m] c = replay [get_reverse_move m] c.
Proof.
  intros Hwf Hm. expose_cube c Hwf.
  each_move Hm; (split; vm_compute; reflexivity).
Qed.

Lemma move_has_order_four_witness :
  replay ["B'"; "B'"; "B'"; "B'"] labelled = Some labelled ∧
  replay ["B'"; "B'"; "B'"] labelled = replay [get_reverse_move "B'"] labelled.
Proof.
  apply (move_has_order_four "B'" labelled).
  - wf_by_shape.
  - unfold moves. repeat constructor.
Defined.

(** X7. Turns of opposite faces commute: front with back, up with down,
    left with right, in either direction. *)
Theorem opposite_faces_commute (a b : string) (c : RubiksCube) :
  wf c →
  (a ∈ ["F"; "F'"] ∧ b ∈ ["B"; "B'"]) ∨
  (a ∈ ["U"; "U'"] ∧ b ∈ ["D"; "D'"]) ∨
  (a ∈ ["L"; "L'"] ∧ b ∈ ["R"; "R'"]) →
  replay [a; b] c = replay [b; a] c.
Proof.
  intros Hwf Hab. expose_cube c Hwf.
  rewrite !elem_of_cons, !elem_of_nil in Hab.
  destruct Hab as [[Ha Hb]|[[Ha Hb]|[Ha Hb]]];
    destruct Ha as [->|[->|[]]]; destruct Hb as [->|[->|[]]];
    vm_compute; reflexivity.
Qed.

Lemma opposite_faces_commute_witness :
  replay ["U'"; "D"] labelled = replay ["D"; "U'"] labelled.
Proof.
  apply (opposite_faces_commute "U'" "D" labelled).
  - wf_by_shape.
  - right. left. split; repeat constructor.
Defined.

(** X8. One canonical move on a solved cube grid never leaves it solved,
    and neither do two or three applications of the same move. *)
Theorem solved_cube_unsolved_by_turns (m : string) (c : RubiksCube) :
  wf c → is_solved c = true → m ∈ moves →
  ∃ c1 c2 c3,
    replay [m] c = Some c1 ∧ is_solved c1 = false ∧
    replay [m; m] c = Some c2 ∧ is_solved c2 = false ∧
    replay [m; m; m] c = Some c3 ∧ is_solved c3 = false.
Proof.
  intros Hwf Hsolved Hm.
  assert (faces c = faces init) as Hfaces.
  { apply get_state_string_inj; [done|apply wf_init|].
    by apply is_solved_iff_string. }
  destruct c as [fs hist]. simpl in Hfaces. subst fs.
  each_move Hm;
    (eexists; eexists; eexists;
     split; [vm_compute; reflexivity|]; split; [reflexivity|];
     split; [vm_compute; reflexivity|]; split; [reflexivity|];
     split; [vm_compute; reflexivity|]; reflexivity).
Qed.

Lemma solved_cube_unsolved_by_turns_witness :
  ∃ c1 c2 c3,
    replay ["D"] init = Some c1 ∧ is_solved c1 = false ∧
    replay ["D"; "D"] init = Some c2 ∧ is_solved c2 = false ∧
    replay ["D"; "D"; "D"] init = Some c3 ∧ is_solved c3 = false.
Proof.
  apply (solved_cube_unsolved_by_turns "D" init).
  - apply wf_init.
  - reflexivity.
  - unfold moves. repeat constructor.
Defined.

(** ** Recording moves *)

(** X9. [apply_move] returns on every cube grid; the grid it produces
    does not depend on [track_history] nor on the history; and the history
    grows by exactly the token applied when the move is canonical and
    recorded, and stays as it is otherwise. *)
Theorem apply_move_records_canonical_moves (m : string) (th : bool)
    (c : RubiksCube) :
  wf c →
  ∃ c', exec (apply_move m th) c = Some c' ∧ wf c' ∧
        move_history c'
          = (if th && bool_decide (m ∈ moves) then move_history c ++ [m]
             else move_history c) ∧
        ∀ hist, exec (apply_move m false) (with_history hist c)
                = Some (with_history hist c').
Proof.
  intros Hwf.
  destruct (apply_move_total m th c Hwf) as (c' & Hc' & Hwf' & Hhist).
  exists c'. split; [done|]. split; [done|]. split; [done|].
  intros hist. rewrite apply_move_with_history by done.
  pose proof (history_irrelevant m th c) as Hfaces. rewrite Hc' in Hfaces.
  destruct (exec (apply_move m false) c) as [c0|]; [|done].
  simpl in *. injection Hfaces as Hfaces. unfold with_history. by rewrite Hfaces.
Qed.

Lemma apply_move_records_canonical_moves_witness :
  ∃ c', exec (apply_move "L" true) init = Some c' ∧ wf c' ∧
        move_history c'
          = (if true && bool_decide ("L" ∈ moves) then move_history init ++ ["L"]
             else move_history init) ∧
        ∀ hist, exec (apply_move "L" false) (with_history hist init)
                = Some (with_history hist c').
Proof. apply (apply_move_records_canonical_moves "L" true init), wf_init. Defined.

(** ** Reversing a token *)

Lemma endswith_prime_append (m : string) : endswith_prime (m +:+ "'") = true.
Proof.
  induction m as [|a m IH]; [done|].
  rewrite append_cons. simpl. rewrite IH. by destruct (m +:+ "'").
Qed.

Lemma drop_last_append (m : string) : drop_last (m +:+ "'") = m.
Proof.
  induction m as [|a m IH]; [done|].
  rewrite append_cons. simpl. rewrite IH.
  destruct m; done.
Qed.

Lemma endswith_prime_drop_last (m : string) :
  endswith_prime m = true → drop_last m +:+ "'" = m.
Proof.
  induction m as [|a m IH]; [done|].
  destruct m as [|b m].
  - simpl. by intros ->%bool_decide_eq_true_1.
  - intros H. change (String a (drop_last (String b m) +:+ "'") = String a (String b m)).
    by rewrite IH.
Qed.

Lemma string_length_append (s t : string) :
  String.length (s +:+ t) = String.length s + String.length t.
Proof.
  induction s as [|a s IH]; [done|]. rewrite append_cons. simpl. by rewrite IH.
Qed.

(** X10. [get_reverse_move] maps the twelve tokens to the twelve tokens,
    never to the token itself, and is its own inverse on them; on
    arbitrary strings it is its own inverse exactly when the string does
    not end in two primes. *)
Theorem get_reverse_move_involution :
  (∀ m, m ∈ moves →
     get_reverse_move m ∈ moves ∧ get_reverse_move m ≠ m ∧
     get_reverse_move (get_reverse_move m) = m) ∧
  (∀ m, get_reverse_move (get_reverse_move m) = m
        ↔ ¬ (endswith_prime m = true ∧ endswith_prime (drop_last m) = true)).
Proof.
  split.
  - intros m Hm. each_move Hm;
      (split; [unfold moves; solve [repeat constructor]|]; split; done).
  - intros m. unfold get_reverse_move.
    destruct (endswith_prime m) eqn:Hm.
    + destruct (endswith_prime (drop_last m)) eqn:Hd.
      * split; [|by intros []]. intros Heq [_ _].
        apply (f_equal String.length) in Heq.
        rewrite <-(endswith_prime_drop_last m Hm) in Heq at 2.
        rewrite <-(endswith_prime_drop_last (drop_last m) Hd) in Heq at 2.
        rewrite !string_length_append in Heq. simpl in Heq. lia.
      * split; [by intros _ [_ ?]|]. intros _.
        by apply endswith_prime_drop_last.
    + rewrite endswith_prime_append, drop_last_append.
      split; [by intros _ [? _]|done].
Qed.

Lemma get_reverse_move_involution_witness :
  (get_reverse_move "U'" ∈ moves ∧ get_reverse_move "U'" ≠ "U'" ∧
   get_reverse_move (get_reverse_move "U'") = "U'") ∧
  get_reverse_move (get_reverse_move "F''") ≠ "F''".
Proof.
  pose proof get_reverse_move_involution as [Hmoves Hiff]. split.
  - apply Hmoves. unfold moves. repeat constructor.
  - intros Heq. apply (Hiff "F''") in Heq. apply Heq. split; reflexivity.
Defined.

(** ** Recorded moves and the perfect solution *)

Lemma canonical_cons_in (m : string) (ms : list string) :
  m ∈ moves → canonical (m :: ms) = m :: canonical ms.
Proof. intros Hm. unfold canonical. by rewrite filter_cons_True. Qed.

Lemma canonical_cons_out (m : string) (ms : list string) :
  m ∉ moves → canonical (m :: ms) = canonical ms.
Proof. intros Hm. unfold canonical. by rewrite filter_cons_False. Qed.

Lemma canonical_moves (ms : list string) :
  Forall (λ m, m ∈ moves) (canonical ms).
Proof.
  induction ms as [|m ms IH]; [constructor|].
  destruct (decide (m ∈ moves)).
  - rewrite canonical_cons_in by done. by constructor.
  - by rewrite canonical_cons_out.
Qed.

Lemma canonical_id (ms : list string) :
  Forall (λ m, m ∈ moves) ms → canonical ms = ms.
Proof.
  induction 1 as [|m ms Hm _ IH]; [done|].
  by rewrite canonical_cons_in, IH.
Qed.

Lemma with_history_own (s : RubiksCube) : with_history (move_history s) s = s.
Proof. by destruct s. Qed.

Lemma with_history_twice (h1 h2 : list string) (s : RubiksCube) :
  with_history h1 (with_history h2 s) = with_history h1 s.
Proof. done. Qed.

(** The grid reached by a recorded move is the grid reached without
    recording it. *)
Lemma apply_move_untracked (m : string) (th : bool) (c c1 : RubiksCube) :
  wf c → exec (apply_move m th) c = Some c1 →
  exec (apply_move m false) c = Some (with_history (move_history c) c1).
Proof.
  intros Hwf Hc1.
  pose proof (history_irrelevant m th c) as Hfaces. rewrite Hc1 in Hfaces.
  destruct (apply_move_total m false c Hwf) as (c0 & Hc0 & _ & Hhist).
  rewrite Hc0 in Hfaces |- *. simpl in Hfaces, Hhist. injection Hfaces as Hfaces.
  destruct c0 as [fs0 h0]. simpl in *. subst. done.
Qed.

(** A recorded sequence: the history grows by its canonical tokens, and
    the grid is the one reached by replaying them. *)
Lemma apply_all_tracked (ms : list string) (c : RubiksCube) :
  wf c →
  ∃ s, exec (apply_all ms true) c = Some s ∧ wf s ∧
       move_history s = move_history c ++ canonical ms ∧
       replay (canonical ms) c = Some (with_history (move_history c) s).
Proof.
  revert c. induction ms as [|m ms IH]; intros c Hwf.
  - exists c. rewrite apply_all_nil. split; [done|]. split; [done|].
    split; [by rewrite app_nil_r|]. by rewrite with_history_own.
  - rewrite apply_all_cons. destruct (decide (m ∈ moves)) as [Hm|Hm].
    + destruct (apply_move_valid m true c Hwf Hm) as (c1 & Hc1 & Hwf1 & Hh1).
      destruct (IH c1 Hwf1) as (s & Hs & Hwfs & Hhs & Hreplay).
      exists s. rewrite Hc1. split; [done|]. split; [done|].
      rewrite canonical_cons_in by done. split.
      * rewrite Hhs, Hh1, <-app_assoc. done.
      * unfold replay. rewrite apply_all_cons.
        rewrite (apply_move_untracked m true c c1 Hwf Hc1). simpl.
        fold (replay (canonical ms) (with_history (move_history c) c1)).
        rewrite replay_with_history, Hreplay by done. done.
    + destruct (IH c Hwf) as (s & Hs & Hwfs & Hhs & Hreplay).
      assert (exec (apply_move m true) c = Some c) as ->
        by (unfold exec; by rewrite apply_move_invalid).
      exists s. by rewrite canonical_cons_out.
Qed.

(** Replaying the recorded canonical moves backwards, each reversed,
    brings back the grid from before the sequence. *)
Lemma recorded_moves_are_undone_by_replay (ms : list string) (c : RubiksCube) :
  wf c →
  ∃ s, exec (apply_all ms true) c = Some s ∧ wf s ∧
       move_history s = move_history c ++ canonical ms ∧
       replay (get_reverse_move <$> reverse (canonical ms)) s
         = Some (with_history (move_history s) c).
Proof.
  intros Hwf.
  destruct (apply_all_tracked ms c Hwf) as (s & Hs & Hwfs & Hhist & Hreplay).
  exists s. split; [done|]. split; [done|]. split; [done|].
  apply (replay_reversed_undoes _ _ _ Hwf (canonical_moves ms)) in Hreplay.
  rewrite <-(with_history_own s) at 1.
  rewrite <-(with_history_twice _ (move_history c)).
  rewrite replay_with_history by by apply wf_with_history.
  by rewrite Hreplay.
Qed.

(** X11. After any sequence of recorded moves on a cube grid, with tokens
    outside the twelve skipped, the history has grown by the canonical
    tokens applied, and replaying these backwards, each reversed, brings
    back the grid from before the sequence; when the history was empty
    before, that path is [get_perfect_solution]. *)
Theorem recorded_moves_are_undone_in_reverse (ms : list string)
    (c : RubiksCube) :
  wf c →
  ∃ s, exec (apply_all ms true) c = Some s ∧
       move_history s = move_history c ++ canonical ms ∧
       replay (get_reverse_move <$> reverse (canonical ms)) s
         = Some (with_history (move_history s) c) ∧
       (move_history c = [] →
          replay (get_perfect_solution s) s
            = Some (with_history (move_history s) c)).
Proof.
  intros Hwf.
  destruct (recorded_moves_are_undone_by_replay ms c Hwf)
    as (s & Hs & Hwfs & Hhist & Hback).
  exists s. split; [done|]. split; [done|]. split; [done|].
  intros Hempty. rewrite Hempty in Hhist. simpl in Hhist.
  rewrite <-Hhist in Hback. by rewrite get_perfect_solution_eq.
Qed.

Lemma recorded_moves_are_undone_in_reverse_witness :
  ∃ s, exec (apply_all ["R"; "x"; "U'"; "R"] true) init = Some s ∧
       move_history s = ["R"; "U'"; "R"] ∧
       replay ["R'"; "U"; "R'"] s = Some (with_history ["R"; "U'"; "R"] init).
Proof.
  destruct (recorded_moves_are_undone_in_reverse ["R"; "x"; "U'"; "R"] init
              wf_init) as (s & Hs & Hhist & Hback & _).
  exists s. split; [exact Hs|]. split; [exact Hhist|].
  rewrite Hhist in Hback. exact Hback.
Defined.

(** X12. On a cube that was solved and then turned by recorded moves
    only, [solve_cube] returns by its first method, whatever the external
    solver and the clock do: the empty path when the cube is solved again,
    and otherwise the recorded canonical moves backwards, each reversed,
    which is a path of as many moves as were recorded. *)
Theorem solve_cube_reverses_recorded_moves
    (KOCIEMBA_AVAILABLE : bool) (kociemba_solve : string → option string)
    (clock : nat → N → bool) (ms : list string) :
  ∃ s, exec (apply_all ms true) init = Some s ∧
       move_history s = canonical ms ∧
       solve_cube KOCIEMBA_AVAILABLE kociemba_solve clock s
         = Some (if is_solved s then []
                 else get_reverse_move <$> reverse (move_history s)).
Proof.
  destruct (apply_all_tracked ms init wf_init) as (s & Hs & Hwfs & Hhist & Hreplay).
  simpl in Hhist. exists s. split; [done|]. split; [done|].
  unfold solve_cube. destruct (is_solved s) eqn:Hsolved; [done|].
  assert (replay (get_perfect_solution s) s
          = Some (with_history (move_history s) init)) as Hback.
  { destruct (recorded_moves_are_undone_by_replay ms init wf_init)
      as (s' & Hs' & _ & _ & Hback).
    rewrite Hs in Hs'. injection Hs' as <-.
    rewrite <-Hhist in Hback. by rewrite get_perfect_solution_eq. }
  unfold method1. destruct (move_history s) as [|m0 h0] eqn:Hh.
  - rewrite <-Hhist in Hreplay.
    unfold replay in Hreplay. rewrite apply_all_nil in Hreplay.
    assert (init = with_history (move_history init) s) as Heq by congruence.
    change (is_solved s)
      with (is_solved (with_history (move_history init) s)) in Hsolved.
    rewrite <-Heq in Hsolved. done.
  - rewrite copy_id. unfold replay in Hback. rewrite Hback.
    change (is_solved (with_history (m0 :: h0) init)) with true.
    by rewrite get_perfect_solution_eq, Hh.
Qed.

(** ** Strings of moves *)

Lemma split_go_space (w : ascii) (a b cur : string) :
  isspace w = true →
  split_go cur (a +:+ String w b) = split_go cur a ++ split b.
Proof.
  intros Hw. revert cur. induction a as [|x a IH]; intros cur.
  - simpl. rewrite Hw. by destruct (decide (cur = "")).
  - rewrite append_cons. simpl. destruct (isspace x).
    + destruct (decide (cur = "")); rewrite IH; done.
    + apply IH.
Qed.

(** X13. [apply_moves] on two strings joined by a white-space character
    is [apply_moves] on the first and then on the second; on a string of
    white space only it does nothing. *)
Theorem apply_moves_joined (a b : string) (w : ascii) (th : bool)
    (c : RubiksCube) :
  isspace w = true →
  exec (apply_moves (a +:+ String w b) th) c
    = exec (apply_moves a th) c ≫= exec (apply_moves b th) ∧
  exec (apply_moves (String w "") th) c = Some c.
Proof.
  intros Hw. split.
  - unfold apply_moves, split. rewrite (split_go_space w a b "" Hw).
    apply apply_all_app.
  - unfold apply_moves, split. simpl. by rewrite Hw.
Qed.

Lemma apply_moves_joined_witness :
  exec (apply_moves ("F R'" +:+ String " " "U  x D") true) init
    = exec (apply_moves "F R'" true) init ≫= exec (apply_moves "U  x D" true) ∧
  exec (apply_moves (String " " "") true) init = Some init.
Proof. apply (apply_moves_joined "F R'" "U  x D" " " true init). reflexivity. Defined.

(** ** Scrambling *)

Lemma move_options_lookup (i : nat) :
  i < 12 → ∃ m, move_options !! i = Some m ∧ m ∈ moves.
Proof.
  intros Hi. do 12 (destruct i as [|i];
    [eexists; split; [reflexivity|unfold moves; solve [repeat constructor]]|]).
  lia.
Qed.

Lemma scramble_loop_spec (draws : list nat) (acc : list string) (c : RubiksCube) :
  wf c → Forall (λ i, i < 12) draws →
  ∃ new_moves s,
    scramble_loop draws acc c = Some (acc ++ new_moves, s) ∧
    length new_moves = length draws ∧
    Forall (λ m, m ∈ moves) new_moves ∧
    exec (apply_all new_moves true) c = Some s.
Proof.
  intros Hwf Hdraws. revert acc c Hwf.
  induction Hdraws as [|i draws Hi _ IH]; intros acc c Hwf.
  - exists [], c. rewrite app_nil_r. by repeat split.
  - destruct (move_options_lookup i Hi) as (m & Hm & Hcan).
    destruct (apply_move_valid m true c Hwf Hcan) as (c1 & Hc1 & Hwf1 & _).
    destruct (IH (acc ++ [m]) c1 Hwf1) as (new_moves & s & Hloop & Hlen & Hnew & Hs).
    exists (m :: new_moves), s. split; [|split; [|split]].
    + cbn [scramble_loop]. rewrite Hm. unfold mbind, M_bind. simpl.
      unfold exec in Hc1. destruct (apply_move m true c) as [[[] c1']|]; [|done].
      simpl in Hc1. injection Hc1 as ->.
      by rewrite Hloop, <-app_assoc.
    + simpl. by rewrite Hlen.
    + by constructor.
    + by rewrite apply_all_cons, Hc1.
Qed.

(** X14. [scramble] on a cube grid returns as many moves as it drew, all
    canonical; it adds them to the history that was there, in order; and
    replaying them backwards, each reversed, brings back the grid from
    before the scramble. *)
Theorem scramble_adds_to_history (draws : list nat) (c : RubiksCube) :
  wf c → Forall (λ i, i < 12) draws →
  ∃ new_moves s,
    scramble draws c = Some (new_moves, s) ∧ wf s ∧
    length new_moves = length draws ∧
    Forall (λ m, m ∈ moves) new_moves ∧
    move_history s = move_history c ++ new_moves ∧
    replay (get_reverse_move <$> reverse new_moves) s
      = Some (with_history (move_history s) c).
Proof.
  intros Hwf Hdraws.
  destruct (scramble_loop_spec draws [] c Hwf Hdraws)
    as (new_moves & s & Hloop & Hlen & Hnew & Hs).
  destruct (recorded_moves_are_undone_by_replay new_moves c Hwf)
    as (s' & Hs' & Hwfs & Hhist & Hback).
  rewrite Hs in Hs'. injection Hs' as <-.
  rewrite (canonical_id new_moves Hnew) in Hhist, Hback.
  exists new_moves, s. split; [exact Hloop|]. split; [done|].
  split; [done|]. split; [done|]. split; done.
Qed.

Lemma scramble_adds_to_history_witness :
  ∃ new_moves s,
    scramble [3; 0; 11] init = Some (new_moves, s) ∧ wf s ∧
    length new_moves = 3 ∧
    Forall (λ m, m ∈ moves) new_moves ∧
    move_history s = new_moves ∧
    replay (get_reverse_move <$> reverse new_moves) s
      = Some (with_history (move_history s) init).
Proof.
  apply (scramble_adds_to_history [3; 0; 11] init).
  - apply wf_init.
  - repeat (constructor; [lia|]). constructor.
Defined.

(** * Further properties of [CubeSolver] *)

(** ** The string handed to the external solver *)

Lemma foldl_letters_row (kociemba : string → ascii → string) (row : list color)
    (result : string) :
  (∀ result color, kociemba result color
                   = result +:+ String (face_letter color) "") →
  foldl kociemba result row
  = result +:+ string_of_list_ascii (face_letter <$> row).
Proof.
  intros Hk. revert result.
  induction row as [|color row IH]; intros result; simpl.
  - by rewrite append_empty_r.
  - by rewrite IH, Hk, <-append_assoc.
Qed.

Lemma foldl_letters_rows (kociemba : string → ascii → string)
    (g : list (list ascii)) (result : string) :
  (∀ result color, kociemba result color
                   = result +:+ String (face_letter color) "") →
  foldl (λ result row, foldl kociemba result row) result g
  = result +:+ string_of_list_ascii (face_letter <$> (row ← g; row)).
Proof.
  intros Hk. revert result. induction g as [|row g IH]; intros result; simpl.
  - by rewrite append_empty_r.
  - by rewrite IH, foldl_letters_row, fmap_app, string_of_list_ascii_app,
      append_assoc.
Qed.

Lemma foldl_letters_faces (kociemba : string → ascii → string)
    (d : FaceDict (list (list ascii))) (fs : list Face) (result : string) :
  (∀ result color, kociemba result color
                   = result +:+ String (face_letter color) "") →
  foldl (λ result face,
    foldl (λ result row, foldl kociemba result row) result (face_get d face))
    result fs
  = result +:+ string_of_list_ascii
                 (face_letter <$> (face ← fs; row ← face_get d face; row)).
Proof.
  intros Hk. revert result. induction fs as [|face fs IH]; intros result; simpl.
  - by rewrite append_empty_r.
  - by rewrite IH, foldl_letters_rows, fmap_app, string_of_list_ascii_app,
      append_assoc.
Qed.

(** The string for the external solver is the list of facelets, each
    replaced by its face letter. *)
Lemma get_kociemba_string_letters (c : RubiksCube) :
  get_kociemba_string true c
  = Some (string_of_list_ascii (face_letter <$> facelets c)).
Proof.
  unfold get_kociemba_string. simpl negb. cbv iota. f_equal.
  rewrite foldl_letters_faces; [done|].
  intros result color. unfold face_letter.
  repeat (case_decide; [done|]). done.
Qed.

Lemma get_kociemba_string_length (c : RubiksCube) :
  wf c →
  String.length (string_of_list_ascii (face_letter <$> facelets c)) = 54.
Proof.
  intros Hwf.
  by rewrite string_of_list_ascii_length, length_fmap, facelets_length.
Qed.

Lemma face_letter_inj (x y : color) :
  x ∈ six_colors → y ∈ six_colors → face_letter x = face_letter y → x = y.
Proof.
  unfold six_colors. rewrite !elem_of_cons, !elem_of_nil.
  intros Hx Hy.
  repeat (destruct Hx as [->|Hx]; [|]); [..|destruct Hx];
    (repeat (destruct Hy as [->|Hy]; [|]); [..|destruct Hy]);
    vm_compute; congruence.
Qed.

Lemma face_letters_inj (l k : list color) :
  Forall (λ x, x ∈ six_colors) l → Forall (λ x, x ∈ six_colors) k →
  face_letter <$> l = face_letter <$> k → l = k.
Proof.
  intros Hl. revert k. induction Hl as [|x l Hx _ IH]; intros k Hk Heq.
  - by destruct k.
  - destruct Hk as [|y k Hy Hk]; [done|]. simpl in Heq.
    injection Heq as Hxy Heq.
    by rewrite (face_letter_inj x y Hx Hy Hxy), (IH k Hk Heq).
Qed.

(** X15. With the external solver available, [get_kociemba_string] of a
    cube grid has exactly 54 characters, and the character at position
    [9k + 3r + j] is the face letter of the facelet in row [r], column [j]
    of the [k]-th face in the order Up, Right, Front, Down, Left, Back:
    U for W, R for R, F for G, D for Y, L for O, B for B, and U for any
    other character.  Without the external solver it is [None]. *)
Theorem get_kociemba_string_layout (c : RubiksCube) :
  wf c →
  (∃ str, get_kociemba_string true c = Some str ∧ String.length str = 54 ∧
     ∀ k face r j,
       [UP; RIGHT; FRONT; DOWN; LEFT; BACK] !! k = Some face → r < 3 → j < 3 →
       String.get (9 * k + 3 * r + j) str = face_letter <$> cell c face r j) ∧
  get_kociemba_string false c = None.
Proof.
  intros Hwf. split; [|done].
  eexists. split; [apply get_kociemba_string_letters|].
  split; [by apply get_kociemba_string_length|].
  intros k face r j Hk Hr Hj. expose_cube c Hwf.
  do 6 (destruct k as [|k]; [simplify_eq/=;
    (do 3 (destruct r as [|r]; [
       (do 3 (destruct j as [|j]; [reflexivity|])); lia|])); lia|]).
  done.
Qed.

Lemma get_kociemba_string_layout_witness :
  (∃ str, get_kociemba_string true init = Some str ∧ String.length str = 54 ∧
     ∀ k face r j,
       [UP; RIGHT; FRONT; DOWN; LEFT; BACK] !! k = Some face → r < 3 → j < 3 →
       String.get (9 * k + 3 * r + j) str
       = face_letter <$> cell init face r j) ∧
  get_kociemba_string false init = None.
Proof. apply (get_kociemba_string_layout init), wf_init. Defined.

(** X16. On cube grids that carry only the six colours,
    [get_kociemba_string] determines the grid.  It does not on all cube
    grids: a facelet of any other character is written as U, like a
    white one. *)
Theorem get_kociemba_string_injective_on_six_colors :
  (∀ c c', wf c → wf c' →
     Forall (λ x, x ∈ six_colors) (facelets c) →
     Forall (λ x, x ∈ six_colors) (facelets c') →
     get_kociemba_string true c = get_kociemba_string true c' →
     faces c = faces c') ∧
  (∃ c c', wf c ∧ wf c' ∧ faces c ≠ faces c' ∧
     get_kociemba_string true c = get_kociemba_string true c').
Proof.
  split.
  - intros c c' Hwf Hwf' Hc Hc'. rewrite !get_kociemba_string_letters.
    intros [= Heq%string_of_list_ascii_inj].
    apply facelets_inj; [done..|]. by apply face_letters_inj.
  - exists init,
      {| faces := face_set (faces init) UP
                    [["W"; "W"; "W"]; ["W"; "?"; "W"]; ["W"; "W"; "W"]]%char;
         move_history := [] |}.
    split; [apply wf_init|]. split; [wf_by_shape|]. split; [|reflexivity].
    intros Heq. apply (f_equal at_UP) in Heq. vm_compute in Heq.
    discriminate Heq.
Qed.

Lemma get_kociemba_string_injective_on_six_colors_witness :
  faces (turned ["F"; "B"; "F'"]) = faces (turned ["B"]).
Proof.
  pose proof get_kociemba_string_injective_on_six_colors as [Hinj _].
  apply Hinj.
  - apply (replay_wf ["F"; "B"; "F'"] init); [apply wf_init|].
    vm_compute. reflexivity.
  - apply (replay_wf ["B"] init); [apply wf_init|]. vm_compute. reflexivity.
  - apply (bool_decide_unpack _). vm_compute. exact I.
  - apply (bool_decide_unpack _). vm_compute. exact I.
  - vm_compute. reflexivity.
Defined.

(** ** The external adapter *)

Lemma validate_spec (todo valid_moves result : list string) :
  validate todo valid_moves = Some result
  ↔ result = valid_moves ++ todo ∧ Forall (λ m, m ∈ moves) todo.
Proof.
  revert valid_moves. induction todo as [|move todo IH]; intros valid_moves;
    cbn [validate].
  - rewrite app_nil_r. split; [by intros [= <-]|by intros [-> _]].
  - destruct (dict_get move_map move) as [x|] eqn:Hmove.
    + assert (move ∈ moves) by (apply dict_get_move_map; by eexists).
      rewrite IH, <-app_assoc. simpl. rewrite Forall_cons. tauto.
    + apply dict_get_move_map_None in Hmove.
      rewrite Forall_cons. split; [done|tauto].
Qed.

(** X17. What [solve_kociemba] accepts on a cube grid: it returns a list
    exactly when the external solver is available and returns a string
    for the 54 face letters of the cube, and either that string is empty
    and the list is empty, or the string is not all white space, every
    token of it is one of the twelve moves, and the list is all its
    tokens in order.  The length test on the face letters never fires. *)
Theorem solve_kociemba_accepts (KOCIEMBA_AVAILABLE : bool)
    (kociemba_solve : string → option string) (c : RubiksCube)
    (sol : list string) :
  wf c →
  solve_kociemba KOCIEMBA_AVAILABLE kociemba_solve c = Some sol
  ↔ KOCIEMBA_AVAILABLE = true ∧
    ∃ cube_string response,
      get_kociemba_string true c = Some cube_string ∧
      kociemba_solve cube_string = Some response ∧
      ((response = "" ∧ sol = []) ∨
       (strip response ≠ "" ∧ sol = split (strip response) ∧
        Forall (λ m, m ∈ moves) sol)).
Proof.
  intros Hwf. unfold solve_kociemba.
  destruct KOCIEMBA_AVAILABLE; simpl negb; cbv iota;
    [|split; [done|by intros [? _]]].
  rewrite get_kociemba_string_letters.
  pose proof (get_kociemba_string_length c Hwf) as Hlen.
  set (cube_string := string_of_list_ascii (face_letter <$> facelets c)) in *.
  destruct (decide (cube_string = "")) as [Hempty|_];
    [by rewrite Hempty in Hlen|].
  destruct (decide (String.length cube_string ≠ 54)) as [|_]; [done|].
  split.
  - intros Hsol. split; [done|]. exists cube_string.
    destruct (kociemba_solve cube_string) as [response|]; [|done].
    exists response. split; [done|]. split; [done|].
    destruct (decide (response = "")) as [->|Hne]; [left; by simplify_eq|].
    destruct (decide (strip response ≠ "")) as [Hstrip|]; [|done].
    right. apply validate_spec in Hsol as [-> Hall]. done.
  - intros (_ & cube_string' & response & [= <-] & -> & Hcases).
    destruct Hcases as [[-> ->]|(Hstrip & -> & Hall)]; [done|].
    destruct (decide (response = "")) as [->|Hne]; [done|].
    destruct (decide (strip response ≠ "")) as [_|]; [|done].
    by apply validate_spec.
Qed.

Lemma solve_kociemba_accepts_witness :
  solve_kociemba true (λ _, Some " R U'  F ") init = Some ["R"; "U'"; "F"].
Proof.
  apply (solve_kociemba_accepts true (λ _, Some " R U'  F ") init);
    [apply wf_init|].
  split; [reflexivity|]. eexists. eexists.
  split; [reflexivity|]. split; [reflexivity|]. right.
  split; [by vm_compute|]. split; [vm_compute; reflexivity|].
  apply (bool_decide_unpack _). vm_compute. exact I.
Defined.

(** ** The search *)

(** Every path in the queue consists of canonical moves, and so does the
    path returned, which is never empty. *)
Lemma bfs_loop_canonical (d : nat) (t : N → bool) (fuel : nat)
    (queue : list node) (v : list string) (n : N) (sol : list string) :
  (∀ s p, (s, p) ∈ queue → Forall (λ m, m ∈ moves) p) →
  bfs_loop fuel d t queue v n = Some (Some sol) →
  Forall (λ m, m ∈ moves) sol ∧ sol ≠ [].
Proof.
  revert queue v n. induction fuel as [|fuel IH]; intros queue v n Hq; [done|].
  rewrite bfs_loop_S. destruct queue as [|[s p] queue]; [done|].
  destruct (t n); [done|]. destruct (max_nodes <? n)%N; [done|].
  assert (∀ s' p', (s', p') ∈ queue → Forall (λ m, m ∈ moves) p') as Hq'.
  { intros s' p' Hin. apply (Hq s'). by right. }
  case_decide; [by apply IH|].
  destruct (try_moves s p moves queue v) as [sol'|[queue' v']] eqn:Htry.
  - intros [= <-].
    apply try_moves_inl in Htry as (m & s' & Hm & -> & _). split.
    + apply Forall_app. split; [apply (Hq s); left|by constructor].
    + by destruct p.
  - apply IH.
    apply try_moves_inr in Htry as (new & -> & Hnew & _).
    intros s' p' [Hin|Hin]%elem_of_app; [by apply (Hq' s')|].
    destruct (Hnew s' p' Hin) as (m & Hm & _ & ->).
    apply Forall_app. split; [apply (Hq s); left|by constructor].
Qed.

(** When the time limit has passed at the first test, the search of an
    unsolved cube finds nothing. *)
Lemma solve_bfs_timeout (c : RubiksCube) (d : nat) (t : N → bool) :
  is_solved c = false → t 0%N = true → solve_bfs c d t = None.
Proof.
  intros Hc Ht. unfold solve_bfs, bfs_fuel. rewrite Hc.
  change (N.to_nat (max_nodes + 2)) with (S (S (N.to_nat max_nodes))).
  by rewrite bfs_loop_S, Ht.
Qed.

(** X18. [solve_bfs] returns the empty path exactly on a solved cube; a
    path it finds by searching is not empty and consists of canonical
    moves only; and on an unsolved cube it finds nothing with depth limit
    0, and nothing when the time limit has passed at its first test. *)
Theorem solve_bfs_paths (c : RubiksCube) (d : nat) (t : N → bool) :
  (solve_bfs c d t = Some [] ↔ is_solved c = true) ∧
  (∀ sol, solve_bfs c d t = Some sol → Forall (λ m, m ∈ moves) sol) ∧
  (is_solved c = false → solve_bfs c 0 t = None) ∧
  (is_solved c = false → t 0%N = true → solve_bfs c d t = None).
Proof.
  assert (∀ sol, is_solved c = false → solve_bfs c d t = Some sol →
                 Forall (λ m, m ∈ moves) sol ∧ sol ≠ []) as Hsearch.
  { intros sol Hc. unfold solve_bfs. rewrite Hc.
    destruct (bfs_loop _ _ _ _ _ _) as [r|] eqn:Hloop; [|done]. intros ->.
    apply bfs_loop_canonical in Hloop; [done|].
    by intros s p [= -> ->]%list_elem_of_singleton. }
  split; [|split; [|split; [|apply solve_bfs_timeout]]].
  - split.
    + intros Hsol. destruct (is_solved c) eqn:Hc; [done|].
      by destruct (Hsearch [] eq_refl Hsol).
    + intros Hc. unfold solve_bfs. by rewrite Hc.
  - intros sol Hsol. destruct (is_solved c) eqn:Hc.
    + unfold solve_bfs in Hsol. rewrite Hc in Hsol. by simplify_eq.
    + by apply Hsearch.
  - intros Hc. unfold solve_bfs, bfs_fuel. rewrite Hc.
    change (N.to_nat (max_nodes + 2)) with (S (S (N.to_nat max_nodes))).
    rewrite bfs_loop_S. destruct (t 0%N); [done|].
    change (max_nodes <? 0)%N with false. cbv iota.
    rewrite decide_True by (simpl; lia).
    by rewrite bfs_loop_S.
Qed.

Lemma solve_bfs_paths_witness :
  solve_bfs (turned ["U"]) 0 (λ _, false) = None ∧
  Forall (λ m, m ∈ moves) ["U'"] ∧
  solve_bfs (turned ["U"]) 5 (λ _, true) = None.
Proof.
  split; [|split].
  - apply (proj1 (proj2 (proj2
      (solve_bfs_paths (turned ["U"]) 0 (λ _, false))))). reflexivity.
  - apply (proj1 (proj2 (solve_bfs_paths (turned ["U"]) 1 (λ _, false)))).
    vm_compute. reflexivity.
  - apply (proj2 (proj2 (proj2
      (solve_bfs_paths (turned ["U"]) 5 (λ _, true))))); reflexivity.
Defined.

(** ** The orchestrator *)

Lemma search_depths_from (clock : nat → N → bool) (c : RubiksCube)
    (depths : list nat) (m : string) (rest : list string) :
  search_depths clock c depths = m :: rest →
  ∃ d, d ∈ depths ∧ solve_bfs c d (clock d) = Some (m :: rest).
Proof.
  induction depths as [|d depths IH]; simpl; [done|].
  destruct (solve_bfs c d (clock d)) as [[|m' rest']|] eqn:Hbfs.
  - intros (d' & ? & ?)%IH. exists d'. split; [by right|done].
  - intros [= -> ->]. exists d. split; [by left|done].
  - intros (d' & ? & ?)%IH. exists d'. split; [by right|done].
Qed.

Lemma get_reverse_move_moves (m : string) :
  m ∈ moves → get_reverse_move m ∈ moves.
Proof. intros Hm. each_move Hm; unfold moves; solve [repeat constructor]. Qed.



(** X20. [solve_cube] only ever returns canonical move tokens, whichever
    method produced the path, when the history of the cube holds
    canonical tokens only (as every history written by [apply_move]
    does). *)
Theorem solve_cube_returns_canonical_tokens
    (KOCIEMBA_AVAILABLE : bool) (kociemba_solve : string → option string)
    (clock : nat → N → bool) (c : RubiksCube) (sol : list string) :
  Forall (λ m, m ∈ moves) (move_history c) →
  solve_cube KOCIEMBA_AVAILABLE kociemba_solve clock c = Some sol →
  Forall (λ m, m ∈ moves) sol.
Proof.
  intros Hhist. unfold solve_cube.
  destruct (is_solved c); [by intros [= <-]|].
  destruct (method1 c) as [[perfect_solution|]|] eqn:H1; [| |done].
  { intros [= <-]. unfold method1 in H1.
    destruct (move_history c) as [|m0 h0] eqn:Hh; [done|].
    destruct (exec _ _) as [test_cube|]; [|done].
    destruct (is_solved test_cube); [|done].
    injection H1 as <-. rewrite get_perfect_solution_eq, Hh.
    apply Forall_fmap, Forall_reverse.
    eapply Forall_impl; [exact Hhist|]. apply get_reverse_move_moves. }
  destruct (method2 _ _ c) as [kociemba_solution|] eqn:H2.
  { intros [= <-]. unfold method2 in H2.
    destruct KOCIEMBA_AVAILABLE; [|done].
    destruct (solve_kociemba true kociemba_solve c) as [[|m rest]|] eqn:Hk;
      [done| |done].
    destruct (exec _ _) as [test_cube|]; [|done].
    destruct (is_solved test_cube); [|done].
    injection H2 as <-. revert Hk. unfold solve_kociemba. simpl negb. cbv iota.
    destruct (get_kociemba_string true c) as [cube_string|]; [|done].
    repeat (case_decide; [done|]).
    destruct (kociemba_solve cube_string) as [response|]; [|done].
    repeat (case_decide; [done|]).
    case_decide; [|done].
    by intros [-> ?]%validate_spec. }
  intros [= <-]. unfold method3.
  destruct (search_depths clock c (seq 1 (max_search_depth c)))
    as [|m rest] eqn:Hsearch; [constructor|].
  apply search_depths_from in Hsearch as (d & _ & Hbfs).
  revert Hbfs. unfold solve_bfs. destruct (is_solved c); [done|].
  destruct (bfs_loop _ _ _ _ _ _) as [r|] eqn:Hloop; [|done]. intros ->.
  apply bfs_loop_canonical in Hloop; [by destruct Hloop|].
  by intros s p [= -> ->]%list_elem_of_singleton.
Qed.

Lemma solve_cube_returns_canonical_tokens_witness :
  Forall (λ m, m ∈ moves) ["D"; "L'"].
Proof.
  apply (solve_cube_returns_canonical_tokens false (λ _, None) (λ _ _, false)
           (turned ["L"; "D'"]) ["D"; "L'"]).
  - constructor.
  - vm_compute. reflexivity.
Defined.

Lemma search_depths_nothing (clock : nat → N → bool) (c : RubiksCube)
    (depths : list nat) :
  (∀ d, d ∈ depths → solve_bfs c d (clock d) = None) →
  search_depths clock c depths = [].
Proof.
  induction depths as [|d depths IH]; intros Hnone; [done|]. simpl.
  rewrite (Hnone d) by left. apply IH. intros d' Hd'. apply Hnone. by right.
Qed.

(** X21. Failure is reported as the empty path, like "already solved":
    on an unsolved cube without history, with the external solver
    unavailable and every search cut off by the time limit at its first
    test, [solve_cube] returns the empty list. *)
Theorem solve_cube_gives_up_with_empty_path
    (kociemba_solve : string → option string) (clock : nat → N → bool)
    (c : RubiksCube) :
  is_solved c = false → move_history c = [] →
  (∀ d, clock d 0%N = true) →
  solve_cube false kociemba_solve clock c = Some [].
Proof.
  intros Hc Hhist Hclock.
  unfold solve_cube, method1, method2, method3. rewrite Hc, Hhist.
  rewrite search_depths_nothing; [done|].
  intros d _. by apply solve_bfs_timeout.
Qed.

Lemma solve_cube_gives_up_with_empty_path_witness :
  solve_cube false (λ _, None) (λ _ _, true) (turned ["F"; "U"]) = Some [].
Proof.
  apply (solve_cube_gives_up_with_empty_path (λ _, None) (λ _ _, true)
           (turned ["F"; "U"])); reflexivity.
Defined.

(** * Further properties of the store model: [copy] is a deep copy *)

Module StoreCopy.
Import Store.

Lemma face_get_face_set {A : Type} (d : FaceDict A) (f f' : Face) (x : A) :
  face_get (face_set d f x) f' = if decide (f' = f) then x else face_get d f'.
Proof. by destruct f, f'. Qed.

Lemma rows_hold_prefix (h h' : heap) (rs : list nat) (vals : list (list ascii)) :
  rows h `prefix_of` rows h' → rows_hold h rs vals → rows_hold h' rs vals.
Proof.
  intros Hpre Hrs. eapply Forall2_impl; [exact Hrs|].
  intros r row Hr. by apply (prefix_lookup_Some (rows h)).
Qed.

Lemma rows_hold_seq (pre vals suf : list (list ascii)) (cs : list CubeObj) :
  rows_hold (mkHeap (pre ++ vals ++ suf) cs) (seq (length pre) (length vals)) vals.
Proof.
  unfold rows_hold. simpl. revert pre.
  induction vals as [|v vals IH]; intros pre; simpl; [constructor|].
  constructor.
  - by rewrite list_lookup_middle.
  - specialize (IH (pre ++ [v])).
    rewrite length_app, Nat.add_1_r, <-app_assoc in IH. exact IH.
Qed.

Lemma rows_hold_mapM (h : heap) (rs : list nat) (vals : list (list ascii)) :
  rows_hold h rs vals ↔ mapM (λ r, rows h !! r) rs = Some vals.
Proof. unfold rows_hold. by rewrite mapM_Some. Qed.

Lemma elem_of_all_faces (f : Face) : f ∈ all_faces.
Proof. destruct f; unfold all_faces; solve [repeat constructor]. Qed.

(** The list comprehension [[row.copy() for row in rows]]: the copies
    are appended to the store in order. *)
Lemma map_each_copy_rows (rs : list nat) (vals : list (list ascii)) (h : heap) :
  rows_hold h rs vals →
  map_each rs (λ r, row ← load_row r; alloc_row row) h
  = (Some (seq (length (rows h)) (length rs)),
     mkHeap (rows h ++ vals) (cubes h)).
Proof.
  intros Hrs. revert h Hrs. revert vals.
  induction rs as [|r rs IH]; intros vals h Hrs.
  - apply Forall2_nil_inv_l in Hrs as ->. simpl.
    rewrite app_nil_r. by destruct h.
  - apply Forall2_cons_inv_l in Hrs as (v & vals' & Hr & Hrs & ->).
    cbn [map_each]. unfold mbind at 1, H_bind at 1.
    unfold mbind at 1, H_bind at 1, load_row, alloc_row. rewrite Hr.
    unfold mret at 1, H_ret at 1. cbv beta iota.
    unfold mbind, H_bind.
    rewrite (IH vals').
    + simpl. rewrite length_app, Nat.add_1_r, <-app_assoc. done.
    + apply (rows_hold_prefix h); [|done]. simpl. by apply prefix_app_r.
Qed.

Lemma uniform_spec (c : ascii) (h : heap) :
  uniform c h
  = (Some (seq (length (rows h)) 3),
     mkHeap (rows h ++ replicate 3 (replicate 3 c)) (cubes h)).
Proof.
  unfold uniform, range3. simpl. unfold mbind, H_bind, alloc_row. simpl.
  rewrite !length_app, <-!app_assoc. simpl. rewrite !Nat.add_1_r. done.
Qed.

(** [RubiksCube()] allocates eighteen rows and one cube object. *)
Lemma init_spec (h : heap) :
  ∃ extra nc,
    init h = (Some (length (cubes h)),
              mkHeap (rows h ++ extra) (cubes h ++ [nc])) ∧
    move_history nc = [].
Proof.
  unfold init. unfold mbind, H_bind.
  rewrite uniform_spec. cbv beta iota.
  repeat (rewrite uniform_spec; cbv beta iota; cbn [rows cubes]).
  unfold alloc_cube. cbn [rows cubes].
  rewrite <-!app_assoc. eexists. eexists. split; reflexivity.
Qed.

Section Copy.
Variables (h : heap) (self : nat) (me : CubeObj).
Variable g : FaceDict (list (list ascii)).
Hypothesis Hme : cubes h !! self = Some me.
Hypothesis Hgrid : ∀ f, rows_hold h (face_get (faces me) f) (face_get g f).

Local Abbreviation copying := (Store.copying h).
Local Abbreviation copy_face := (Store.copy_face self (length (cubes h))).

Lemma copying_self (hc : heap) (nc : CubeObj) :
  copying hc nc →
  cubes hc !! self = Some me ∧ cubes hc !! length (cubes h) = Some nc ∧
  length (cubes h) < length (cubes hc).
Proof.
  intros [_ ->]. split; [|split].
  - by apply lookup_app_l_Some.
  - by rewrite list_lookup_middle.
  - rewrite length_app. simpl. lia.
Qed.

Lemma copy_face_spec (face : Face) (hc : heap) (nc : CubeObj) :
  copying hc nc →
  copy_face face hc
  = (Some (),
     mkHeap (rows hc ++ face_get g face)
       (cubes h ++
          [ {| faces := face_set (faces nc) face
                          (seq (length (rows hc))
                               (length (face_get (faces me) face)));
               move_history := move_history nc |} ])).
Proof.
  intros Hc. destruct (copying_self hc nc Hc) as (Hself & Hnew & Hlt).
  destruct Hc as [Hpre Hcubes].
  unfold Store.copy_face. unfold mbind at 1, H_bind at 1, load_cube at 1.
  rewrite Hself. unfold mbind at 1, H_bind at 1.
  rewrite (map_each_copy_rows _ (face_get g face))
    by (by apply (rows_hold_prefix h)).
  unfold mbind, H_bind, load_cube, store_cube. cbn [rows cubes].
  rewrite Hnew. rewrite decide_True by done.
  rewrite Hcubes.
  rewrite insert_app_r_alt by lia. rewrite Nat.sub_diag. done.
Qed.

(** The loop over the faces: each face in [fs] ends up with fresh rows
    that hold the rows of the original; the other faces of the new cube
    are as before. *)
Lemma copy_faces_spec (fs : list Face) (hc : heap) (nc : CubeObj) :
  copying hc nc →
  ∃ hf ncf,
    for_each fs copy_face hc = (Some (), hf) ∧
    copying hf ncf ∧ rows hc `prefix_of` rows hf ∧
    move_history ncf = move_history nc ∧
    (∀ f, f ∈ fs →
       rows_hold hf (face_get (faces ncf) f) (face_get g f) ∧
       Forall (λ r, length (rows h) ≤ r) (face_get (faces ncf) f)) ∧
    (∀ f, f ∉ fs → face_get (faces ncf) f = face_get (faces nc) f).
Proof.
  revert hc nc. induction fs as [|f0 fs IH]; intros hc nc Hc.
  - exists hc, nc. split; [done|]. split; [done|]. split; [done|].
    split; [done|]. split; [by intros f ?%elem_of_nil|done].
  - pose proof (copy_face_spec f0 hc nc Hc) as Hstep.
    set (nc1 := {| faces := face_set (faces nc) f0
                              (seq (length (rows hc))
                                   (length (face_get (faces me) f0)));
                   move_history := move_history nc |}) in *.
    set (h1 := mkHeap (rows hc ++ face_get g f0) (cubes h ++ [nc1])) in *.
    assert (copying h1 nc1) as Hc1.
    { split; [|done]. destruct Hc as [Hpre _].
      etrans; [exact Hpre|]. by apply prefix_app_r. }
    destruct (IH h1 nc1 Hc1) as (hf & ncf & Hloop & Hcf & Hpre1 & Hhist & Hin & Hout).
    exists hf, ncf. split; [|split; [done|split; [|split; [done|split]]]].
    + cbn [for_each]. unfold mbind, H_bind. by rewrite Hstep.
    + etrans; [|exact Hpre1]. by apply prefix_app_r.
    + intros f Hf. destruct (decide (f ∈ fs)) as [Hfs|Hfs]; [by apply Hin|].
      assert (f = f0) as -> by (apply elem_of_cons in Hf as [|]; done).
      rewrite (Hout f0 Hfs). simpl. rewrite face_get_face_set, decide_True by done.
      pose proof (Forall2_length _ _ _ (Hgrid f0)) as Hlen. rewrite Hlen.
      split.
      * apply (rows_hold_prefix h1); [done|].
        pose proof (rows_hold_seq (rows hc) (face_get g f0) [] (cubes h1)) as Hs.
        by rewrite app_nil_r in Hs.
      * apply Forall_forall. intros r [Hr _]%elem_of_seq.
        destruct Hc as [Hpre _]. apply prefix_length in Hpre. lia.
    + intros f Hf. apply not_elem_of_cons in Hf as [Hne Hfs].
      rewrite (Hout f Hfs). simpl. by rewrite face_get_face_set, decide_False.
Qed.

(** What [copy] does to the store. *)
Lemma copy_spec :
  ∃ extra nc,
    copy self h = (Some (length (cubes h)),
                   mkHeap (rows h ++ extra) (cubes h ++ [nc])) ∧
    move_history nc = move_history me ∧
    fresh_obj (length (rows h)) nc ∧
    ∀ f, rows_hold (mkHeap (rows h ++ extra) (cubes h ++ [nc]))
           (face_get (faces nc) f) (face_get g f).
Proof.
  destruct (init_spec h) as (extra0 & nc0 & Hinit & Hhist0).
  set (h0 := mkHeap (rows h ++ extra0) (cubes h ++ [nc0])) in *.
  assert (copying h0 nc0) as Hc0 by (split; [by apply prefix_app_r|done]).
  destruct (copy_faces_spec all_faces h0 nc0 Hc0)
    as (hf & ncf & Hloop & Hcf & Hpre & Hhist & Hin & _).
  destruct (copying_self hf ncf Hcf) as (Hself & Hnew & Hlt).
  destruct Hcf as [[extra Hrows] Hcubes].
  exists extra, {| faces := faces ncf; move_history := move_history me |}.
  split; [|split; [done|split]].
  - unfold copy. unfold mbind at 1, H_bind at 1. rewrite Hinit.
    unfold mbind at 1, H_bind at 1.
    change (for_each all_faces _ h0) with (for_each all_faces copy_face h0).
    rewrite Hloop.
    unfold mbind, H_bind, load_cube, store_cube. rewrite Hself, Hnew.
    rewrite decide_True by done. simpl. rewrite Hcubes, Hrows.
    rewrite insert_app_r_alt by lia. rewrite Nat.sub_diag. done.
  - intros f r Hr. simpl in Hr.
    pose proof (elem_of_all_faces f) as Hf.
    destruct (Hin f Hf) as [_ Hfresh].
    rewrite Forall_forall in Hfresh. by apply Hfresh.
  - intros f. simpl.
    pose proof (elem_of_all_faces f) as Hf.
    destruct (Hin f Hf) as [Hhold _].
    unfold rows_hold in *. simpl. by rewrite <-Hrows.
Qed.
End Copy.

Lemma grid_of_rows_hold (h : heap) (self : nat) (me : CubeObj)
    (g : FaceDict (list (list ascii))) :
  cubes h !! self = Some me →
  grid_of h self = Some g
  ↔ ∀ f, rows_hold h (face_get (faces me) f) (face_get g f).
Proof.
  intros Hme. unfold grid_of. rewrite Hme. simpl. split.
  - intros Hg f.
    destruct (mapM _ (at_FRONT (faces me))) as [front|] eqn:HF; [|done].
    destruct (mapM _ (at_BACK (faces me))) as [back|] eqn:HB; [|done].
    destruct (mapM _ (at_LEFT (faces me))) as [left|] eqn:HL; [|done].
    destruct (mapM _ (at_RIGHT (faces me))) as [right|] eqn:HR; [|done].
    destruct (mapM _ (at_UP (faces me))) as [up|] eqn:HU; [|done].
    destruct (mapM _ (at_DOWN (faces me))) as [down|] eqn:HD; [|done].
    simpl in Hg. injection Hg as <-.
    destruct f; by apply rows_hold_mapM.
  - intros Hg.
    pose proof (λ f, proj1 (rows_hold_mapM _ _ _) (Hg f)) as Hm.
    pose proof (Hm FRONT) as HF. pose proof (Hm BACK) as HB.
    pose proof (Hm LEFT) as HL. pose proof (Hm RIGHT) as HR.
    pose proof (Hm UP) as HU. pose proof (Hm DOWN) as HD.
    cbn [face_get] in HF, HB, HL, HR, HU, HD.
    rewrite HF, HB, HL, HR, HU, HD. simpl. by destruct g.
Qed.

(** X22. [copy] of a cube whose rows are all in the store returns a new
    cube object: it has the same facelet grid and the same history as the
    original, every one of its rows is a new list (so it shares no row
    with any cube that existed), and everything that existed before is
    left as it was. *)
Theorem copy_is_deep (h : heap) (self : nat) (me : CubeObj)
    (g : FaceDict (list (list ascii))) :
  cubes h !! self = Some me → grid_of h self = Some g →
  let h' := (copy self h).2 in
  (copy self h).1 = Some (length (cubes h)) ∧
  rows h `prefix_of` rows h' ∧ cubes h `prefix_of` cubes h' ∧
  grid_of h' self = Some g ∧
  grid_of h' (length (cubes h)) = Some g ∧
  ∃ nc, cubes h' !! length (cubes h) = Some nc ∧
        move_history nc = move_history me ∧
        fresh_obj (length (rows h)) nc.
Proof.
  intros Hme Hg. pose proof Hg as Hhold.
  rewrite (grid_of_rows_hold h self me g Hme) in Hhold.
  destruct (copy_spec h self me g Hme Hhold)
    as (extra & nc & Hcopy & Hhist & Hfresh & Hnew).
  rewrite Hcopy. cbn [fst snd].
  assert (rows h `prefix_of` rows h ++ extra) as Hrows by by apply prefix_app_r.
  assert (cubes h `prefix_of` cubes h ++ [nc]) as Hcubes by by apply prefix_app_r.
  assert ((cubes h ++ [nc]) !! length (cubes h) = Some nc) as Hlook
    by by rewrite list_lookup_middle.
  split; [done|]. split; [done|]. split; [done|]. split; [|split].
  - by apply (StoreFacts.grid_of_prefix h).
  - by apply (grid_of_rows_hold _ _ nc).
  - exists nc. split; [exact Hlook|]. split; [exact Hhist|exact Hfresh].
Qed.

Lemma copy_is_deep_witness :
  ∃ g, grid_of (copy 0 solved_store).2 0 = Some g ∧
       grid_of (copy 0 solved_store).2 1 = Some g ∧
       (copy 0 solved_store).1 = Some 1.
Proof.
  eexists.
  destruct (copy_is_deep solved_store 0 _ _ eq_refl eq_refl)
    as (Hres & _ & _ & Hold & Hnew & _).
  split; [exact Hold|]. split; [exact Hnew|exact Hres].
Defined.

(** X23. A cube and its copy are independent: whatever move is applied to
    the copy, recorded or not, the original keeps its grid and its
    history. *)
Theorem copy_is_independent (h : heap) (self : nat) (me : CubeObj)
    (g : FaceDict (list (list ascii))) (move : string) (track_history : bool) :
  cubes h !! self = Some me → grid_of h self = Some g →
  ∃ new_cube h',
    copy self h = (Some new_cube, h') ∧
    let h'' := (apply_move new_cube move track_history h').2 in
    cubes h'' !! self = Some me ∧ grid_of h'' self = Some g.
Proof.
  intros Hme Hg. pose proof Hg as Hhold.
  rewrite (grid_of_rows_hold h self me g Hme) in Hhold.
  destruct (copy_spec h self me g Hme Hhold)
    as (extra & nc & Hcopy & Hhist & Hfresh & Hnew).
  eexists. eexists. split; [exact Hcopy|].
  set (h' := mkHeap (rows h ++ extra) (cubes h ++ [nc])).
  intros h''.
  assert (fresh_ok (length (cubes h)) (length (rows h)) h') as Hok.
  { split; [|split].
    - simpl. rewrite length_app. lia.
    - simpl. rewrite length_app. lia.
    - intros id c Hid Hc. simpl in Hc.
      apply lookup_app_Some in Hc as [Hc|[_ Hc]].
      + apply lookup_lt_Some in Hc. lia.
      + apply list_lookup_singleton_Some in Hc as [_ <-]. done. }
  destruct (StoreFacts.safe_apply_move (length (cubes h)) (length (rows h))
              (length (cubes h)) (le_n _) move track_history h' Hok)
    as (_ & (Hrows & Hcubes & _ & _) & _).
  fold h'' in Hrows, Hcubes. simpl in Hrows, Hcubes.
  rewrite take_app_length in Hrows. rewrite take_app_length in Hcubes.
  assert (rows h `prefix_of` rows h'') by (rewrite <-Hrows; apply prefix_take).
  assert (cubes h `prefix_of` cubes h'') by (rewrite <-Hcubes; apply prefix_take).
  split.
  - by apply (prefix_lookup_Some (cubes h)).
  - by apply (StoreFacts.grid_of_prefix h).
Qed.

Lemma copy_is_independent_witness :
  ∃ new_cube h' g,
    copy 0 solved_store = (Some new_cube, h') ∧
    grid_of solved_store 0 = Some g ∧
    grid_of (apply_move new_cube "R" true h').2 0 = Some g.
Proof.
  destruct (copy_is_independent solved_store 0 _ _ "R" true eq_refl eq_refl)
    as (new_cube & h' & Hcopy & _ & Hgrid).
  exists new_cube, h'. eexists.
  split; [exact Hcopy|]. split; [reflexivity|exact Hgrid].
Defined.
End StoreCopy.

(** ** The search is complete within the node budget *)

Lemma subtree_pos (r : nat) : 1 ≤ subtree r.
Proof. destruct r; simpl; lia. Qed.

Lemma subtree_within_budget (d : nat) :
  d ≤ 4 → (N.of_nat (subtree d) ≤ max_nodes)%N.
Proof.
  intros Hd. do 5 (destruct d as [|d]; [by vm_compute|]). lia.
Qed.

Lemma pending_app (d : nat) (queue queue' : list node) :
  pending d (queue ++ queue') = pending d queue + pending d queue'.
Proof.
  induction queue as [|[s p] queue IH]; simpl; [done|]. rewrite IH. lia.
Qed.

(** One expansion queues at most one node for each move tried, one level
    down. *)
Lemma try_moves_pending (d : nat) (s : RubiksCube) (p todo : list string)
    (queue queue' : list node) (v v' : list string) :
  try_moves s p todo queue v = inr (queue', v') →
  pending d queue'
  ≤ pending d queue + length todo * subtree (d - S (length p)).
Proof.
  revert queue v. induction todo as [|m todo IH]; intros queue v.
  - intros [= <- <-]. simpl. lia.
  - rewrite try_moves_cons.
    destruct (exec (apply_move m false) (copy s)) as [s1|].
    + destruct (is_solved s1); [done|].
      case_decide.
      * intros Hrest%IH. simpl. lia.
      * intros Hrest%IH. rewrite pending_app in Hrest. simpl in Hrest.
        rewrite length_app, Nat.add_1_r in Hrest. simpl. lia.
    + intros Hrest%IH. simpl. lia.
Qed.

Section SearchComplete.
Variables (c : RubiksCube) (d : nat) (t : N → bool).
Hypothesis Hwf : wf c.
Hypothesis Hunsolved : is_solved c = false.
Hypothesis Hclock : ∀ n, t n = false.
Hypothesis Hbudget : (N.of_nat (subtree d) ≤ max_nodes)%N.

(** When the queue is empty, every state within [d] canonical moves of
    [c] has been taken from the queue, and none was solved. *)
Lemma inv_exhausted k done v :
  bfs_inv c d k done [] [] v →
  ∀ q, Forall (λ m, m ∈ moves) q → length q ≤ d →
       ∃ s p, replay q c = Some s ∧ is_solved s = false ∧
              (s, p) ∈ done ∧ length p ≤ length q.
Proof.
  intros Hinv q. induction q as [|m q IH] using rev_ind; intros Hq Hlen.
  - destruct (inv_cover _ _ _ _ _ _ _ Hinv [] Hq ltac:(simpl; lia))
      as (s & p & Hs & Hsolved & Hin & Hp).
    exists s, p. by rewrite !app_nil_r in Hin.
  - destruct (decide (length (q ++ [m]) ≤ k)) as [Hk|Hk].
    { destruct (inv_cover _ _ _ _ _ _ _ Hinv _ Hq Hk)
        as (s & p & Hs & Hsolved & Hin & Hp).
      exists s, p. by rewrite !app_nil_r in Hin. }
    apply Forall_app in Hq as [Hq Hm]. rewrite Forall_singleton in Hm.
    rewrite length_app in Hlen, Hk. simpl in Hlen, Hk.
    destruct (IH Hq ltac:(lia)) as (s & p & Hs & Hsolved & Hin & Hp).
    destruct (inv_closed _ _ _ _ _ _ _ Hinv s p m Hin ltac:(lia) Hm)
      as (s1 & Hs1 & Hsolved1 & Hvisited).
    destruct (inv_visited _ _ _ _ _ _ _ Hinv _ Hvisited)
      as (s2 & p2 & Hin2 & Hstr).
    assert ((s, p) ∈ done ++ [] ++ []) as Hin' by by rewrite !app_nil_r.
    destruct (inv_node_wf c d Hwf _ _ _ _ _ _ _ Hinv Hin') as [Hwfs Hhs].
    destruct (inv_node_wf c d Hwf _ _ _ _ _ _ _ Hinv Hin2) as [Hwfs2 Hhs2].
    destruct (apply_move_total m false s Hwfs) as (s1' & Hs1' & Hwfs1 & Hhs1).
    rewrite Hs1 in Hs1'. injection Hs1' as <-. simpl in Hhs1.
    assert (s2 = s1) as ->
      by (apply same_string_same_cube; [done|done|congruence|done]).
    rewrite !app_nil_r in Hin2.
    exists s1, p2. split; [by rewrite replay_snoc, Hs|]. split; [done|].
    split; [done|].
    pose proof (inv_done _ _ _ _ _ _ _ Hinv s1 p2 Hin2).
    rewrite length_app. simpl. lia.
Qed.

(** A search that ends without a path, by the queue running empty, has
    seen every state within [d] canonical moves. *)
Lemma bfs_loop_exhausts (fuel : nat) :
  ∀ k done q1 q2 v n q s',
    bfs_inv c d k done q1 q2 v →
    N.to_nat n + pending d (q1 ++ q2) ≤ subtree d →
    bfs_loop fuel d t (q1 ++ q2) v n = Some None →
    Forall (λ m, m ∈ moves) q → length q ≤ d →
    replay q c = Some s' → is_solved s' = false.
Proof.
  induction fuel as [|fuel IH]; [done|].
  assert (∀ k done s p q1 q2 v n q s',
    bfs_inv c d k done ((s, p) :: q1) q2 v →
    N.to_nat n + pending d (((s, p) :: q1) ++ q2) ≤ subtree d →
    bfs_loop (S fuel) d t (((s, p) :: q1) ++ q2) v n = Some None →
    Forall (λ m, m ∈ moves) q → length q ≤ d →
    replay q c = Some s' → is_solved s' = false) as Hstep.
  { intros k done s p q1 q2 v n q s' Hinv.
    change (((s, p) :: q1) ++ q2) with ((s, p) :: (q1 ++ q2)).
    cbn [pending]. intros Hpot.
    pose proof (subtree_pos (d - length p)) as Hpos.
    rewrite bfs_loop_S, Hclock.
    destruct (max_nodes <? n)%N eqn:Hn; [apply N.ltb_lt in Hn; lia|].
    case_decide as Hd.
    { intros Hloop.
      refine (IH _ _ _ _ _ _ _ _ (inv_skip _ _ _ _ _ _ _ _ _ Hinv Hd) _ Hloop).
      lia. }
    destruct (try_moves s p moves (q1 ++ q2) v) as [sol'|[queue' v']] eqn:Htry;
      [done|].
    pose proof (try_moves_pending d _ _ _ _ _ _ _ Htry) as Hnew.
    change (length moves) with 12 in Hnew.
    assert (subtree (d - length p) = 1 + 12 * subtree (d - S (length p))) as Hsub.
    { replace (d - length p) with (S (d - S (length p))) by lia. done. }
    destruct (inv_expand _ _ Hwf _ _ _ _ _ _ _ _ _ Hinv ltac:(lia) Htry)
      as (new & -> & Hinv').
    intros Hloop.
    refine (IH _ _ _ _ _ _ _ _ Hinv' _ Hloop). lia. }
  intros k done q1 q2 v n q s' Hinv.
  destruct q1 as [|[s p] q1].
  - destruct q2 as [|[s p] q2].
    + intros _ _ Hq Hlen Hs'.
      destruct (inv_exhausted _ _ _ Hinv q Hq Hlen) as (s & p & Hs & Hsolved & _).
      congruence.
    + intros Hpot Hloop. apply (Hstep (S k) done s p q2 [] v n).
      * by apply inv_next_level.
      * by rewrite app_nil_r.
      * rewrite app_nil_r. exact Hloop.
  - by apply (Hstep k done).
Qed.
End SearchComplete.

(** With a clock that does not fire and a depth limit of at most four,
    [solve_bfs] answers [None] only when no sequence of at most
    [d] canonical moves solves the cube. *)
Lemma solve_bfs_none (c : RubiksCube) (d : nat) (t : N → bool)
    (q : list string) (s' : RubiksCube) :
  wf c → d ≤ 4 → (∀ n, t n = false) →
  solve_bfs c d t = None →
  Forall (λ m, m ∈ moves) q → length q ≤ d →
  replay q c = Some s' → is_solved s' = false.
Proof.
  intros Hwf Hd Hclock Hnone Hq Hlen Hs'.
  destruct (solve_bfs_returns c d t) as [Heq Hsome].
  rewrite Heq in Hnone. destruct (is_solved c) eqn:Hc; [done|].
  destruct Hsome as [r Hloop]. rewrite Hloop in Hnone. simpl in Hnone. subst r.
  rewrite copy_id in Hloop.
  eapply (bfs_loop_exhausts c d t Hwf Hc Hclock (subtree_within_budget d Hd)
            bfs_fuel 0 [] [(c, [])] []);
    [by apply inv_init| |exact Hloop|done..].
  simpl. rewrite Nat.sub_0_r. lia.
Qed.

(** So when such a sequence exists, [solve_bfs] returns a path. *)
Lemma solve_bfs_some (c : RubiksCube) (d : nat) (t : N → bool)
    (q : list string) (s' : RubiksCube) :
  wf c → d ≤ 4 → (∀ n, t n = false) →
  Forall (λ m, m ∈ moves) q → length q ≤ d →
  replay q c = Some s' → is_solved s' = true →
  is_Some (solve_bfs c d t).
Proof.
  intros Hwf Hd Hclock Hq Hlen Hs' Hsolved.
  destruct (solve_bfs c d t) as [sol|] eqn:Hbfs; [done|].
  rewrite (solve_bfs_none c d t q s' Hwf Hd Hclock Hbfs Hq Hlen Hs') in Hsolved.
  done.
Qed.

(** X24. The search is complete up to depth four: when the clock does not
    fire and some sequence of at most [d ≤ 4] canonical moves solves a
    cube grid, [solve_bfs] with depth limit [d] returns a path, and that
    path is no longer than the sequence. *)
Theorem solve_bfs_finds_short_solutions (c : RubiksCube) (d : nat)
    (t : N → bool) (q : list string) (s' : RubiksCube) :
  wf c → d ≤ 4 → (∀ n, t n = false) →
  Forall (λ m, m ∈ moves) q → length q ≤ d →
  replay q c = Some s' → is_solved s' = true →
  ∃ sol, solve_bfs c d t = Some sol ∧ length sol ≤ length q.
Proof.
  intros Hwf Hd Hclock Hq Hlen Hs' Hsolved.
  destruct (solve_bfs_some c d t q s' Hwf Hd Hclock Hq Hlen Hs' Hsolved)
    as [sol Hbfs].
  exists sol. split; [done|].
  destruct (solve_bfs_shortest_solution c d t sol Hwf Hbfs) as (_ & _ & Hmin).
  destruct (decide (length sol ≤ length q)) as [|Hlong]; [done|].
  rewrite (Hmin q s' Hq ltac:(lia) Hs') in Hsolved. done.
Qed.

Lemma solve_bfs_finds_short_solutions_witness :
  ∃ sol, solve_bfs (turned ["R"; "U"; "F'"]) 3 (λ _, false) = Some sol ∧
         length sol ≤ 3.
Proof.
  apply (solve_bfs_finds_short_solutions (turned ["R"; "U"; "F'"]) 3
           (λ _, false) ["F"; "U'"; "R'"] init).
  - apply (replay_wf ["R"; "U"; "F'"] init); [apply wf_init|].
    vm_compute. reflexivity.
  - lia.
  - reflexivity.
  - unfold moves. repeat constructor.
  - simpl. lia.
  - vm_compute. reflexivity.
  - reflexivity.
Defined.

Lemma search_depths_finds (clock : nat → N → bool) (c : RubiksCube)
    (depths : list nat) (d : nat) (m : string) (rest : list string) :
  d ∈ depths → solve_bfs c d (clock d) = Some (m :: rest) →
  search_depths clock c depths ≠ [].
Proof.
  induction depths as [|d' depths IH]; [by intros ?%elem_of_nil|].
  intros [->|Hd]%elem_of_cons Hbfs; simpl.
  - by rewrite Hbfs.
  - destruct (solve_bfs c d' (clock d')) as [[|m' rest']|]; [by apply IH|done|].
    by apply IH.
Qed.

(** X25. [solve_cube] does not fail close to the solved state: on an
    unsolved cube grid without history that some sequence of at most four
    canonical moves solves, and with a clock that does not fire,
    [solve_cube] returns a non-empty path that solves the cube; without
    the external solver that path is a shortest one, so no longer than
    the sequence. *)
Theorem solve_cube_solves_short_scrambles
    (KOCIEMBA_AVAILABLE : bool) (kociemba_solve : string → option string)
    (clock : nat → N → bool) (c : RubiksCube) (q : list string)
    (s' : RubiksCube) :
  wf c → move_history c = [] → is_solved c = false →
  (∀ d n, clock d n = false) →
  Forall (λ m, m ∈ moves) q → length q ≤ 4 →
  replay q c = Some s' → is_solved s' = true →
  ∃ sol s'',
    solve_cube KOCIEMBA_AVAILABLE kociemba_solve clock c = Some sol ∧
    sol ≠ [] ∧ replay sol c = Some s'' ∧ is_solved s'' = true ∧
    (KOCIEMBA_AVAILABLE = false →
       length sol ≤ length q ∧ shortest_solution c 8 sol).
Proof.
  intros Hwf Hhist Hc Hclock Hq Hlen Hs' Hsolved.
  unfold solve_cube, method1. rewrite Hc, Hhist.
  destruct (method2 _ _ c) as [kociemba_solution|] eqn:H2.
  { destruct (method2_sound _ _ _ _ H2) as (s'' & Hs'' & Hsolved'').
    rewrite copy_id in Hs''.
    exists kociemba_solution, s''. split; [done|]. split.
    - unfold method2 in H2. destruct KOCIEMBA_AVAILABLE; [|done].
      destruct (solve_kociemba _ _ c) as [[|m rest]|]; [done| |done].
      destruct (exec _ _) as [tc|]; [|done]. destruct (is_solved tc); [|done].
      by injection H2 as <-.
    - split; [done|]. split; [done|].
      intros ->. done. }
  assert (q ≠ []) as Hne.
  { intros ->. unfold replay in Hs'. rewrite apply_all_nil in Hs'. congruence. }
  assert (1 ≤ length q) as Hpos by (destruct q; [done|simpl; lia]).
  destruct (solve_bfs_some c (length q) (clock (length q)) q s'
              Hwf Hlen (Hclock _) Hq (le_n _) Hs' Hsolved) as [sol0 Hsol0].
  assert (sol0 ≠ []) as Hne0.
  { intros ->. unfold solve_bfs in Hsol0. rewrite Hc in Hsol0.
    destruct (bfs_loop _ _ _ _ _ _) as [r|] eqn:Hloop; [|done]. subst r.
    apply bfs_loop_canonical in Hloop as [_ ?]; [done|].
    by intros s p [= -> ->]%list_elem_of_singleton. }
  destruct sol0 as [|m0 rest0]; [done|].
  assert (method3 clock c ≠ []) as Hfound.
  { unfold method3, max_search_depth. rewrite Hhist.
    apply (search_depths_finds clock c _ (length q) m0 rest0); [|done].
    apply elem_of_seq. lia. }
  destruct (method3 clock c) as [|m rest] eqn:H3; [done|].
  assert (shortest_solution c 8 (m :: rest)) as Hshort.
  { unfold method3, max_search_depth in H3. rewrite Hhist in H3.
    apply search_depths_from in H3 as (d' & Hd' & Hbfs).
    apply elem_of_seq in Hd'.
    destruct (solve_bfs_shortest_solution c d' _ _ Hwf Hbfs) as (? & ? & ?).
    split; [lia|done]. }
  destruct Hshort as (Hlen8 & (s'' & Hs'' & Hsolved'') & Hmin).
  exists (m :: rest), s''. split; [done|]. split; [done|].
  split; [done|]. split; [done|]. intros _. split.
  - destruct (decide (length (m :: rest) ≤ length q)) as [|Hlong]; [done|].
    rewrite (Hmin q s' Hq ltac:(lia) Hs') in Hsolved. done.
  - split; [done|]. split; [by exists s''|done].
Qed.

Lemma solve_cube_solves_short_scrambles_witness :
  ∃ sol s'',
    solve_cube false (λ _, None) (λ _ _, false) (turned ["R"; "U"]) = Some sol ∧
    sol ≠ [] ∧ replay sol (turned ["R"; "U"]) = Some s'' ∧
    is_solved s'' = true ∧
    (false = false →
       length sol ≤ length ["U'"; "R'"] ∧
       shortest_solution (turned ["R"; "U"]) 8 sol).
Proof.
  apply (solve_cube_solves_short_scrambles false (λ _, None) (λ _ _, false)
           (turned ["R"; "U"]) ["U'"; "R'"] init).
  - apply (replay_wf ["R"; "U"] init); [apply wf_init|].
    vm_compute. reflexivity.
  - reflexivity.
  - reflexivity.
  - reflexivity.
  - unfold moves. repeat constructor.
  - simpl. lia.
  - vm_compute. reflexivity.
  - reflexivity.
Defined.

(** * The moves are the quarter turns of a cube *)

Lemma move_index_quarter_turn (m : string) :
  m ∈ moves →
  ∃ func_name clockwise face,
    dict_get move_map m = Some (func_name, clockwise) ∧
    method_face func_name = Some face ∧
    Forall2 (λ src k,
      turn_sticker (normal face) clockwise <$> sticker src = sticker k)
      (move_index m) (seq 0 54).
Proof.
  intros Hm.
  each_move Hm;
    (eexists; eexists; eexists; split; [reflexivity|]; split; [reflexivity|];
     apply (bool_decide_unpack _); vm_compute; exact I).
Qed.

Lemma pick_lookup (l : list color) (idx : list nat) (k src : nat) :
  idx !! k = Some src → src < length l → pick l idx !! k = l !! src.
Proof.
  intros Hk Hsrc. unfold pick. rewrite list_lookup_fmap, Hk. simpl.
  by destruct (lookup_lt_is_Some_2 l src Hsrc) as [x ->].
Qed.

(** X26. The twelve moves are the quarter turns of a real cube.  With the
    six faces laid out on a cube in the usual unfolding, the 54 stickers
    are distinct, and for every canonical move and every position [k] the
    facelet found at [k] after the move is the one that was at the
    position [src] whose sticker the quarter turn of the moved face,
    clockwise seen from outside for a plain token and counterclockwise
    for a primed one, carries to the sticker of [k]; stickers outside the
    turned layer stay. *)
Theorem moves_are_quarter_turns :
  NoDup (sticker <$> seq 0 54) ∧
  ∀ m k, m ∈ moves → k < 54 →
    ∃ func_name clockwise face src,
      dict_get move_map m = Some (func_name, clockwise) ∧
      method_face func_name = Some face ∧
      turn_sticker (normal face) clockwise <$> sticker src = sticker k ∧
      ∀ s s', wf s → exec (apply_move m false) s = Some s' →
              facelets s' !! k = facelets s !! src.
Proof.
  split; [apply (bool_decide_unpack _); vm_compute; exact I|].
  intros m k Hm Hk.
  destruct (move_index_quarter_turn m Hm)
    as (func_name & clockwise & face & Hmap & Hface & Hall).
  assert (seq 0 54 !! k = Some k) as Hseq by by apply lookup_seq_lt.
  destruct (Forall2_lookup_r _ _ _ _ _ Hall Hseq) as (src & Hsrc & Hturn).
  exists func_name, clockwise, face, src.
  split; [done|]. split; [done|]. split; [done|].
  intros s s' Hwf Hs'.
  rewrite (move_index_spec m s s' Hwf Hm Hs').
  apply pick_lookup; [done|].
  rewrite facelets_length by done.
  assert (src ∈ seq 0 54) as Hin.
  { rewrite <-(move_index_perm m Hm). by eapply list_elem_of_lookup_2. }
  apply elem_of_seq in Hin. lia.
Qed.

Lemma moves_are_quarter_turns_witness :
  ∃ src,
    turn_sticker (normal RIGHT) true <$> sticker src = sticker 2 ∧
    ∀ s s', wf s → exec (apply_move "R" false) s = Some s' →
            facelets s' !! 2 = facelets s !! src.
Proof.
  destruct (proj2 moves_are_quarter_turns "R" 2)
    as (func_name & clockwise & face & src & Hmap & Hface & Hturn & Hcode).
  - unfold moves. repeat constructor.
  - lia.
  - injection Hmap as <- <-. injection Hface as <-.
    exists src. split; [exact Hturn|exact Hcode].
Defined.

(** * The two models agree *)

(** X27. The store model, where moves write into the row objects of the
    cube, and the value model compute the same: on a store that holds one
    cube grid, [apply_move] returns without raising and leaves in the
    same row objects exactly the grid, and in the cube object exactly the
    history, that the value model computes; [get_state_string] and
    [is_solved] then read the value model's results and write nothing. *)
Theorem store_model_agrees (c : RubiksCube) (m : string) (th : bool) :
  wf c →
  ∃ c', exec (apply_move m th) c = Some c' ∧
        Store.apply_move 0 m th (Store.single (faces c) (move_history c))
          = (Some (), Store.single (faces c') (move_history c')) ∧
        Store.get_state_string 0 (Store.single (faces c') (move_history c'))
          = (Some (get_state_string c'),
             Store.single (faces c') (move_history c')) ∧
        Store.is_solved 0 (Store.single (faces c') (move_history c'))
          = (Some (is_solved c'), Store.single (faces c') (move_history c')).
Proof.
  intros Hwf.
  destruct (apply_move_total m th c Hwf) as (c' & Hc' & Hwf' & _).
  exists c'. split; [done|]. split; [|split].
  - destruct (decide (m ∈ moves)) as [Hm|Hm].
    + by apply store_apply_move_agrees.
    + unfold exec in Hc'. rewrite apply_move_invalid in Hc' by done.
      injection Hc' as <-. unfold Store.apply_move.
      by rewrite (proj2 (dict_get_move_map_None m) Hm).
  - by apply store_get_state_string_agrees.
  - by apply store_is_solved_agrees.
Qed.

Lemma store_model_agrees_witness :
  ∃ c', exec (apply_move "B'" true) init = Some c' ∧
        Store.apply_move 0 "B'" true solved_store
          = (Some (), Store.single (faces c') (move_history c')).
Proof.
  destruct (store_model_agrees init "B'" true wf_init)
    as (c' & Hc' & Hstore & _).
  exists c'. split; [exact Hc'|exact Hstore].
Defined.
